(** * openclaw-claude-cli: streaming executor, stream-json accumulator and
    embedded-session bridge

    A shallow embedding of

    - [src/process/exec-streaming.ts]            ([runCommandStreaming]),
    - [src/agents/cli-runner/stream-json-parser.ts] ([StreamJsonAccumulator]),
    - [src/agents/pi-embedded-subscribe.ts]      ([stripThinkingSegments],
                                                  [subscribeEmbeddedPiSession]),

    together with the JavaScript built-ins these files rely on (strings as
    sequences of UTF-16 code units, [JSON.parse], [JSON.stringify], the
    sticky state of a global regular expression).

    Mutable objects become records threaded through a small state, trace and
    exception monad; every call of a caller-supplied callback is recorded in
    the trace, in program order. *)

From Stdlib Require Import Ascii String.
From Stdlib.Strings Require Import Byte.
From stdpp Require Import base numbers option list gmap.

Local Open Scope N_scope.
Set Warnings "-register-all".

(* ================================================================== *)
(** * JavaScript strings *)
(* ================================================================== *)

Module JS.

(** A JavaScript string is a finite sequence of 16-bit code units. *)
Abbreviation jsstring := (list N).

Definition chr (a : ascii) : N := N_of_ascii a.

(** [js "abc"] is the JavaScript string literal ["abc"]. *)
Definition js (s : string) : jsstring := map N_of_ascii (list_ascii_of_string s).

Definition LF : N := 10.
Definition QUOTE : N := 34.
Definition BACKSLASH : N := 92.

(** [s.indexOf(c)] for a one-unit needle; [None] stands for [-1]. *)
Fixpoint indexOf (s : jsstring) (c : N) : option nat :=
  match s with
  | [] => None
  | x :: s' => if x =? c then Some 0%nat else S <$> indexOf s' c
  end.

(** [s.includes(c)] for a one-unit needle. *)
Definition includes (s : jsstring) (c : N) : bool :=
  match indexOf s c with Some _ => true | None => false end.

(** [s.slice(from, to)] and [s.slice(from)] for non-negative arguments. *)
Definition slice (s : jsstring) (from to : nat) : jsstring :=
  take (to - from)%nat (drop from s).
Definition slice_from (s : jsstring) (from : nat) : jsstring := drop from s.

(** [s.split(c)] for a one-unit separator: the pieces between separators,
    the last piece being what follows the last separator. *)
Fixpoint split_on (c : N) (s : jsstring) : list jsstring :=
  match s with
  | [] => [[]]
  | x :: s' =>
      if x =? c then [] :: split_on c s'
      else match split_on c s' with
           | p :: ps => (x :: p) :: ps
           | [] => [[x]]
           end
  end.

(** The code units matched by [\s] and removed by [trim]: WhiteSpace and
    LineTerminator of ECMA-262. *)
Definition isWhiteSpace (c : N) : bool :=
  (c =? 9) || (c =? 10) || (c =? 11) || (c =? 12) || (c =? 13) || (c =? 32)
  || (c =? 160) || (c =? 5760) || ((8192 <=? c) && (c <=? 8202))
  || (c =? 8232) || (c =? 8233) || (c =? 8239) || (c =? 8287)
  || (c =? 12288) || (c =? 65279).

Fixpoint trimStart (s : jsstring) : jsstring :=
  match s with
  | c :: s' => if isWhiteSpace c then trimStart s' else s
  | [] => []
  end.
Definition trimEnd (s : jsstring) : jsstring := reverse (trimStart (reverse s)).
Definition trim (s : jsstring) : jsstring := trimEnd (trimStart s).

(** [toLowerCase] on the Basic Latin letters; the program applies it only to
    a matched tag, which holds ASCII letters, white space and punctuation. *)
Definition lower (c : N) : N := if (65 <=? c) && (c <=? 90) then c + 32 else c.
Definition upper (c : N) : N := if (97 <=? c) && (c <=? 122) then c - 32 else c.
Definition toLowerCase (s : jsstring) : jsstring := map lower s.

(** Values that can be thrown. *)
Inductive error :=
  | TypeError
  | Thrown (what : jsstring).

End JS.
Export JS.

(* ================================================================== *)
(** * State, trace and exceptions *)
(* ================================================================== *)

Module Eff.

Inductive completion (A : Type) :=
  | Normal (a : A)
  | Abrupt (e : error).
Arguments Normal {A} a.
Arguments Abrupt {A} e.

(** A computation over a mutable state [S] that records effects of type [E]
    in program order and either returns or throws. *)
Definition M (S E A : Type) : Type := S → completion A * S * list E.

Section ops.
Context {S E : Type}.

Definition ret {A} (a : A) : M S E A := λ s, (Normal a, s, []).

Definition bind {A B} (k : A → M S E B) (m : M S E A) : M S E B :=
  λ s, match m s with
       | (Normal a, s1, t1) =>
           let '(r, s2, t2) := k a s1 in (r, s2, t1 ++ t2)
       | (Abrupt e, s1, t1) => (Abrupt e, s1, t1)
       end.

Definition get : M S E S := λ s, (Normal s, s, []).
Definition put (s : S) : M S E unit := λ _, (Normal tt, s, []).
Definition modify (f : S → S) : M S E unit := λ s, (Normal tt, f s, []).
Definition emit (e : E) : M S E unit := λ s, (Normal tt, s, [e]).
Definition throw {A} (e : error) : M S E A := λ s, (Abrupt e, s, []).

(** [try { m } catch { h }] with a handler that ignores the exception. *)
Definition try_catch (m h : M S E unit) : M S E unit :=
  λ s, match m s with
       | (Abrupt _, s1, t1) =>
           let '(r, s2, t2) := h s1 in (r, s2, t1 ++ t2)
       | r => r
       end.

Definition when (b : bool) (m : M S E unit) : M S E unit :=
  if b then m else ret tt.

Fixpoint for_each {A} (l : list A) (body : A → M S E unit) : M S E unit :=
  match l with
  | [] => ret tt
  | x :: l' => bind (λ _, for_each l' body) (body x)
  end.

(** A computation that leaves the state as it found it. *)
Definition keeps_state {A} (m : M S E A) : Prop := ∀ s, (m s).1.2 = s.

(** How a call of a callback completes: a callback returns ([None]) or
    throws ([Some e]). *)
Definition completion_of (thrown : option error) : completion unit :=
  match thrown with
  | Some e => Abrupt e
  | None => Normal tt
  end.

Definition outcome {A} (r : completion A * S * list E) : completion A := r.1.1.
Definition state_of {A} (r : completion A * S * list E) : S := r.1.2.
Definition trace_of {A} (r : completion A * S * list E) : list E := r.2.

(** A computation that keeps the property [P] of the state, whether it
    returns or throws; and one that makes only effects with the property
    [Q]. *)
Definition preserves {A} (P : S → Prop) (m : M S E A) : Prop :=
  ∀ s, P s → P (state_of (m s)).
Definition emits_only {A} (Q : E → Prop) (m : M S E A) : Prop :=
  ∀ s, Forall Q (trace_of (m s)).
End ops.

#[global] Instance M_ret {S E} : MRet (M S E) := @ret S E.
#[global] Instance M_bind {S E} : MBind (M S E) := @bind S E.

End Eff.
Export Eff.

(* ================================================================== *)
(** * src/process/exec-streaming.ts *)
(* ================================================================== *)

Module ExecStreaming.

(** [SpawnResult] of [./exec.js], as the object literal built on close. *)
Record SpawnResult := {
  stdout : jsstring;
  stderr : jsstring;
  code : option Z;
  signal : option jsstring;
  killed : bool;
}.

(** The variables of the promise executor's closure, and the part of the
    child process object the function reads ([child.killed]). *)
Record state := {
  v_stderr : jsstring;
  lineBuffer : jsstring;
  settled : bool;
  timer : bool;          (* the timeout is still scheduled *)
  child_killed : bool;
}.

Definition set_stderr (f : jsstring → jsstring) (s : state) : state :=
  {| v_stderr := f (v_stderr s); lineBuffer := lineBuffer s;
     settled := settled s; timer := timer s; child_killed := child_killed s |}.
Definition set_lineBuffer (b : jsstring) (s : state) : state :=
  {| v_stderr := v_stderr s; lineBuffer := b;
     settled := settled s; timer := timer s; child_killed := child_killed s |}.
Definition set_settled (b : bool) (s : state) : state :=
  {| v_stderr := v_stderr s; lineBuffer := lineBuffer s;
     settled := b; timer := timer s; child_killed := child_killed s |}.
Definition set_timer (b : bool) (s : state) : state :=
  {| v_stderr := v_stderr s; lineBuffer := lineBuffer s;
     settled := settled s; timer := b; child_killed := child_killed s |}.
Definition set_child_killed (b : bool) (s : state) : state :=
  {| v_stderr := v_stderr s; lineBuffer := lineBuffer s;
     settled := settled s; timer := timer s; child_killed := b |}.

(** What the listeners do to the outside, in program order. *)
Inductive effect :=
  | OnStdoutLine (line : jsstring)
  | Kill (sig : jsstring)
  | ClearTimeout
  | Resolve (r : SpawnResult)
  | Reject (err : error).

Section executor.
Context {Buffer : Type} (Buffer_toString : Buffer → jsstring).

(** [options.onStdoutLine]: called with a line, it returns ([None]) or
    throws. *)
Variable onStdoutLine : jsstring → option error.

(** What the event loop delivers to the listeners the function registers. A
    fired timer carries whether the signal sent by [child.kill] reached the
    process, which is what Node records in [child.killed]. *)
Inductive event :=
  | stdout_data (chunk : Buffer)
  | stderr_data (d : Buffer)
  | child_error (err : error)
  | child_close (code : option Z) (signal : option jsstring)
  | timeout_fired (delivered : bool).

(** The closure when the listeners have been registered (lines 34-46: the
    child is spawned, the timer is scheduled, the input is written). *)
Definition initial : state :=
  {| v_stderr := []; lineBuffer := []; settled := false; timer := true;
     child_killed := false |}.

(** [onStdoutLine(line)]: the call is made, and then it returns or its
    exception leaves the listener. *)
Definition call_onStdoutLine (line : jsstring) : M state effect unit :=
  emit (OnStdoutLine line) ;;
  match onStdoutLine line with
  | Some err => throw err
  | None => mret tt
  end.

(** The [while] loop of lines 51-57. The buffer is cut before the callback is
    called. Each round removes at least the newline it found, so
    [S (length lineBuffer)] rounds are enough (see [while_newline_exits]). *)
Fixpoint while_newline (rounds : nat) : M state effect unit :=
  match rounds with
  | O => mret tt
  | S rounds' =>
      s ← get;
      match indexOf (lineBuffer s) LF with
      | None => mret tt
      | Some newlineIdx =>
          let line := slice (lineBuffer s) 0 newlineIdx in
          modify (set_lineBuffer (slice_from (lineBuffer s) (newlineIdx + 1))) ;;
          when (bool_decide (0 < length line)%nat) (call_onStdoutLine line) ;;
          while_newline rounds'
      end
  end.

Definition on_stdout_data (chunk : Buffer) : M state effect unit :=
  s ← get;
  modify (set_lineBuffer (lineBuffer s ++ Buffer_toString chunk)) ;;
  s ← get;
  while_newline (S (length (lineBuffer s))).

Definition on_stderr_data (d : Buffer) : M state effect unit :=
  modify (set_stderr (λ e, e ++ Buffer_toString d)).

Definition on_error (err : error) : M state effect unit :=
  s ← get;
  if settled s then mret tt
  else
    modify (set_settled true) ;;
    modify (set_timer false) ;; emit ClearTimeout ;;
    emit (Reject err).

Definition on_close (code : option Z) (signal : option jsstring)
  : M state effect unit :=
  s ← get;
  if settled s then mret tt
  else
    modify (set_settled true) ;;
    modify (set_timer false) ;; emit ClearTimeout ;;
    s ← get;
    when (bool_decide (0 < length (lineBuffer s))%nat)
      (call_onStdoutLine (lineBuffer s) ;; modify (set_lineBuffer [])) ;;
    s ← get;
    emit (Resolve {| stdout := []; stderr := v_stderr s; code := code;
                     signal := signal; killed := child_killed s |}).

(** The timer callback of lines 37-41; a cleared timer never fires. *)
Definition on_timeout (delivered : bool) : M state effect unit :=
  s ← get;
  if timer s then
    modify (set_timer false) ;;
    emit (Kill (js "SIGKILL")) ;;
    modify (set_child_killed (child_killed s || delivered))
  else mret tt.

Definition deliver (ev : event) : M state effect unit :=
  match ev with
  | stdout_data chunk => on_stdout_data chunk
  | stderr_data d => on_stderr_data d
  | child_error err => on_error err
  | child_close code signal => on_close code signal
  | timeout_fired delivered => on_timeout delivered
  end.

(** The listeners run in the order the events arrive. A listener that
    throws ends there, with the closure as it left it; nothing in the
    function catches the exception, and where the process survives it (a
    handler for uncaught exceptions is installed) the event loop goes on to
    the next event. *)
Fixpoint deliver_each (evs : list event) (s : state) : state * list effect :=
  match evs with
  | [] => (s, [])
  | ev :: evs' =>
      let r := deliver ev s in
      let '(s', t) := deliver_each evs' (state_of r) in
      (s', trace_of r ++ t)
  end.

(** One execution. *)
Definition run (evs : list event) : state * list effect :=
  deliver_each evs initial.

Definition is_terminal (ev : event) : bool :=
  match ev with
  | child_error _ | child_close _ _ => true
  | _ => false
  end.

(** The decoded text of the [stdout] chunks of a run, in arrival order. *)
Fixpoint stdout_text (evs : list event) : jsstring :=
  match evs with
  | [] => []
  | stdout_data chunk :: evs' => Buffer_toString chunk ++ stdout_text evs'
  | _ :: evs' => stdout_text evs'
  end.

(** The [stdout] chunks themselves. *)
Fixpoint stdout_chunks (evs : list event) : list Buffer :=
  match evs with
  | [] => []
  | stdout_data chunk :: evs' => chunk :: stdout_chunks evs'
  | _ :: evs' => stdout_chunks evs'
  end.

End executor.
Arguments event : clear implicits.

(** Projections of a trace. *)
Definition delivered_lines (t : list effect) : list jsstring :=
  omap (λ e, match e with OnStdoutLine l => Some l | _ => None end) t.

(** The calls of [resolve] and [reject], in order. *)
Inductive settlement :=
  | Fulfilled (r : SpawnResult)
  | Rejected (err : error).

Definition settlements (t : list effect) : list settlement :=
  omap (λ e, match e with
             | Resolve r => Some (Fulfilled r)
             | Reject err => Some (Rejected err)
             | _ => None
             end) t.

(** The lines that end in a newline, and what follows the last newline. *)
Fixpoint lines_and_rest (b : jsstring) : list jsstring * jsstring :=
  match b with
  | [] => ([], [])
  | x :: b' =>
      let '(ls, r) := lines_and_rest b' in
      if x =? LF then ([] :: ls, r)
      else match ls with
           | [] => ([], x :: r)
           | l :: ls' => ((x :: l) :: ls', r)
           end
  end.

(** The specification's reading of the output: every newline-terminated
    line with its newline stripped, then the unterminated remainder if
    there is one. *)
Definition spec_lines (text : jsstring) : list jsstring :=
  let '(ls, r) := lines_and_rest text in
  match r with [] => ls | _ => ls ++ [r] end.

Definition nonempty_lines (ls : list jsstring) : list jsstring :=
  filter (λ l, l ≠ []) ls.

Section trace_views.
Context {Buffer : Type} (Buffer_toString : Buffer → jsstring).

(** The decoded text of the [stderr] chunks, in arrival order. *)
Fixpoint stderr_text (evs : list (event Buffer)) : jsstring :=
  match evs with
  | [] => []
  | stderr_data d :: evs' => Buffer_toString d ++ stderr_text evs'
  | _ :: evs' => stderr_text evs'
  end.

(** Whether the timer fired, and then whether its signal was delivered. *)
Fixpoint first_timeout (evs : list (event Buffer)) : option bool :=
  match evs with
  | [] => None
  | timeout_fired delivered :: _ => Some delivered
  | _ :: evs' => first_timeout evs'
  end.

(** The first [error] or [close] event, with the events before it. *)
Fixpoint first_terminal (evs : list (event Buffer))
  : option (list (event Buffer) * event Buffer) :=
  match evs with
  | [] => None
  | ev :: evs' =>
      if is_terminal ev then Some ([], ev)
      else (λ '(pre, t), (ev :: pre, t)) <$> first_terminal evs'
  end.

(** The outcome that the first terminal event stands for. *)
Definition outcome_of (pre : list (event Buffer)) (t : event Buffer)
  : list settlement :=
  match t with
  | child_error err => [Rejected err]
  | child_close c sg =>
      [Fulfilled {| stdout := []; stderr := stderr_text pre; code := c;
                    signal := sg; killed := default false (first_timeout pre) |}]
  | _ => []
  end.

(** The closure after events none of which is [error] or [close]. *)
Definition after (pre : list (event Buffer)) (s : state) : state :=
  {| v_stderr := v_stderr s ++ stderr_text pre;
     lineBuffer := (lines_and_rest (lineBuffer s ++ stdout_text Buffer_toString pre)).2;
     settled := settled s;
     timer := timer s && bool_decide (first_timeout pre = None);
     child_killed := child_killed s || (timer s && default false (first_timeout pre)) |}.

End trace_views.

(** ** Buffers

    A chunk is a [Buffer], a sequence of bytes, and [chunk.toString()]
    decodes it as UTF-8, by itself: every ill-formed sequence, and a
    sequence that the end of the chunk cuts short, becomes U+FFFD. *)
Inductive utf8_state :=
  | Idle
  | Pending (cp : N) (needed : nat) (lower upper : N).

Definition REPLACEMENT : N := 65533.

(** A code point as UTF-16 code units. *)
Definition utf16 (cp : N) : jsstring :=
  if cp <? 65536 then [cp]
  else [55296 + (cp - 65536) / 1024; 56320 + (cp - 65536) mod 1024].

(** A byte where a character starts. *)
Definition utf8_lead (b : N) : utf8_state * jsstring :=
  if b <=? 127 then (Idle, [b])
  else if (194 <=? b) && (b <=? 223) then (Pending (b - 192) 1 128 191, [])
  else if (224 <=? b) && (b <=? 239) then
    (Pending (b - 224) 2 (if b =? 224 then 160 else 128)
       (if b =? 237 then 159 else 191), [])
  else if (240 <=? b) && (b <=? 244) then
    (Pending (b - 240) 3 (if b =? 240 then 144 else 128)
       (if b =? 244 then 143 else 191), [])
  else (Idle, [REPLACEMENT]).

(** A byte inside a character: a continuation byte in range goes on with
    it; any other byte ends it with U+FFFD and is read again as the start
    of a character. *)
Definition utf8_step (st : utf8_state) (b : N) : utf8_state * jsstring :=
  match st with
  | Idle => utf8_lead b
  | Pending cp needed lower upper =>
      if (lower <=? b) && (b <=? upper) then
        let cp' := 64 * cp + (b - 128) in
        match needed with
        | S (S n) => (Pending cp' (S n) 128 191, [])
        | _ => (Idle, utf16 cp')
        end
      else let '(st', out) := utf8_lead b in (st', REPLACEMENT :: out)
  end.

Fixpoint utf8_decode (st : utf8_state) (bytes : list N) : jsstring :=
  match bytes with
  | [] => match st with Idle => [] | Pending _ _ _ _ => [REPLACEMENT] end
  | b :: bytes' =>
      let '(st', out) := utf8_step st b in out ++ utf8_decode st' bytes'
  end.

(** The decoder after [bytes]. *)
Fixpoint utf8_after (st : utf8_state) (bytes : list N) : utf8_state :=
  match bytes with
  | [] => st
  | b :: bytes' => utf8_after (utf8_step st b).1 bytes'
  end.

(** [chunk.toString()]. *)
Definition toString (chunk : list byte) : jsstring :=
  utf8_decode Idle (Byte.to_N <$> chunk).

(** [Buffer.concat(chunks)]. *)
Definition Buffer_concat (chunks : list (list byte)) : list byte := concat chunks.

(** A chunk that does not end inside a multi-byte sequence. *)
Definition complete (chunk : list byte) : Prop :=
  utf8_after Idle (Byte.to_N <$> chunk) = Idle.

(** The bytes of a Basic Latin text. *)
Definition bytes (text : string) : list byte := list_byte_of_string text.

(** ** Callbacks *)

(** A callback that returns on every line, and one that throws on the
    line [bad] and returns on every other. *)
Definition returns_always : jsstring → option error := λ _, None.
Definition throws_on (bad : jsstring) : jsstring → option error :=
  λ line, if bool_decide (line = bad) then Some (Thrown (js "callback failed")) else None.

(** A text without its newlines. *)
Definition without_newlines (text : jsstring) : jsstring :=
  filter (λ c, c ≠ LF) text.

(** ** Views of a whole run *)

(** What the [data] listener alone makes of a text: its newline-terminated
    lines, the empty ones left out. *)
Definition terminated_lines (text : jsstring) : list jsstring :=
  nonempty_lines (lines_and_rest text).1.

(** The calls of [child.kill] and of [clearTimeout] in a trace, in order. *)
Definition timer_calls (t : list effect) : list effect :=
  omap (λ e, match e with Kill _ | ClearTimeout => Some e | _ => None end) t.

Definition is_close {Buffer} (ev : event Buffer) : bool :=
  match ev with child_close _ _ => true | _ => false end.

(** The signal sent when the timer fires among [evs]. *)
Definition kill_of {Buffer} (evs : list (event Buffer)) : list effect :=
  match first_timeout evs with
  | Some _ => [Kill (js "SIGKILL")]
  | None => []
  end.

(** The events that follow the first [error] or [close] event. *)
Definition after_terminal {Buffer} (evs : list (event Buffer)) : list (event Buffer) :=
  match first_terminal evs with
  | Some (pre, _) => drop (S (length pre)) evs
  | None => []
  end.

End ExecStreaming.

(* ================================================================== *)
(** * JSON values, [JSON.parse] and [JSON.stringify] *)
(* ================================================================== *)

Module Json.

(** What [JSON.parse] can return. A number keeps the literal it was read
    from; an object keeps its own properties in JavaScript's property
    order. [undefined] is [None] of [option value]. *)
Inductive value :=
  | VNull
  | VBool (b : bool)
  | VNumber (literal : jsstring)
  | VString (s : jsstring)
  | VArray (items : list value)
  | VObject (props : list (jsstring * value)).

Definition is_digit (c : N) : bool := (48 <=? c) && (c <=? 57).

Fixpoint decimal_value (acc : N) (s : jsstring) : N :=
  match s with
  | [] => acc
  | c :: s' => decimal_value (10 * acc + (c - 48)) s'
  end.

(** Array indices ([0] to [2^32 - 2] in canonical decimal form) come first
    among the keys of an object, in ascending order. *)
Definition array_index (k : jsstring) : option N :=
  match k with
  | [] => None
  | c :: k' =>
      if forallb is_digit k && (negb (c =? 48) || bool_decide (k' = []))
         && bool_decide (length k ≤ 10)%nat
      then let n := decimal_value 0 k in
           if n <? 4294967295 then Some n else None
      else None
  end.

Fixpoint lookup_prop (props : list (jsstring * value)) (k : jsstring)
  : option value :=
  match props with
  | [] => None
  | (k', v) :: props' => if bool_decide (k' = k) then Some v else lookup_prop props' k
  end.

Fixpoint replace_prop (props : list (jsstring * value)) (k : jsstring) (v : value)
  : list (jsstring * value) :=
  match props with
  | [] => []
  | (k', v') :: props' =>
      if bool_decide (k' = k) then (k, v) :: props'
      else (k', v') :: replace_prop props' k v
  end.

Fixpoint insert_index (props : list (jsstring * value)) (n : N) (k : jsstring)
  (v : value) : list (jsstring * value) :=
  match props with
  | [] => [(k, v)]
  | (k', v') :: props' =>
      match array_index k' with
      | Some n' =>
          if n' <? n then (k', v') :: insert_index props' n k v
          else (k, v) :: props
      | None => (k, v) :: props
      end
  end.

(** [CreateDataProperty]: an existing key keeps its place, a new one goes
    where the property order puts it. *)
Definition define_prop (props : list (jsstring * value)) (k : jsstring) (v : value)
  : list (jsstring * value) :=
  match lookup_prop props k with
  | Some _ => replace_prop props k v
  | None =>
      match array_index k with
      | Some n => insert_index props n k v
      | None => props ++ [(k, v)]
      end
  end.

(** [v.k] for a value other than [null] and a name that no prototype
    defines (the program reads [type], [session_id], [message], [content],
    [text], [tool_use_id], [name], [input], [args], [is_error], [output],
    [result], [usage], [input_tokens], [output_tokens]): an own property of
    an object, and [undefined] on arrays, strings, numbers and booleans. *)
Definition prop (v : value) (k : string) : option value :=
  match v with
  | VObject props => lookup_prop props (js k)
  | _ => None
  end.

(** [v?.k]. *)
Definition opt_prop (v : option value) (k : string) : option value :=
  match v with
  | Some v => prop v k
  | None => None
  end.

(** [a ?? b], and [a ?? b] for a [b] that is a value. *)
Definition nullish (a b : option value) : option value :=
  match a with
  | None | Some VNull => b
  | _ => a
  end.

Definition nullish_or (a : option value) (b : value) : value :=
  match a with
  | None | Some VNull => b
  | Some v => v
  end.

(** [typeof v === "string"], giving the string. *)
Definition as_string (v : option value) : option jsstring :=
  match v with Some (VString s) => Some s | _ => None end.

(** [v === "lit"]. *)
Definition is_str (v : option value) (lit : string) : bool :=
  match v with Some (VString s) => bool_decide (s = js lit) | _ => false end.

(** [v === true]. *)
Definition is_true (v : option value) : bool :=
  match v with Some (VBool true) => true | _ => false end.

(** [v] is [undefined] or [null]. *)
Definition absent (v : option value) : Prop := v = None ∨ v = Some VNull.

(** [v && typeof v === "object"]: objects and arrays ([null] is falsy). *)
Definition is_object (v : option value) : bool :=
  match v with Some (VObject _) | Some (VArray _) => true | _ => false end.

(** Object and string literals, for writing events down. *)
Definition str (s : string) : value := VString (js s).
Definition member (k : string) (v : value) : jsstring * value := (js k, v).
Definition obj (members : list (jsstring * value)) : value :=
  VObject (foldl (λ props m, define_prop props m.1 m.2) [] members).

(** ** The lexical grammar of JSON *)

Inductive token :=
  | TLBrace | TRBrace | TLBracket | TRBracket | TColon | TComma
  | TString (s : jsstring)
  | TNumber (literal : jsstring)
  | TTrue | TFalse | TNull.

Inductive num_state :=
  | NMinus | NZero | NInt | NDot | NFrac | NExp | NExpSign | NExpDigits.

Definition num_accepting (st : num_state) : bool :=
  match st with NZero | NInt | NFrac | NExpDigits => true | _ => false end.

Definition num_step (st : num_state) (c : N) : option num_state :=
  let dot := c =? 46 in
  let e := (c =? 101) || (c =? 69) in
  match st with
  | NMinus => if c =? 48 then Some NZero else if is_digit c then Some NInt else None
  | NZero => if dot then Some NDot else if e then Some NExp else None
  | NInt => if is_digit c then Some NInt else if dot then Some NDot
            else if e then Some NExp else None
  | NDot => if is_digit c then Some NFrac else None
  | NFrac => if is_digit c then Some NFrac else if e then Some NExp else None
  | NExp => if (c =? 43) || (c =? 45) then Some NExpSign
            else if is_digit c then Some NExpDigits else None
  | NExpSign => if is_digit c then Some NExpDigits else None
  | NExpDigits => if is_digit c then Some NExpDigits else None
  end.

Definition hex_value (c : N) : option N :=
  if is_digit c then Some (c - 48)
  else if (97 <=? c) && (c <=? 102) then Some (c - 87)
  else if (65 <=? c) && (c <=? 70) then Some (c - 55)
  else None.

Inductive lex_mode :=
  | LDefault
  | LStr (acc : jsstring)
  | LEscape (acc : jsstring)
  | LHex (acc : jsstring) (digits : list N)
  | LNum (st : num_state) (acc : jsstring)
  | LWord (expect : jsstring) (tok : token).

Definition is_json_space (c : N) : bool :=
  (c =? 32) || (c =? 9) || (c =? 10) || (c =? 13).

(** A code unit read between tokens. *)
Definition lex_start (c : N) : option (lex_mode * list token) :=
  if is_json_space c then Some (LDefault, [])
  else if c =? 123 then Some (LDefault, [TLBrace])
  else if c =? 125 then Some (LDefault, [TRBrace])
  else if c =? 91 then Some (LDefault, [TLBracket])
  else if c =? 93 then Some (LDefault, [TRBracket])
  else if c =? 58 then Some (LDefault, [TColon])
  else if c =? 44 then Some (LDefault, [TComma])
  else if c =? QUOTE then Some (LStr [], [])
  else if c =? 45 then Some (LNum NMinus [c], [])
  else if c =? 48 then Some (LNum NZero [c], [])
  else if is_digit c then Some (LNum NInt [c], [])
  else if c =? 116 then Some (LWord (js "rue") TTrue, [])
  else if c =? 102 then Some (LWord (js "alse") TFalse, [])
  else if c =? 110 then Some (LWord (js "ull") TNull, [])
  else None.

Definition unescape (c : N) : option N :=
  if (c =? QUOTE) || (c =? BACKSLASH) || (c =? 47) then Some c
  else if c =? 98 then Some 8
  else if c =? 102 then Some 12
  else if c =? 110 then Some 10
  else if c =? 114 then Some 13
  else if c =? 116 then Some 9
  else None.

Definition lex_step (m : lex_mode) (c : N) : option (lex_mode * list token) :=
  match m with
  | LDefault => lex_start c
  | LStr acc =>
      if c =? QUOTE then Some (LDefault, [TString acc])
      else if c =? BACKSLASH then Some (LEscape acc, [])
      else if c <? 32 then None
      else Some (LStr (acc ++ [c]), [])
  | LEscape acc =>
      if c =? 117 then Some (LHex acc [], [])
      else u ← unescape c; Some (LStr (acc ++ [u]), [])
  | LHex acc ds =>
      h ← hex_value c;
      let ds' := ds ++ [h] in
      if bool_decide (length ds' = 4%nat)
      then Some (LStr (acc ++ [foldl (λ a d, 16 * a + d) 0 ds']), [])
      else Some (LHex acc ds', [])
  | LNum st acc =>
      match num_step st c with
      | Some st' => Some (LNum st' (acc ++ [c]), [])
      | None =>
          if num_accepting st
          then '(m', ts) ← lex_start c; Some (m', TNumber acc :: ts)
          else None
      end
  | LWord expect tok =>
      match expect with
      | e :: rest =>
          if c =? e
          then Some (match rest with [] => (LDefault, [tok]) | _ => (LWord rest tok, []) end)
          else None
      | [] => None
      end
  end.

Fixpoint lex (m : lex_mode) (s : jsstring) : option (list token) :=
  match s with
  | [] =>
      match m with
      | LDefault => Some []
      | LNum st acc => if num_accepting st then Some [TNumber acc] else None
      | _ => None
      end
  | c :: s' =>
      '(m', ts) ← lex_step m c;
      rest ← lex m' s';
      Some (ts ++ rest)
  end.

(** ** The syntactic grammar, as a pushdown automaton over tokens *)

(** A container under construction: an array with the elements read so
    far, or an object with its properties and the key whose value is
    awaited. *)
Inductive frame :=
  | InArray (items : list value)
  | InObject (props : list (jsstring * value)) (key : option jsstring).

Inductive parse_mode :=
  | PValue        (* a value must follow *)
  | PValueOrEnd   (* after an opening bracket: a value or the closing one *)
  | PKeyOrEnd     (* after an opening brace: a key or the closing one *)
  | PKey          (* after a comma in an object *)
  | PColon        (* after a key *)
  | PNext         (* after a value in a container: a comma or the end *)
  | PDone (v : value).

Definition complete (v : value) (stack : list frame)
  : option (parse_mode * list frame) :=
  match stack with
  | [] => Some (PDone v, [])
  | InArray items :: stack' => Some (PNext, InArray (items ++ [v]) :: stack')
  | InObject props (Some k) :: stack' =>
      Some (PNext, InObject (define_prop props k v) None :: stack')
  | InObject _ None :: _ => None
  end.

Definition parse_value (t : token) (stack : list frame)
  : option (parse_mode * list frame) :=
  match t with
  | TNull => complete VNull stack
  | TTrue => complete (VBool true) stack
  | TFalse => complete (VBool false) stack
  | TNumber l => complete (VNumber l) stack
  | TString s => complete (VString s) stack
  | TLBracket => Some (PValueOrEnd, InArray [] :: stack)
  | TLBrace => Some (PKeyOrEnd, InObject [] None :: stack)
  | _ => None
  end.

Definition parse_key (t : token) (stack : list frame)
  : option (parse_mode * list frame) :=
  match t, stack with
  | TString k, InObject props None :: stack' =>
      Some (PColon, InObject props (Some k) :: stack')
  | _, _ => None
  end.

Definition parse_close (t : token) (stack : list frame)
  : option (parse_mode * list frame) :=
  match t, stack with
  | TRBracket, InArray items :: stack' => complete (VArray items) stack'
  | TRBrace, InObject props None :: stack' => complete (VObject props) stack'
  | _, _ => None
  end.

Definition parse_step (st : parse_mode * list frame) (t : token)
  : option (parse_mode * list frame) :=
  let '(m, stack) := st in
  match m with
  | PValue => parse_value t stack
  | PValueOrEnd =>
      match t with TRBracket => parse_close t stack | _ => parse_value t stack end
  | PKeyOrEnd =>
      match t with TRBrace => parse_close t stack | _ => parse_key t stack end
  | PKey => parse_key t stack
  | PColon => match t with TColon => Some (PValue, stack) | _ => None end
  | PNext =>
      match t, stack with
      | TComma, InArray _ :: _ => Some (PValue, stack)
      | TComma, InObject _ None :: _ => Some (PKey, stack)
      | _, _ => parse_close t stack
      end
  | PDone _ => None
  end.

Fixpoint parse_tokens (st : parse_mode * list frame) (ts : list token)
  : option value :=
  match ts with
  | [] => match st with (PDone v, []) => Some v | _ => None end
  | t :: ts' => st' ← parse_step st t; parse_tokens st' ts'
  end.

(** [JSON.parse(text)] without a reviver; [None] when it throws
    [SyntaxError]. *)
Definition JSON_parse (text : jsstring) : option value :=
  ts ← lex LDefault text; parse_tokens (PValue, []) ts.

(** ** [JSON.stringify] *)

Definition hex_digit (n : N) : N := if n <? 10 then 48 + n else 87 + n.

(** [\uXXXX] with lower-case digits. *)
Definition unicode_escape (c : N) : jsstring :=
  [BACKSLASH; 117; hex_digit (c / 4096 mod 16); hex_digit (c / 256 mod 16);
   hex_digit (c / 16 mod 16); hex_digit (c mod 16)].

Definition is_high_surrogate (c : N) : bool := (55296 <=? c) && (c <=? 56319).
Definition is_low_surrogate (c : N) : bool := (56320 <=? c) && (c <=? 57343).

Definition quote_unit (c : N) : jsstring :=
  if c =? 8 then [BACKSLASH; 98]
  else if c =? 9 then [BACKSLASH; 116]
  else if c =? 10 then [BACKSLASH; 110]
  else if c =? 12 then [BACKSLASH; 102]
  else if c =? 13 then [BACKSLASH; 114]
  else if c =? QUOTE then [BACKSLASH; QUOTE]
  else if c =? BACKSLASH then [BACKSLASH; BACKSLASH]
  else if (c <? 32) || is_high_surrogate c || is_low_surrogate c
       then unicode_escape c
  else [c].

Fixpoint quote_units (s : jsstring) : jsstring :=
  match s with
  | [] => []
  | c :: s' =>
      match s' with
      | d :: s'' =>
          if is_high_surrogate c && is_low_surrogate d
          then c :: d :: quote_units s''
          else quote_unit c ++ quote_units s'
      | [] => quote_unit c
      end
  end.

(** [QuoteJSONString]. *)
Definition quote (s : jsstring) : jsstring := [QUOTE] ++ quote_units s ++ [QUOTE].

Section stringify.
(** The text [JSON.stringify] prints for the number a literal denotes
    ([Number::toString] of the nearest double, [null] when that is not
    finite). Floating point is left to the caller of the model. *)
Variable number_to_string : jsstring → jsstring.

(** [JSON.stringify(v)] without replacer and indentation. *)
Fixpoint JSON_stringify (v : value) : jsstring :=
  match v with
  | VNull => js "null"
  | VBool true => js "true"
  | VBool false => js "false"
  | VNumber l => number_to_string l
  | VString s => quote s
  | VArray items =>
      [91] ++
      (fix elements (l : list value) : jsstring :=
         match l with
         | [] => []
         | x :: l' =>
             match l' with
             | [] => JSON_stringify x
             | _ => JSON_stringify x ++ [44] ++ elements l'
             end
         end) items
      ++ [93]
  | VObject props =>
      [123] ++
      (fix members (l : list (jsstring * value)) : jsstring :=
         match l with
         | [] => []
         | (k, x) :: l' =>
             match l' with
             | [] => quote k ++ [58] ++ JSON_stringify x
             | _ => quote k ++ [58] ++ JSON_stringify x ++ [44] ++ members l'
             end
         end) props
      ++ [125]
  end.

End stringify.

(** [JSON.stringify] of a value without numbers, or whose number literals
    are already as JavaScript prints them. *)
Definition print : value → jsstring := JSON_stringify (λ literal, literal).

End Json.
Export Json.

(* ================================================================== *)
(** * src/agents/cli-runner/stream-json-parser.ts *)
(* ================================================================== *)

Module StreamJson.

Record Usage := {
  input : option value;
  output : option value;
}.

Record CliOutput := {
  text : jsstring;
  sessionId : option jsstring;
  usage : option Usage;
}.

(** [StreamJsonCallbacks]: the three optional observers. An observer is
    called with its parameters ([{ name, toolCallId, args }] and
    [{ name, toolCallId, isError, result }] as tuples), and it returns
    ([None]) or throws. *)
Record StreamJsonCallbacks := {
  onAssistantText : option (jsstring → option error);
  onToolUse : option (jsstring * jsstring * value → option error);
  onToolResult : option (jsstring * jsstring * bool * jsstring → option error);
}.

(** An observer that never throws. *)
Definition observer_returns {A} (observer : option (A → option error)) : Prop :=
  ∀ f a, observer = Some f → f a = None.

Inductive call :=
  | AssistantText (text : jsstring)
  | ToolUse (name toolCallId : jsstring) (args : value)
  | ToolResult (name toolCallId : jsstring) (isError : bool) (result : jsstring).

(** The private fields of a [StreamJsonAccumulator]. *)
Record state := {
  v_sessionId : option jsstring;
  resultText : jsstring;
  v_usage : option Usage;
  toolNameById : gmap jsstring jsstring;
}.

Definition set_sessionId (x : option jsstring) (s : state) : state :=
  {| v_sessionId := x; resultText := resultText s; v_usage := v_usage s;
     toolNameById := toolNameById s |}.
Definition set_resultText (x : jsstring) (s : state) : state :=
  {| v_sessionId := v_sessionId s; resultText := x; v_usage := v_usage s;
     toolNameById := toolNameById s |}.
Definition set_usage (x : option Usage) (s : state) : state :=
  {| v_sessionId := v_sessionId s; resultText := resultText s; v_usage := x;
     toolNameById := toolNameById s |}.
Definition set_toolNameById (x : gmap jsstring jsstring) (s : state) : state :=
  {| v_sessionId := v_sessionId s; resultText := resultText s;
     v_usage := v_usage s; toolNameById := x |}.

(** [new StreamJsonAccumulator(callbacks)]. *)
Definition new : state :=
  {| v_sessionId := None; resultText := []; v_usage := None; toolNameById := ∅ |}.

Definition getToolName (s : state) (toolUseId : jsstring) : jsstring :=
  default (js "unknown") (toolNameById s !! toolUseId).

Definition finalize (s : state) : CliOutput :=
  {| text := resultText s; sessionId := v_sessionId s; usage := v_usage s |}.

(** [observer?.(a)]: nothing when the observer is absent; else the call is
    made, recorded as [c], and it returns or throws. *)
Definition call_observer {A} (observer : option (A → option error)) (a : A) (c : call)
  : M state call unit :=
  match observer with
  | None => mret tt
  | Some f => emit c ;; match f a with Some err => throw err | None => mret tt end
  end.

(** How such a call completes, and the calls it makes. *)
Definition answer {A} (observer : option (A → option error)) (a : A) : completion unit :=
  match observer with
  | Some f => completion_of (f a)
  | None => Normal tt
  end.

Definition calls {A} (observer : option (A → option error)) (c : call) : list call :=
  match observer with
  | Some _ => [c]
  | None => []
  end.

Section accumulator.
Variable number_to_string : jsstring → jsstring.
Variable callbacks : StreamJsonCallbacks.

(** Reading a property of [parsed] itself: [null] has none, and the read
    throws. *)
Definition read (parsed : value) (k : string) : M state call (option value) :=
  match parsed with
  | VNull => throw TypeError
  | _ => mret (prop parsed k)
  end.

(** [message?.content] when it is an array, else the empty array. *)
Definition content_blocks (message : option value) : list value :=
  match opt_prop message "content" with
  | Some (VArray l) => l
  | _ => []
  end.

Definition on_block (block : value) : M state call unit :=
  if is_object (Some block) && is_str (prop block "type") "text" then
    match as_string (prop block "text") with
    | Some text =>
        if bool_decide (0 < length text)%nat then
          s ← get;
          modify (set_resultText (resultText s ++ text)) ;;
          call_observer (onAssistantText callbacks) text (AssistantText text)
        else mret tt
    | None => mret tt
    end
  else mret tt.

Definition on_system (parsed : value) : M state call unit :=
  s ← get;
  modify (set_sessionId
            (match as_string (prop parsed "session_id") with
             | Some id => Some id
             | None => v_sessionId s
             end)).

Definition on_assistant (parsed : value) : M state call unit :=
  for_each (content_blocks (prop parsed "message")) on_block.

Definition on_tool_use (parsed : value) : M state call unit :=
  let toolCallId := default [] (as_string (prop parsed "tool_use_id")) in
  let name := default (js "unknown") (as_string (prop parsed "name")) in
  let args :=
    nullish_or (nullish (prop parsed "input") (prop parsed "args")) (VObject []) in
  when (bool_decide (toolCallId ≠ []))
    (s ← get; modify (set_toolNameById (<[toolCallId := name]> (toolNameById s)))) ;;
  call_observer (onToolUse callbacks) (name, toolCallId, args)
    (ToolUse name toolCallId args).

Definition tool_result_text (parsed : value) : jsstring :=
  match as_string (prop parsed "content") with
  | Some content => content
  | None =>
      match as_string (prop parsed "output") with
      | Some output => output
      | None =>
          JSON_stringify number_to_string
            (nullish_or (nullish (prop parsed "content") (prop parsed "output"))
                        (VString []))
      end
  end.

Definition on_tool_result (parsed : value) : M state call unit :=
  let toolCallId := default [] (as_string (prop parsed "tool_use_id")) in
  s ← get;
  let name := getToolName s toolCallId in
  let isError := is_true (prop parsed "is_error") in
  let result := tool_result_text parsed in
  call_observer (onToolResult callbacks) (name, toolCallId, isError, result)
    (ToolResult name toolCallId isError result).

Definition on_result (parsed : value) : M state call unit :=
  match as_string (prop parsed "result") with
  | Some r => when (bool_decide (0 < length r)%nat) (modify (set_resultText r))
  | None => mret tt
  end ;;
  match as_string (prop parsed "session_id") with
  | Some id => modify (set_sessionId (Some id))
  | None => mret tt
  end ;;
  when (is_object (prop parsed "usage"))
    (let raw := default VNull (prop parsed "usage") in
     modify (set_usage (Some
       {| input := nullish (prop raw "input_tokens") (prop raw "input");
          output := nullish (prop raw "output_tokens") (prop raw "output") |}))).

Definition handleLine (line : jsstring) : M state call unit :=
  match JSON_parse line with
  | None => mret tt
  | Some parsed =>
      type ← read parsed "type";
      if is_str type "system" then on_system parsed
      else if is_str type "assistant" then on_assistant parsed
      else if is_str type "tool_use" then on_tool_use parsed
      else if is_str type "tool_result" then on_tool_result parsed
      else if is_str type "result" then on_result parsed
      else mret tt
  end.

(** The accumulator after one call of [handleLine] per line, whether the
    call returned or threw, and the observer calls made on the way. *)
Fixpoint feed (lines : list jsstring) (s : state) : state * list call :=
  match lines with
  | [] => (s, [])
  | line :: lines' =>
      let r := handleLine line s in
      let '(s', t) := feed lines' (state_of r) in
      (s', trace_of r ++ t)
  end.

End accumulator.

(** ** Lines, written as the tests write them *)

Definition assistant_line (fragments : list jsstring) : jsstring :=
  print (obj [member "type" (str "assistant");
              member "message"
                (obj [member "content"
                        (VArray ((λ t, obj [member "type" (str "text");
                                            member "text" (VString t)])
                                   <$> fragments))])]).

Definition result_line (result : jsstring) : jsstring :=
  print (obj [member "type" (str "result"); member "result" (VString result)]).

Definition tool_use_line (id name : jsstring) : jsstring :=
  print (obj [member "type" (str "tool_use"); member "tool_use_id" (VString id);
              member "name" (VString name);
              member "input" (obj [member "file_path" (str "/foo/bar.ts")])]).

Definition denied_tool_result : value :=
  obj [member "type" (str "tool_result"); member "tool_use_id" (str "tu-3");
       member "is_error" (VBool true); member "output" (str "Permission denied")].

Definition bare_tool_result : value :=
  obj [member "type" (str "tool_result"); member "tool_use_id" (str "tu-3")].

Definition unkeyed_tool_use_event : value :=
  obj [member "type" (str "tool_use"); member "tool_use_id" (VNumber (js "7"))].

(** Observers that return, all three registered. *)
Definition all_observers : StreamJsonCallbacks :=
  {| onAssistantText := Some (λ _, None); onToolUse := Some (λ _, None);
     onToolResult := Some (λ _, None) |}.

(** A text observer that throws on the text [bad] and returns on every
    other, alone. *)
Definition text_observer_failing_on (bad : jsstring) : StreamJsonCallbacks :=
  {| onAssistantText :=
       Some (λ text, if bool_decide (text = bad)
                     then Some (Thrown (js "observer failed")) else None);
     onToolUse := None; onToolResult := None |}.

(** Observers of tool events that throw on every call, with no text
    observer. *)
Definition failing_tool_observers : StreamJsonCallbacks :=
  {| onAssistantText := None;
     onToolUse := Some (λ _, Some (Thrown (js "observer failed")));
     onToolResult := Some (λ _, Some (Thrown (js "observer failed"))) |}.

(** ** The protocol, as the specification reads a line *)

(** The text of a content block that counts: a block of kind [text] whose
    text is a non-empty string. *)
Definition text_fragment (block : value) : option jsstring :=
  if is_object (Some block) && is_str (prop block "type") "text" then
    match as_string (prop block "text") with
    | Some t => if bool_decide (t ≠ []) then Some t else None
    | None => None
    end
  else None.

(** The non-empty text blocks of an [assistant] line, in order; none for
    any other line. *)
Definition assistant_fragments (line : jsstring) : list jsstring :=
  match JSON_parse line with
  | Some parsed =>
      if is_str (prop parsed "type") "assistant"
      then omap text_fragment (content_blocks (prop parsed "message"))
      else []
  | None => []
  end.

Definition assistant_text (lines : list jsstring) : jsstring :=
  concat (lines ≫= assistant_fragments).

(** The result of a [result] line that carries a non-empty string. *)
Definition final_result (line : jsstring) : option jsstring :=
  match JSON_parse line with
  | Some parsed =>
      if is_str (prop parsed "type") "result" then
        match as_string (prop parsed "result") with
        | Some r => if bool_decide (r ≠ []) then Some r else None
        | None => None
        end
      else None
  | None => None
  end.

(** The last line with a final result, and the lines after it. *)
Fixpoint last_result (lines : list jsstring) : option (jsstring * list jsstring) :=
  match lines with
  | [] => None
  | line :: lines' =>
      match last_result lines' with
      | Some found => Some found
      | None => (λ r, (r, lines')) <$> final_result line
      end
  end.

(** C2 as the specification words it: the last final result if there is
    one, else all assistant text. *)
Definition claimed_text (lines : list jsstring) : jsstring :=
  match last_result lines with
  | Some (r, _) => r
  | None => assistant_text lines
  end.

(** The registration a line makes: the call id and the tool name of a
    [tool_use] line whose id is a non-empty string. *)
Definition registration (line : jsstring) : option (jsstring * jsstring) :=
  match JSON_parse line with
  | Some parsed =>
      if is_str (prop parsed "type") "tool_use" then
        match as_string (prop parsed "tool_use_id") with
        | Some id =>
            if bool_decide (id ≠ [])
            then Some (id, default (js "unknown") (as_string (prop parsed "name")))
            else None
        | None => None
        end
      else None
  | None => None
  end.

(** The five discriminators. *)
Definition recognized (type : option value) : bool :=
  is_str type "system" || is_str type "assistant" || is_str type "tool_use"
  || is_str type "tool_result" || is_str type "result".

(** ** What a line carries, field by field *)

(** The session id of a line: the [session_id] string of a [system] or a
    [result] line. *)
Definition session_of (line : jsstring) : option jsstring :=
  match JSON_parse line with
  | Some parsed =>
      if is_str (prop parsed "type") "system" || is_str (prop parsed "type") "result"
      then as_string (prop parsed "session_id")
      else None
  | None => None
  end.

(** The usage counts of a line: those of a [result] line whose [usage] is
    an object (or an array), each count read under its long name first. *)
Definition usage_of (line : jsstring) : option Usage :=
  match JSON_parse line with
  | Some parsed =>
      if is_str (prop parsed "type") "result" && is_object (prop parsed "usage")
      then
        let raw := default VNull (prop parsed "usage") in
        Some {| input := nullish (prop raw "input_tokens") (prop raw "input");
                output := nullish (prop raw "output_tokens") (prop raw "output") |}
      else None
  | None => None
  end.

(** The name under which [lines] leave the call id [id] registered: that
    of the last [tool_use] line that registers it. *)
Definition registered (lines : list jsstring) (id : jsstring) : option jsstring :=
  last (omap (λ line,
                match registration line with
                | Some (id', name) => if bool_decide (id' = id) then Some name else None
                | None => None
                end) lines).

(** The arguments of a [tool_use] event: [input ?? args ?? {}]. *)
Definition tool_args (parsed : value) : value :=
  nullish_or (nullish (prop parsed "input") (prop parsed "args")) (VObject []).

(** The texts handed to [onAssistantText] in a trace of observer calls. *)
Definition announced_text (t : list call) : list jsstring :=
  omap (λ c, match c with AssistantText x => Some x | _ => None end) t.

Definition no_observers : StreamJsonCallbacks :=
  {| onAssistantText := None; onToolUse := None; onToolResult := None |}.

End StreamJson.

(* ================================================================== *)
(** * Regular expressions with the [g] flag *)
(* ================================================================== *)

Module RegExp.

(** The fragment of the pattern language that [THINKING_TAG_RE] is written
    in: a sequence of atoms, each a class of code units, a greedy star of a
    class, or an optional group of classes. *)
Inductive atom :=
  | One (p : N → bool)
  | Star (p : N → bool)
  | Opt (ps : list (N → bool)).

(** A literal under the [i] flag: both sides are compared in upper case.
    No code unit outside Basic Latin canonicalizes to a Basic Latin one. *)
Definition lit (c : ascii) : N → bool := λ x, upper x =? upper (chr c).

(** A group of classes against a prefix of [s]: the rest on success. *)
Fixpoint match_group (ps : list (N → bool)) (s : jsstring) : option jsstring :=
  match ps with
  | [] => Some s
  | p :: ps' =>
      match s with
      | c :: s' => if p c then match_group ps' s' else None
      | [] => None
      end
  end.

(** The backtracking matcher, anchored at the start of [s]: the length of
    the match. A star takes as many units as it can and gives them back one
    at a time; an optional group is tried before it is skipped. *)
Fixpoint match_atoms (r : list atom) : jsstring → option nat :=
  match r with
  | [] => λ _, Some 0%nat
  | One p :: r' =>
      λ s, match s with
           | c :: s' => if p c then S <$> match_atoms r' s' else None
           | [] => None
           end
  | Star p :: r' =>
      fix star (s : jsstring) : option nat :=
        match s with
        | c :: s' =>
            if p c then
              match star s' with
              | Some n => Some (S n)
              | None => match_atoms r' s
              end
            else match_atoms r' s
        | [] => match_atoms r' []
        end
  | Opt ps :: r' =>
      λ s, match match_group ps s with
           | Some rest =>
               match match_atoms r' rest with
               | Some n => Some (length ps + n)%nat
               | None => match_atoms r' s
               end
           | None => match_atoms r' s
           end
  end.

(** The first match at or after the start of [s], which stands at [idx]:
    its index and length. *)
Fixpoint search (r : list atom) (s : jsstring) (idx : nat) : option (nat * nat) :=
  match match_atoms r s with
  | Some n => Some (idx, n)
  | None =>
      match s with
      | [] => None
      | _ :: s' => search r s' (S idx)
      end
  end.

(** [RegExpBuiltinExec] of a global expression: the match found from
    [lastIndex] on, and the new [lastIndex]. *)
Definition exec (r : list atom) (text : jsstring) (lastIndex : nat)
  : option (nat * nat) * nat :=
  if bool_decide (length text < lastIndex)%nat then (None, 0%nat)
  else match search r (drop lastIndex text) lastIndex with
       | Some (i, n) => (Some (i, n), (i + n)%nat)
       | None => (None, 0%nat)
       end.

(** [re.test(text)]. *)
Definition test (r : list atom) (text : jsstring) (lastIndex : nat) : bool * nat :=
  let '(m, lastIndex') := exec r text lastIndex in (bool_decide (is_Some m), lastIndex').

(** The successive matches from the start of [s] (at [idx]) once [skip]
    more units, which belong to the previous match, have been passed: each
    [(match.index, match[0])]. After an empty match the search moves on by
    one unit. *)
Fixpoint scan (r : list atom) (s : jsstring) (idx skip : nat)
  : list (nat * jsstring) :=
  match s with
  | [] =>
      match skip, match_atoms r [] with
      | O, Some _ => [(idx, [])]
      | _, _ => []
      end
  | _ :: s' =>
      match skip with
      | S skip' => scan r s' (S idx) skip'
      | O =>
          match match_atoms r s with
          | Some n => (idx, take n s) :: scan r s' (S idx) (pred n)
          | None => scan r s' (S idx) 0
          end
      end
  end.

(** [text.matchAll(re)]: the matches of a copy of [re] that starts at
    [re.lastIndex]; [re] itself is left as it is. *)
Definition matchAll (r : list atom) (text : jsstring) (lastIndex : nat)
  : list (nat * jsstring) :=
  if bool_decide (length text < lastIndex)%nat then []
  else scan r (drop lastIndex text) lastIndex 0.

(** The language of a pattern: the strings that it matches as a whole. *)
Fixpoint accepts (r : list atom) (w : jsstring) : Prop :=
  match r with
  | [] => w = []
  | One p :: r' => ∃ c w', w = c :: w' ∧ p c = true ∧ accepts r' w'
  | Star p :: r' =>
      ∃ a w', w = a ++ w' ∧ Forall (λ x, p x = true) a ∧ accepts r' w'
  | Opt ps :: r' =>
      accepts r' w ∨
      ∃ g w', w = g ++ w' ∧ Forall2 (λ p c, p c = true) ps g ∧ accepts r' w'
  end.

(** No class of the pattern accepts the code unit [c]. *)
Definition rejects (c : N) (r : list atom) : bool :=
  forallb (λ a, match a with
                | One p | Star p => negb (p c)
                | Opt ps => forallb (λ p, negb (p c)) ps
                end) r.

End RegExp.
Export RegExp.

(* ================================================================== *)
(** * src/agents/pi-embedded-subscribe.ts *)
(* ================================================================== *)

Module PiSubscribe.

(** [/<\s*\/?\s*think(?:ing)?\s*>/gi] *)
Definition THINKING_TAG_RE : list atom :=
  [ One (lit "<"); Star isWhiteSpace; Opt [lit "/"]; Star isWhiteSpace;
    One (lit "t"); One (lit "h"); One (lit "i"); One (lit "n"); One (lit "k");
    Opt [lit "i"; lit "n"; lit "g"]; Star isWhiteSpace; One (lit ">") ].

Definition LT : N := 60.
Definition GT : N := 62.
Definition SLASH : N := 47.

(** The pattern after its first atom, and before its last. *)
Definition after_lt : list atom := tail THINKING_TAG_RE.
Definition before_gt : list atom := removelast THINKING_TAG_RE.

(** The pattern from the name on. *)
Definition from_name : list atom := drop 4 THINKING_TAG_RE.

(** The body of the [for] loop of [stripThinkingSegments], on the loop
    variables [(result, lastIndex, inThinking)]. *)
Definition strip_step (text : jsstring) (acc : jsstring * nat * bool)
  (m : nat * jsstring) : jsstring * nat * bool :=
  let '(result, lastIndex, inThinking) := acc in
  let '(idx, m0) := m in
  let result := if inThinking then result else result ++ slice text lastIndex idx in
  let tag := toLowerCase m0 in
  (result, (idx + length m0)%nat, negb (includes tag SLASH)).

(** [stripThinkingSegments(text)], with [THINKING_TAG_RE.lastIndex] before
    and after the call. *)
Definition stripThinkingSegments (text : jsstring) (re_lastIndex : nat)
  : jsstring * nat :=
  if bool_decide (text = []) then (text, re_lastIndex)
  else
    let '(found, re_lastIndex) := test THINKING_TAG_RE text re_lastIndex in
    if negb found then (text, re_lastIndex)
    else
      let re_lastIndex := 0%nat in
      let '(result, lastIndex, inThinking) :=
        foldl (strip_step text) ([], 0%nat, false)
              (matchAll THINKING_TAG_RE text re_lastIndex) in
      (if inThinking then result else result ++ slice_from text lastIndex,
       re_lastIndex).

(** [stripThinkingSegments] as called by the bridge, whose regular
    expression rests at [lastIndex = 0] between calls. *)
Definition strip_text (text : jsstring) : jsstring :=
  (stripThinkingSegments text 0).1.

(** ** Markers, as the specification speaks of them *)

(** [tag] is one whole marker, opening or closing. *)
Definition is_tag (tag : jsstring) : bool :=
  bool_decide (match_atoms THINKING_TAG_RE tag = Some (length tag)).
Definition is_opening (tag : jsstring) : bool :=
  is_tag tag && negb (includes tag SLASH).
Definition is_closing (tag : jsstring) : bool :=
  is_tag tag && includes tag SLASH.

(** White space, and the two names a marker may carry, in any case. *)
Definition blank (s : jsstring) : Prop := Forall (λ x, isWhiteSpace x = true) s.
Definition is_name (name : jsstring) : Prop :=
  toLowerCase name = js "think" ∨ toLowerCase name = js "thinking".

(** The markers of a text, each with its index. *)
Definition markers (text : jsstring) : list (nat * jsstring) :=
  matchAll THINKING_TAG_RE text 0.

Definition no_marker (text : jsstring) : Prop := markers text = [].
Definition no_closing_marker (text : jsstring) : Prop :=
  Forall (λ m, includes m.2 SLASH = false) (markers text).

(** One pass over the text: the units that are outside every marker and
    outside every thinking span, and whether the text ends inside a span.
    [skip] units still belong to the marker being passed. *)
Fixpoint visible (inThinking : bool) (skip : nat) (s : jsstring) : jsstring * bool :=
  match s with
  | [] => ([], inThinking)
  | c :: s' =>
      match skip with
      | S skip' => visible inThinking skip' s'
      | O =>
          match match_atoms THINKING_TAG_RE s with
          | Some n =>
              visible (negb (includes (take n s) SLASH)) (pred n) s'
          | None =>
              let '(out, ends) := visible inThinking 0 s' in
              (if inThinking then out else c :: out, ends)
          end
      end
  end.

(** ** The collaborators the file imports

    [../auto-reply/tool-meta.js], [../media/parse.js] and
    [./pi-embedded-utils.js] are other modules; the bridge is stated over
    any implementation of them. A debouncer is an object with a state of its
    own: [push] and [flush] give its next state and the calls of its flush
    callback [(toolName, metas)] that they make before returning. *)
Class Collaborators := {
  AppMessage : Type;
  role : AppMessage → jsstring;
  extractAssistantText : AppMessage → jsstring;
  inferToolMetaFromArgs : jsstring → value → option jsstring;
  formatToolAggregate : option jsstring → option (list jsstring) → jsstring;
  splitMediaFromOutput : jsstring → jsstring * option (list jsstring);
  Debouncer : Type;
  createToolDebouncer : Debouncer;
  debouncer_push :
    jsstring → option jsstring → Debouncer →
    Debouncer * list (option jsstring * list jsstring);
  debouncer_flush : Debouncer → Debouncer * list (option jsstring * list jsstring);
}.

(** [{ text, mediaUrls }] as handed to [onToolResult] and [onPartialReply]. *)
Record Payload := {
  p_text : jsstring;
  p_mediaUrls : option (list jsstring);
}.

(** The [data] of an agent event. *)
Inductive EventData :=
  | ToolStart (name toolCallId : jsstring) (args : option value)
  | ToolResult (name toolCallId : jsstring) (meta : option jsstring) (isError : bool)
  | AssistantText (text : jsstring) (mediaUrls : option (list jsstring)).

(** What the bridge does to the outside: the telemetry emitter and the
    three caller-supplied sinks. *)
Inductive effect :=
  | EmitAgentEvent (runId stream : jsstring) (data : EventData)
  | OnAgentEvent (stream : jsstring) (data : EventData)
  | OnPartialReply (payload : Payload)
  | OnToolResult (payload : Payload).

Inductive VerboseLevel := off | on.

(** A sink returns ([None]) or throws ([Some e]). *)
Record Params := {
  runId : jsstring;
  verboseLevel : option VerboseLevel;
  shouldEmitToolResult : option (unit → bool);
  onToolResult : option (Payload → option error);
  onPartialReply : option (Payload → option error);
  onAgentEvent : option (jsstring * EventData → option error);
}.

(** [params] with another [onToolResult] sink. *)
Definition with_onToolResult (sink : option (Payload → option error)) (p : Params)
  : Params :=
  {| runId := runId p; verboseLevel := verboseLevel p;
     shouldEmitToolResult := shouldEmitToolResult p;
     onToolResult := sink;
     onPartialReply := onPartialReply p; onAgentEvent := onAgentEvent p |}.

(** A sink that never throws. *)
Definition returns {A} (sink : option (A → option error)) : Prop :=
  ∀ f a, sink = Some f → f a = None.

(** Whether tool results are delivered at all: lines 138-141. *)
Definition emits_tool_result (p : Params) : bool :=
  match shouldEmitToolResult p with
  | Some f => f tt
  | None => match verboseLevel p with Some on => true | _ => false end
  end.

(** An [assistantMessageEvent] that carries a text delta. *)
Definition text_delta (delta : jsstring) : value :=
  obj [member "type" (str "text_delta"); member "delta" (VString delta)].

Section bridge.
Context `{Collaborators}.

(** What the session emits to its subscriber. *)
Inductive AgentEvent :=
  | tool_execution_start (toolName toolCallId : jsstring) (args : value)
  | tool_execution_end (toolName toolCallId : jsstring) (isError : bool)
  | message_update (message : option AppMessage) (assistantMessageEvent : option value)
  | message_end (message : option AppMessage)
  | agent_end
  | other_event (type : jsstring).

(** The module-level regular expression and the variables of the closure
    of [subscribeEmbeddedPiSession]. *)
Record state := {
  re_lastIndex : nat;
  assistantTexts : list jsstring;
  toolMetas : list (jsstring * option jsstring);
  toolMetaById : gmap jsstring (option jsstring);
  deltaBuffer : jsstring;
  lastStreamedAssistant : option jsstring;
  toolDebouncer : Debouncer;
}.

Definition set_re_lastIndex (x : nat) (s : state) : state :=
  {| re_lastIndex := x; assistantTexts := assistantTexts s;
     toolMetas := toolMetas s; toolMetaById := toolMetaById s;
     deltaBuffer := deltaBuffer s;
     lastStreamedAssistant := lastStreamedAssistant s;
     toolDebouncer := toolDebouncer s |}.
Definition set_assistantTexts (x : list jsstring) (s : state) : state :=
  {| re_lastIndex := re_lastIndex s; assistantTexts := x;
     toolMetas := toolMetas s; toolMetaById := toolMetaById s;
     deltaBuffer := deltaBuffer s;
     lastStreamedAssistant := lastStreamedAssistant s;
     toolDebouncer := toolDebouncer s |}.
Definition set_toolMetas (x : list (jsstring * option jsstring)) (s : state) : state :=
  {| re_lastIndex := re_lastIndex s; assistantTexts := assistantTexts s;
     toolMetas := x; toolMetaById := toolMetaById s;
     deltaBuffer := deltaBuffer s;
     lastStreamedAssistant := lastStreamedAssistant s;
     toolDebouncer := toolDebouncer s |}.
Definition set_toolMetaById (x : gmap jsstring (option jsstring)) (s : state) : state :=
  {| re_lastIndex := re_lastIndex s; assistantTexts := assistantTexts s;
     toolMetas := toolMetas s; toolMetaById := x;
     deltaBuffer := deltaBuffer s;
     lastStreamedAssistant := lastStreamedAssistant s;
     toolDebouncer := toolDebouncer s |}.
Definition set_deltaBuffer (x : jsstring) (s : state) : state :=
  {| re_lastIndex := re_lastIndex s; assistantTexts := assistantTexts s;
     toolMetas := toolMetas s; toolMetaById := toolMetaById s;
     deltaBuffer := x;
     lastStreamedAssistant := lastStreamedAssistant s;
     toolDebouncer := toolDebouncer s |}.
Definition set_lastStreamedAssistant (x : option jsstring) (s : state) : state :=
  {| re_lastIndex := re_lastIndex s; assistantTexts := assistantTexts s;
     toolMetas := toolMetas s; toolMetaById := toolMetaById s;
     deltaBuffer := deltaBuffer s;
     lastStreamedAssistant := x;
     toolDebouncer := toolDebouncer s |}.
Definition set_toolDebouncer (x : Debouncer) (s : state) : state :=
  {| re_lastIndex := re_lastIndex s; assistantTexts := assistantTexts s;
     toolMetas := toolMetas s; toolMetaById := toolMetaById s;
     deltaBuffer := deltaBuffer s;
     lastStreamedAssistant := lastStreamedAssistant s;
     toolDebouncer := x |}.

(** The state when [subscribeEmbeddedPiSession] returns. *)
Definition subscribed : state :=
  {| re_lastIndex := 0%nat; assistantTexts := []; toolMetas := [];
     toolMetaById := ∅; deltaBuffer := []; lastStreamedAssistant := None;
     toolDebouncer := createToolDebouncer |}.

Variable params : Params.

(** A call of an optional sink: nothing when it is absent; recorded, and
    then returning or throwing as the sink does. *)
Definition call_sink {A} (sink : option (A → option error)) (a : A) (e : effect)
  : M state effect unit :=
  match sink with
  | None => mret tt
  | Some f => emit e ;; match f a with Some err => throw err | None => mret tt end
  end.

Definition strip (text : jsstring) : M state effect jsstring :=
  s ← get;
  let '(result, lastIndex) := stripThinkingSegments text (re_lastIndex s) in
  modify (set_re_lastIndex lastIndex) ;;
  mret result.

Definition media_or_undefined (mediaUrls : option (list jsstring))
  : option (list jsstring) :=
  match mediaUrls with
  | Some (u :: us) => Some (u :: us)
  | _ => None
  end.

(** The callback handed to [createToolDebouncer], lines 63-71. *)
Definition on_debounce_flush (call : option jsstring * list jsstring)
  : M state effect unit :=
  match onPartialReply params with
  | None => mret tt
  | Some _ =>
      let text := formatToolAggregate call.1 (Some call.2) in
      let '(cleanedText, mediaUrls) := splitMediaFromOutput text in
      let payload :=
        {| p_text := cleanedText; p_mediaUrls := media_or_undefined mediaUrls |} in
      call_sink (onPartialReply params) payload (OnPartialReply payload)
  end.

Definition toolDebouncer_push (toolName : jsstring) (meta : option jsstring)
  : M state effect unit :=
  s ← get;
  let '(d, calls) := debouncer_push toolName meta (toolDebouncer s) in
  modify (set_toolDebouncer d) ;;
  for_each calls on_debounce_flush.

Definition toolDebouncer_flush : M state effect unit :=
  s ← get;
  let '(d, calls) := debouncer_flush (toolDebouncer s) in
  modify (set_toolDebouncer d) ;;
  for_each calls on_debounce_flush.

Definition on_tool_execution_start (toolName toolCallId : jsstring) (args : value)
  : M state effect unit :=
  let meta := inferToolMetaFromArgs toolName args in
  s ← get;
  modify (set_toolMetaById (<[toolCallId := meta]> (toolMetaById s))) ;;
  emit (EmitAgentEvent (runId params) (js "tool")
          (ToolStart toolName toolCallId (Some args))) ;;
  let data := ToolStart toolName toolCallId None in
  call_sink (onAgentEvent params) (js "tool", data) (OnAgentEvent (js "tool") data).

Definition truthy (x : option jsstring) : bool :=
  match x with Some (_ :: _) => true | _ => false end.

(** Lines 138-155: the delivery of one tool result to [onToolResult]. *)
Definition deliver_tool_result (toolName : jsstring) (meta : option jsstring)
  : M state effect unit :=
  let emitToolResult := emits_tool_result params in
  match emitToolResult, onToolResult params with
  | true, Some _ =>
      let agg :=
        formatToolAggregate (Some toolName)
          (if truthy meta then Some [default [] meta] else None) in
      let '(cleanedText, mediaUrls) := splitMediaFromOutput agg in
      if bool_decide (cleanedText ≠ [])
         || bool_decide (is_Some (media_or_undefined mediaUrls))
      then
        let payload :=
          {| p_text := cleanedText; p_mediaUrls := media_or_undefined mediaUrls |} in
        try_catch
          (call_sink (onToolResult params) payload (OnToolResult payload))
          (mret tt)
      else mret tt
  | _, _ => mret tt
  end.

Definition on_tool_execution_end (toolName toolCallId : jsstring) (isError : bool)
  : M state effect unit :=
  s ← get;
  let meta := mjoin (toolMetaById s !! toolCallId) in
  modify (set_toolMetas (toolMetas s ++ [(toolName, meta)])) ;;
  toolDebouncer_push toolName meta ;;
  let data := ToolResult toolName toolCallId meta isError in
  emit (EmitAgentEvent (runId params) (js "tool") data) ;;
  call_sink (onAgentEvent params) (js "tool", data) (OnAgentEvent (js "tool") data) ;;
  deliver_tool_result toolName meta.

Definition is_assistant (message : option AppMessage) : bool :=
  match message with
  | Some msg => bool_decide (role msg = js "assistant")
  | None => false
  end.

Definition on_message_update (message : option AppMessage)
  (assistantMessageEvent : option value) : M state effect unit :=
  if is_assistant message then
    let assistantRecord :=
      if is_object assistantMessageEvent then assistantMessageEvent else None in
    let evtType := default [] (as_string (opt_prop assistantRecord "type")) in
    if bool_decide (evtType = js "text_delta") || bool_decide (evtType = js "text_start")
       || bool_decide (evtType = js "text_end")
    then
      let chunk :=
        match as_string (opt_prop assistantRecord "delta") with
        | Some delta => delta
        | None => default [] (as_string (opt_prop assistantRecord "content"))
        end in
      if bool_decide (chunk ≠ []) then
        s ← get;
        modify (set_deltaBuffer (deltaBuffer s ++ chunk)) ;;
        s ← get;
        stripped ← strip (deltaBuffer s);
        let next := trim stripped in
        s ← get;
        if bool_decide (next ≠ []) && bool_decide (Some next ≠ lastStreamedAssistant s)
        then
          modify (set_lastStreamedAssistant (Some next)) ;;
          let '(cleanedText, mediaUrls) := splitMediaFromOutput next in
          let data := AssistantText cleanedText (media_or_undefined mediaUrls) in
          emit (EmitAgentEvent (runId params) (js "assistant") data) ;;
          call_sink (onAgentEvent params) (js "assistant", data)
            (OnAgentEvent (js "assistant") data) ;;
          let payload :=
            {| p_text := cleanedText; p_mediaUrls := media_or_undefined mediaUrls |} in
          call_sink (onPartialReply params) payload (OnPartialReply payload)
        else mret tt
      else mret tt
    else mret tt
  else mret tt.

Definition on_message_end (message : option AppMessage) : M state effect unit :=
  match message with
  | Some msg =>
      if bool_decide (role msg = js "assistant") then
        text ← strip (extractAssistantText msg);
        s ← get;
        when (bool_decide (text ≠ []))
          (modify (set_assistantTexts (assistantTexts s ++ [text]))) ;;
        modify (set_deltaBuffer [])
      else mret tt
  | None => mret tt
  end.

(** The subscriber of lines 74-231. *)
Definition subscriber (evt : AgentEvent) : M state effect unit :=
  match evt with
  | tool_execution_start toolName toolCallId args =>
      on_tool_execution_start toolName toolCallId args
  | tool_execution_end toolName toolCallId isError =>
      on_tool_execution_end toolName toolCallId isError
  | message_update message assistantMessageEvent =>
      on_message_update message assistantMessageEvent
  | message_end message => on_message_end message
  | agent_end => toolDebouncer_flush
  | other_event _ => mret tt
  end.

(** The session calls the subscriber once per event; a call that throws
    leaves the closure as it was when it threw. *)
Fixpoint deliver_all (evts : list AgentEvent) (s : state) : state * list effect :=
  match evts with
  | [] => (s, [])
  | evt :: evts' =>
      let r := subscriber evt s in
      let '(s', t) := deliver_all evts' (state_of r) in
      (s', trace_of r ++ t)
  end.

(** The payload that a finished tool call is announced with when tool
    results are delivered and the aggregate is not empty. *)
Definition tool_result_delivery (p : Params) (toolName : jsstring)
  (meta : option jsstring) : option Payload :=
  if emits_tool_result p then
    let agg :=
      formatToolAggregate (Some toolName)
        (if truthy meta then Some [default [] meta] else None) in
    let '(cleanedText, mediaUrls) := splitMediaFromOutput agg in
    if bool_decide (cleanedText ≠ [])
       || bool_decide (is_Some (media_or_undefined mediaUrls))
    then Some {| p_text := cleanedText; p_mediaUrls := media_or_undefined mediaUrls |}
    else None
  else None.

(** The text fragment of a [message_update], when it has one. *)
Definition text_chunk (assistantMessageEvent : option value) : option jsstring :=
  let assistantRecord :=
    if is_object assistantMessageEvent then assistantMessageEvent else None in
  let evtType := default [] (as_string (opt_prop assistantRecord "type")) in
  if bool_decide (evtType = js "text_delta") || bool_decide (evtType = js "text_start")
     || bool_decide (evtType = js "text_end")
  then
    let chunk :=
      match as_string (opt_prop assistantRecord "delta") with
      | Some delta => delta
      | None => default [] (as_string (opt_prop assistantRecord "content"))
      end in
    if bool_decide (chunk ≠ []) then Some chunk else None
  else None.

(** The text that a [message_end] adds to [assistantTexts]. *)
Definition final_text_of (evt : AgentEvent) : option jsstring :=
  match evt with
  | message_end (Some msg) =>
      if bool_decide (role msg = js "assistant") then
        let text := strip_text (extractAssistantText msg) in
        if bool_decide (text ≠ []) then Some text else None
      else None
  | _ => None
  end.

(** The entries that the [tool_execution_end] events of [evts] add to
    [toolMetas], [reg] being the registry of metas before the first of
    them. *)
Fixpoint tool_metas_of (reg : gmap jsstring (option jsstring))
  (evts : list AgentEvent) : list (jsstring * option jsstring) :=
  match evts with
  | [] => []
  | tool_execution_start toolName toolCallId args :: evts' =>
      tool_metas_of (<[toolCallId := inferToolMetaFromArgs toolName args]> reg) evts'
  | tool_execution_end toolName toolCallId _ :: evts' =>
      (toolName, mjoin (reg !! toolCallId)) :: tool_metas_of reg evts'
  | _ :: evts' => tool_metas_of reg evts'
  end.

(** What a [message_update] that carries text streams: the stripped and
    trimmed buffer, when it is not empty and differs from the text streamed
    last. *)
Definition streamed (s : state) (chunk : jsstring) : option jsstring :=
  let next := trim (strip_text (deltaBuffer s ++ chunk)) in
  if bool_decide (next ≠ []) && bool_decide (Some next ≠ lastStreamedAssistant s)
  then Some next else None.

(** The deliveries of a streamed text, in program order. *)
Definition stream_effects (next : jsstring) : list effect :=
  let '(cleanedText, mediaUrls) := splitMediaFromOutput next in
  let data := AssistantText cleanedText (media_or_undefined mediaUrls) in
  let payload :=
    {| p_text := cleanedText; p_mediaUrls := media_or_undefined mediaUrls |} in
  [EmitAgentEvent (runId params) (js "assistant") data]
  ++ match onAgentEvent params with
     | Some _ => [OnAgentEvent (js "assistant") data]
     | None => []
     end
  ++ match onPartialReply params with
     | Some _ => [OnPartialReply payload]
     | None => []
     end.

End bridge.

(** The payloads handed to [onToolResult] in a trace. *)
Definition tool_results (t : list effect) : list Payload :=
  omap (λ e, match e with OnToolResult payload => Some payload | _ => None end) t.

(** The shape of a marker: [<], white space, an optional [/], white space,
    the name, white space, [>]. *)
Definition marker_shape (tag : jsstring) : Prop :=
  ∃ a sl b name c,
    tag = LT :: a ++ sl ++ b ++ name ++ c ++ [GT] ∧
    blank a ∧ (sl = [] ∨ sl = [SLASH]) ∧ blank b ∧ is_name name ∧ blank c.

(** ** A session to run the bridge in

    Modelled from the spec: the debounce queue of
    [../auto-reply/tool-meta.js] is an ordered sequence of pending
    [(toolName, meta)] pairs that [push] extends and that [flush] clears
    and emits as one aggregate. The other collaborators are the simplest
    of their type: a message is its role and its text, the meta of a tool
    call is its [path] argument, an aggregate is the tool name followed by
    its metas, and no output holds media. *)
#[local] Instance plain_session : Collaborators := {|
  AppMessage := jsstring * jsstring;
  role := fst;
  extractAssistantText := snd;
  inferToolMetaFromArgs := λ _ args, as_string (prop args "path");
  formatToolAggregate := λ name metas,
    default [] name ++ concat ((λ m, js " " ++ m) <$> default [] metas);
  splitMediaFromOutput := λ text, (text, None);
  Debouncer := list (jsstring * option jsstring);
  createToolDebouncer := [];
  debouncer_push := λ name meta queue, (queue ++ [(name, meta)], []);
  debouncer_flush := λ queue,
    ([], match queue with
         | [] => []
         | (name, _) :: _ => [(Some name, omap snd queue)]
         end);
|}.

Definition assistant_message : jsstring * jsstring := (js "assistant", []).

(** Verbose parameters whose [onToolResult] sink throws on every call. *)
Definition failing_sink : Payload → option error := λ _, Some (Thrown (js "sink failed")).
Definition verbose_params : Params :=
  {| runId := js "run-1"; verboseLevel := Some on; shouldEmitToolResult := None;
     onToolResult := Some failing_sink;
     onPartialReply := Some (λ _, None);
     onAgentEvent := Some (λ _, None) |}.

(** The closure when the tool call [tu-1], a [Read] of [/foo], has started. *)
Definition reading : state :=
  (deliver_all verbose_params
     [tool_execution_start (js "Read") (js "tu-1") (obj [member "path" (str "/foo")])]
     subscribed).1.

End PiSubscribe.

(* ================================================================== *)
(** * The monad *)
(* ================================================================== *)

Module EffProps.

Lemma bind_ret_l {S E A B} (a : A) (k : A → M S E B) s :
  (mret a ≫= k) s = k a s.
Proof.
  unfold mbind, M_bind, bind, mret, M_ret, ret.
  by destruct (k a s) as [[r s2] t2].
Qed.

Lemma state_of_bind {S E A B} (k : A → M S E B) (m : M S E A) s a s1 t1 :
  m s = (Normal a, s1, t1) → state_of ((m ≫= k) s) = state_of (k a s1).
Proof.
  intros Hm. unfold mbind, M_bind, bind. rewrite Hm.
  by destruct (k a s1) as [[??]?].
Qed.

Lemma bind_pure {S E A B} (k : A → M S E B) (m : M S E A) s a s1 :
  m s = (Normal a, s1, []) → (m ≫= k) s = k a s1.
Proof.
  intros Hm. unfold mbind, M_bind, bind. rewrite Hm.
  by destruct (k a s1) as [[??]?].
Qed.

Lemma bind_run {S E A B} (k : A → M S E B) (m : M S E A) s a s1 t1 r s2 t2 :
  m s = (Normal a, s1, t1) → k a s1 = (r, s2, t2) →
  (m ≫= k) s = (r, s2, t1 ++ t2).
Proof. intros Hm Hk. unfold mbind, M_bind, bind. by rewrite Hm, Hk. Qed.

Lemma bind_throws {S E A B} (k : A → M S E B) (m : M S E A) s e s1 t1 :
  m s = (Abrupt e, s1, t1) → (m ≫= k) s = (Abrupt e, s1, t1).
Proof. intros Hm. unfold mbind, M_bind, bind. by rewrite Hm. Qed.

Lemma keeps_state_ret {S E A} (a : A) : keeps_state (mret a : M S E A).
Proof. done. Qed.

Lemma keeps_state_emit {S E} (e : E) : keeps_state (emit e : M S E unit).
Proof. done. Qed.

Lemma keeps_state_bind {S E A B} (m : M S E A) (k : A → M S E B) :
  keeps_state m → (∀ a, keeps_state (k a)) → keeps_state (m ≫= k).
Proof.
  intros Hm Hk s. specialize (Hm s). unfold mbind, M_bind, bind.
  destruct (m s) as [[[a|e] s1] t1]; cbn in *; subst s1; [|done].
  specialize (Hk a s). by destruct (k a s) as [[??]?].
Qed.

End EffProps.
Export EffProps.
(* ================================================================== *)
(** * Properties of the streaming executor *)
(* ================================================================== *)

Module ExecStreamingProps.
Import ExecStreaming.

(** ** Lines *)

Lemma split_on_lines_and_rest b :
  split_on LF b = (lines_and_rest b).1 ++ [(lines_and_rest b).2].
Proof.
  induction b as [|x b IH]; [done|]. simpl.
  destruct (lines_and_rest b) as [ls r]. simpl in *.
  destruct (x =? LF); [by rewrite IH|].
  rewrite IH. by destruct ls.
Qed.

Lemma nonempty_spec_lines text :
  nonempty_lines (spec_lines text) = nonempty_lines (split_on LF text).
Proof.
  rewrite split_on_lines_and_rest. unfold spec_lines, nonempty_lines.
  destruct (lines_and_rest text) as [ls r]. simpl.
  destruct r; [|done].
  rewrite filter_app, filter_cons, filter_nil.
  destruct (decide _) as [Hne|_]; [done|]. by rewrite app_nil_r.
Qed.

Lemma lines_and_rest_no_newline b :
  indexOf b LF = None → lines_and_rest b = ([], b).
Proof.
  induction b as [|x b IH]; [done|]. simpl.
  destruct (x =? LF); [done|].
  destruct (indexOf b LF); [done|]. intros _. by rewrite IH.
Qed.

Lemma lines_and_rest_newline b i :
  indexOf b LF = Some i →
  lines_and_rest b =
    (take i b :: (lines_and_rest (drop (S i) b)).1,
     (lines_and_rest (drop (S i) b)).2).
Proof.
  revert i. induction b as [|x b IH]; [done|]. intros i. simpl.
  destruct (x =? LF) eqn:Hx.
  - intros [= <-]. simpl. rewrite drop_0. by destruct (lines_and_rest b).
  - destruct (indexOf b LF) as [j|] eqn:Hj; [|done].
    intros [= <-]. simpl. rewrite (IH j eq_refl).
    by destruct (lines_and_rest (drop (S j) b)).
Qed.

Lemma lines_and_rest_app a b :
  lines_and_rest (a ++ b) =
    ((lines_and_rest a).1 ++ (lines_and_rest ((lines_and_rest a).2 ++ b)).1,
     (lines_and_rest ((lines_and_rest a).2 ++ b)).2).
Proof.
  induction a as [|x a IH]; simpl.
  - by destruct (lines_and_rest b).
  - rewrite IH. destruct (lines_and_rest a) as [la ra]. simpl.
    destruct (x =? LF) eqn:Hx; [done|].
    destruct la as [|l la]; simpl; [|done].
    rewrite Hx. by destruct (lines_and_rest (ra ++ b)) as [[|??] ?].
Qed.

Lemma lines_and_rest_idem b :
  lines_and_rest (lines_and_rest b).2 = ([], (lines_and_rest b).2).
Proof.
  induction b as [|x b IH]; [done|]. simpl.
  destruct (lines_and_rest b) as [ls r]. simpl in *.
  destruct (x =? LF) eqn:Hx; [done|].
  destruct ls; simpl; [|done]. by rewrite Hx, IH.
Qed.

Lemma indexOf_lt b c i : indexOf b c = Some i → (i < length b)%nat.
Proof.
  revert i. induction b as [|x b IH]; [done|]. intros i. simpl.
  destruct (x =? c); [intros [= <-]; lia|].
  destruct (indexOf b c) as [j|]; [|done]. intros [= <-]. specialize (IH j eq_refl). lia.
Qed.

Lemma indexOf_None (b : jsstring) c : indexOf b c = None ↔ c ∉ b.
Proof.
  induction b as [|x b IH]; cbn.
  - split; [intros _; apply not_elem_of_nil|done].
  - rewrite not_elem_of_cons. destruct (x =? c) eqn:Hx.
    + apply N.eqb_eq in Hx. split; [done|]. intros [Hne _]. congruence.
    + apply N.eqb_neq in Hx. destruct (indexOf b c) as [i|]; cbn.
      * split; [done|]. intros [_ Hb]. by apply IH in Hb.
      * split; [|done]. intros _. split; [congruence|]. by apply IH.
Qed.

(** Where the first newline stands, the buffer is the line before it, the
    newline and the rest. *)
Lemma indexOf_cut b i :
  indexOf b LF = Some i →
  b = take i b ++ LF :: drop (S i) b ∧ (LF ∉ take i b).
Proof.
  revert i. induction b as [|x b IH]; [done|]. intros i. cbn.
  destruct (x =? LF) eqn:Hx.
  - apply N.eqb_eq in Hx as ->. intros [= <-]. cbn.
    split; [by rewrite drop_0|apply not_elem_of_nil].
  - apply N.eqb_neq in Hx. destruct (indexOf b LF) as [j|]; [|done].
    intros [= <-]. destruct (IH j eq_refl) as [Hb Hj]. cbn.
    split; [by rewrite <- Hb|]. rewrite not_elem_of_cons. split; [congruence|done].
Qed.

Lemma lines_and_rest_clean b :
  Forall (λ l, LF ∉ l) (lines_and_rest b).1 ∧ (LF ∉ (lines_and_rest b).2).
Proof.
  induction b as [|x b [IHl IHr]]; cbn.
  - split; [constructor|apply not_elem_of_nil].
  - destruct (lines_and_rest b) as [ls r]. cbn in *.
    destruct (x =? LF) eqn:Hx; cbn.
    + split; [|done]. constructor; [apply not_elem_of_nil|done].
    + apply N.eqb_neq in Hx. destruct ls as [|l ls]; cbn.
      * split; [constructor|]. rewrite not_elem_of_cons. split; [congruence|done].
      * apply Forall_cons in IHl as [Hl Hls]. split; [|done].
        constructor; [|done]. rewrite not_elem_of_cons. split; [congruence|done].
Qed.

Lemma lines_and_rest_clean_buffer b : LF ∉ b → lines_and_rest b = ([], b).
Proof. intros Hb. by apply lines_and_rest_no_newline, indexOf_None. Qed.

Lemma terminated_lines_app a b :
  terminated_lines (a ++ b) =
    terminated_lines a ++ terminated_lines ((lines_and_rest a).2 ++ b).
Proof.
  unfold terminated_lines, nonempty_lines.
  rewrite lines_and_rest_app. cbn [fst]. by rewrite filter_app.
Qed.

Lemma without_newlines_app a b :
  without_newlines (a ++ b) = without_newlines a ++ without_newlines b.
Proof. apply filter_app. Qed.

Lemma without_newlines_cut b i :
  indexOf b LF = Some i →
  without_newlines b = without_newlines (take i b) ++ without_newlines (drop (S i) b).
Proof.
  intros [Hb _]%indexOf_cut. rewrite Hb at 1.
  rewrite without_newlines_app. by f_equal.
Qed.

(** ** Projections of a trace *)

Lemma delivered_lines_app t1 t2 :
  delivered_lines (t1 ++ t2) = delivered_lines t1 ++ delivered_lines t2.
Proof. apply omap_app. Qed.

Lemma settlements_app t1 t2 :
  settlements (t1 ++ t2) = settlements t1 ++ settlements t2.
Proof. apply omap_app. Qed.

Lemma timer_calls_app t1 t2 : timer_calls (t1 ++ t2) = timer_calls t1 ++ timer_calls t2.
Proof. apply omap_app. Qed.

Lemma delivered_lines_fmap ls : delivered_lines (OnStdoutLine <$> ls) = ls.
Proof. induction ls; [done|]. cbn. by f_equal. Qed.

Lemma settlements_fmap ls : settlements (OnStdoutLine <$> ls) = [].
Proof. by induction ls. Qed.

Lemma timer_calls_fmap ls : timer_calls (OnStdoutLine <$> ls) = [].
Proof. by induction ls. Qed.

Lemma resolve_is_settlement r t : Resolve r ∈ t → Fulfilled r ∈ settlements t.
Proof.
  induction t as [|e t IH]; [by intros ?%elem_of_nil|].
  rewrite elem_of_cons. intros [<-|Hr].
  - cbn. apply elem_of_cons. by left.
  - specialize (IH Hr). destruct e; cbn; rewrite ?elem_of_cons; auto.
Qed.

Lemma drop_after {A} (pre : list A) x post :
  drop (S (length pre)) (pre ++ x :: post) = post.
Proof. by induction pre. Qed.

(** ** Decoding *)

(** Where the decoder is at rest after the first part, the two parts
    decode apart from each other. *)
Lemma utf8_decode_app st a b :
  utf8_after st a = Idle →
  utf8_decode st (a ++ b) = utf8_decode st a ++ utf8_decode Idle b.
Proof.
  revert st. induction a as [|x a IH]; intros st; cbn.
  - by intros ->.
  - destruct (utf8_step st x) as [st' out]. cbn. intros Ha.
    by rewrite IH, app_assoc.
Qed.

Lemma toString_app a b : complete a → toString (a ++ b) = toString a ++ toString b.
Proof. intros Ha. unfold toString. rewrite fmap_app. by apply utf8_decode_app. Qed.

(** Chunks with no character cut in two decode, one by one, to what the
    whole output decodes to. *)
Lemma toString_concat chunks :
  Forall complete chunks →
  toString (Buffer_concat chunks) = concat (toString <$> chunks).
Proof.
  induction 1 as [|chunk chunks Hc _ IH]; [done|].
  unfold Buffer_concat in *.
  by rewrite concat_cons, toString_app, IH, fmap_cons, concat_cons.
Qed.

Lemma stdout_text_chunks {Buffer} (decode : Buffer → jsstring) (evs : list (event Buffer)) :
  stdout_text decode evs = concat (decode <$> stdout_chunks evs).
Proof. induction evs as [|[] evs IH]; cbn; by rewrite ?IH. Qed.

Lemma stdout_text_app {Buffer} (decode : Buffer → jsstring)
  (evs1 evs2 : list (event Buffer)) :
  stdout_text decode (evs1 ++ evs2) = stdout_text decode evs1 ++ stdout_text decode evs2.
Proof.
  induction evs1 as [|ev evs1 IH]; [done|].
  destruct ev; cbn; by rewrite ?IH, ?app_assoc.
Qed.

(** ** The first terminal event *)

Lemma first_terminal_Some {Buffer} (evs : list (event Buffer)) pre t :
  first_terminal evs = Some (pre, t) →
  ∃ post, evs = pre ++ t :: post ∧
          Forall (λ ev, is_terminal ev = false) pre ∧ is_terminal t = true.
Proof.
  revert pre. induction evs as [|ev evs IH]; intros pre; [done|]. cbn.
  destruct (is_terminal ev) eqn:Hev.
  - intros [= <- <-]. by exists evs.
  - destruct (first_terminal evs) as [[pre' t']|]; [|done].
    intros [= <- <-]. destruct (IH pre' eq_refl) as (post & -> & Hpre & Ht).
    exists post. split_and!; [done| |done]. by constructor.
Qed.

Lemma first_terminal_None {Buffer} (evs : list (event Buffer)) :
  first_terminal evs = None → Forall (λ ev, is_terminal ev = false) evs.
Proof.
  induction evs as [|ev evs IH]; [done|]. cbn.
  destruct (is_terminal ev) eqn:Hev; [done|].
  destruct (first_terminal evs) as [[??]|]; [done|]. intros _. constructor; auto.
Qed.

Lemma kill_of_cons {Buffer} (ev : event Buffer) evs :
  kill_of (ev :: evs) =
    match ev with
    | timeout_fired _ => [Kill (js "SIGKILL")]
    | _ => kill_of evs
    end.
Proof. by destruct ev. Qed.

(* ------------------------------------------------------------------ *)
(** ** Any callback *)
(* ------------------------------------------------------------------ *)

Section executor.
Context {Buffer : Type} (Buffer_toString : Buffer → jsstring).
Variable onStdoutLine : jsstring → option error.
Local Abbreviation call_onStdoutLine := (call_onStdoutLine onStdoutLine).
Local Abbreviation while_newline := (while_newline onStdoutLine).
Local Abbreviation deliver := (deliver Buffer_toString onStdoutLine).
Local Abbreviation deliver_each := (deliver_each Buffer_toString onStdoutLine).
Local Abbreviation run := (run Buffer_toString onStdoutLine).
Local Abbreviation stdout_text := (stdout_text Buffer_toString).
Local Abbreviation stderr_text := (stderr_text Buffer_toString).

Lemma set_lineBuffer_id s : set_lineBuffer (lineBuffer s) s = s.
Proof. by destruct s. Qed.

Lemma set_lineBuffer_twice b b' s :
  set_lineBuffer b (set_lineBuffer b' s) = set_lineBuffer b s.
Proof. by destruct s. Qed.

Lemma call_run line s :
  call_onStdoutLine line s =
    (match onStdoutLine line with Some err => Abrupt err | None => Normal tt end,
     s, [OnStdoutLine line]).
Proof.
  unfold ExecStreaming.call_onStdoutLine, mbind, M_bind, bind, emit.
  by destruct (onStdoutLine line).
Qed.

Lemma deliver_each_cons ev evs s :
  deliver_each (ev :: evs) s =
    ((deliver_each evs (state_of (deliver ev s))).1,
     trace_of (deliver ev s) ++ (deliver_each evs (state_of (deliver ev s))).2).
Proof. cbn. by destruct (ExecStreaming.deliver_each _ _ evs _). Qed.

Lemma deliver_each_app evs1 evs2 s :
  deliver_each (evs1 ++ evs2) s =
    ((deliver_each evs2 (deliver_each evs1 s).1).1,
     (deliver_each evs1 s).2 ++ (deliver_each evs2 (deliver_each evs1 s).1).2).
Proof.
  revert s. induction evs1 as [|ev evs1 IH]; intros s.
  - cbn. by destruct (ExecStreaming.deliver_each _ _ evs2 s).
  - rewrite <- app_comm_cons, !deliver_each_cons, IH. cbn [fst snd].
    by rewrite app_assoc.
Qed.

(** The loop, whatever the callback does: it hands over lines that are not
    empty and hold no newline, it touches the buffer only, and what it has
    handed over and what it leaves in the buffer are, newlines apart, what
    the buffer held. *)
Lemma while_newline_any rounds s :
  ∃ r b ls,
    while_newline rounds s = (r, set_lineBuffer b s, OnStdoutLine <$> ls) ∧
    Forall (λ l, l ≠ [] ∧ LF ∉ l) ls ∧
    without_newlines (concat ls) ++ without_newlines b
      = without_newlines (lineBuffer s).
Proof.
  revert s. induction rounds as [|n IH]; intros s.
  { exists (Normal tt), (lineBuffer s), []. rewrite set_lineBuffer_id.
    by split_and!; [|constructor|]. }
  cbn [ExecStreaming.while_newline]. rewrite (bind_pure _ get s s s) by done.
  destruct (indexOf (lineBuffer s) LF) as [i|] eqn:Hi.
  2:{ exists (Normal tt), (lineBuffer s), []. rewrite set_lineBuffer_id.
      by split_and!; [|constructor|]. }
  destruct (indexOf_cut _ _ Hi) as [_ Hclean].
  pose proof (without_newlines_cut _ _ Hi) as Hcut.
  unfold slice, slice_from. rewrite drop_0, Nat.sub_0_r.
  replace (i + 1)%nat with (S i) by lia.
  set (line := take i (lineBuffer s)) in *.
  set (rest := drop (S i) (lineBuffer s)) in *.
  set (s1 := set_lineBuffer rest s).
  rewrite (bind_pure _ (modify _) s tt s1) by done.
  destruct (IH s1) as (r & b & ls & Hrun & Hls & Hkept).
  change (lineBuffer s1) with rest in Hkept.
  unfold s1 in Hrun. rewrite set_lineBuffer_twice in Hrun. fold s1 in Hrun.
  destruct line as [|c line'] eqn:Hline.
  - rewrite bool_decide_false by (simpl; lia).
    rewrite (bind_pure _ (when false _) s1 tt s1) by done.
    exists r, b, ls. split_and!; [done|done|]. by rewrite Hkept, Hcut.
  - rewrite bool_decide_true by (simpl; lia). cbn [when].
    destruct (onStdoutLine (c :: line')) as [err|] eqn:Hcb.
    + exists (Abrupt err), rest, [c :: line']. split_and!.
      * apply bind_throws. by rewrite call_run, Hcb.
      * by repeat constructor.
      * cbn [concat]. by rewrite app_nil_r, Hcut.
    + exists r, b, ((c :: line') :: ls). split_and!.
      * erewrite bind_run; [|by rewrite call_run, Hcb|exact Hrun]. done.
      * by constructor.
      * cbn [concat]. by rewrite without_newlines_app, <- app_assoc, Hkept, Hcut.
Qed.

(** One [data] event on the output stream. *)
Lemma data_any chunk s :
  ∃ r b ls,
    deliver (stdout_data chunk) s = (r, set_lineBuffer b s, OnStdoutLine <$> ls) ∧
    Forall (λ l, l ≠ [] ∧ LF ∉ l) ls ∧
    without_newlines (concat ls) ++ without_newlines b
      = without_newlines (lineBuffer s ++ Buffer_toString chunk).
Proof.
  cbn [ExecStreaming.deliver]. unfold on_stdout_data.
  rewrite (bind_pure _ get s s s) by done.
  set (s1 := set_lineBuffer (lineBuffer s ++ Buffer_toString chunk) s).
  rewrite (bind_pure _ (modify _) s tt s1) by done.
  rewrite (bind_pure _ get s1 s1 s1) by done.
  destruct (while_newline_any (S (length (lineBuffer s1))) s1)
    as (r & b & ls & Hrun & Hls & Hkept).
  exists r, b, ls. split_and!; [|done|done].
  rewrite Hrun. unfold s1. by rewrite set_lineBuffer_twice.
Qed.

(** [close] in a closure that has not settled: with an empty buffer, with
    a remainder that the callback takes, and with one on which it throws. *)
Lemma close_any c sg s :
  settled s = false →
  let s1 := set_timer false (set_settled true s) in
  let r := {| stdout := []; stderr := v_stderr s; code := c; signal := sg;
              killed := child_killed s |} in
  deliver (child_close c sg) s =
    match lineBuffer s with
    | [] => (Normal tt, s1, [ClearTimeout; Resolve r])
    | _ :: _ =>
        match onStdoutLine (lineBuffer s) with
        | None =>
            (Normal tt, set_lineBuffer [] s1,
             [ClearTimeout; OnStdoutLine (lineBuffer s); Resolve r])
        | Some err => (Abrupt err, s1, [ClearTimeout; OnStdoutLine (lineBuffer s)])
        end
    end.
Proof.
  intros Hs. destruct s as [e b st tm k]. cbn in Hs. subst st. cbn zeta.
  destruct b as [|x b]; [done|]. cbn [lineBuffer].
  unfold ExecStreaming.deliver, on_close, ExecStreaming.call_onStdoutLine,
    mbind, M_bind, bind, get, modify, emit, when, throw. cbn.
  by destruct (onStdoutLine (x :: b)).
Qed.

Lemma error_run err s :
  settled s = false →
  deliver (child_error err) s =
    (Normal tt, set_timer false (set_settled true s), [ClearTimeout; Reject err]).
Proof.
  intros Hs. cbn. unfold on_error, mbind, M_bind, bind, get. by rewrite Hs.
Qed.

Lemma timeout_run dl s :
  deliver (timeout_fired dl) s =
    if timer s
    then (Normal tt, set_child_killed (child_killed s || dl) (set_timer false s),
          [Kill (js "SIGKILL")])
    else (Normal tt, s, []).
Proof.
  cbn. unfold on_timeout, mbind, M_bind, bind, get. by destruct (timer s).
Qed.

(** Once the flag is set, a terminal event does nothing at all. *)
Lemma terminal_ignored s ev :
  settled s = true → is_terminal ev = true → deliver ev s = (Normal tt, s, []).
Proof.
  intros Hs Hev. destruct ev; try done; cbn.
  - unfold on_error, mbind, M_bind, bind, get. by rewrite Hs.
  - unfold on_close, mbind, M_bind, bind, get. by rewrite Hs.
Qed.

(** What an event other than [error] and [close] does to the closure
    besides the buffer, and that it settles nothing. *)
Lemma nonterminal_any ev s :
  is_terminal ev = false →
  let r := deliver ev s in
  settled (state_of r) = settled s ∧
  v_stderr (state_of r) = v_stderr s ++ stderr_text [ev] ∧
  timer (state_of r) = timer s && bool_decide (first_timeout [ev] = None) ∧
  child_killed (state_of r)
    = child_killed s || (timer s && default false (first_timeout [ev])) ∧
  settlements (trace_of r) = [] ∧
  timer_calls (trace_of r) = (if timer s then kill_of [ev] else []) ∧
  without_newlines (concat (delivered_lines (trace_of r)))
    ++ without_newlines (lineBuffer (state_of r))
    = without_newlines (lineBuffer s ++ stdout_text [ev]).
Proof.
  intros Hev. destruct ev as [chunk|d|err|c sg|dl]; try done; cbn zeta.
  - destruct (data_any chunk s) as (r & b & ls & -> & _ & Hkept).
    unfold state_of, trace_of. cbn [fst snd].
    rewrite settlements_fmap, timer_calls_fmap, delivered_lines_fmap.
    cbn. rewrite !app_nil_r, andb_true_r, andb_false_r, orb_false_r.
    by destruct (timer s).
  - cbn. rewrite !app_nil_r, andb_true_r, andb_false_r, orb_false_r.
    by destruct (timer s).
  - rewrite timeout_run. destruct (timer s) eqn:Ht; cbn; rewrite ?Ht; cbn;
      by rewrite !app_nil_r, ?orb_false_r.
Qed.

Lemma stderr_text_cons (ev : event Buffer) evs :
  stderr_text (ev :: evs) = stderr_text [ev] ++ stderr_text evs.
Proof. destruct ev; cbn; by rewrite ?app_nil_r. Qed.

Lemma stdout_text_cons (ev : event Buffer) evs :
  stdout_text (ev :: evs) = stdout_text [ev] ++ stdout_text evs.
Proof. destruct ev; cbn; by rewrite ?app_nil_r. Qed.

Lemma first_timeout_cons (ev : event Buffer) evs :
  first_timeout (ev :: evs) =
    match first_timeout [ev] with
    | Some dl => Some dl
    | None => first_timeout evs
    end.
Proof. by destruct ev. Qed.

(** The events before the first [error] or [close]. *)
Lemma nonterminal_events_any pre s :
  Forall (λ ev, is_terminal ev = false) pre →
  let r := deliver_each pre s in
  settled r.1 = settled s ∧
  v_stderr r.1 = v_stderr s ++ stderr_text pre ∧
  timer r.1 = timer s && bool_decide (first_timeout pre = None) ∧
  child_killed r.1 = child_killed s || (timer s && default false (first_timeout pre)) ∧
  settlements r.2 = [] ∧
  timer_calls r.2 = (if timer s then kill_of pre else []) ∧
  without_newlines (concat (delivered_lines r.2)) ++ without_newlines (lineBuffer r.1)
    = without_newlines (lineBuffer s ++ stdout_text pre).
Proof.
  intros Hpre. revert s. induction Hpre as [|ev pre Hev _ IH]; intros s; cbn zeta.
  - cbn. rewrite !app_nil_r, andb_true_r, andb_false_r, orb_false_r.
    by destruct (timer s).
  - rewrite deliver_each_cons. cbn [fst snd].
    destruct (nonterminal_any ev s Hev) as (Hs1 & He1 & Ht1 & Hk1 & Hp1 & Hc1 & Hw1).
    destruct (IH (state_of (deliver ev s))) as (Hs2 & He2 & Ht2 & Hk2 & Hp2 & Hc2 & Hw2).
    rewrite Hs2, He2, Ht2, Hk2, Hs1, He1, Ht1, Hk1.
    rewrite settlements_app, timer_calls_app, Hp1, Hp2, Hc1, Hc2, Ht1.
    rewrite (stderr_text_cons ev pre), (first_timeout_cons ev pre), (kill_of_cons ev pre).
    split_and!; [done|by rewrite app_assoc| | |done| |].
    + clear. destruct ev, (timer s); cbn; by rewrite ?andb_false_r.
    + clear. destruct ev, (timer s), (child_killed s); cbn;
        by rewrite ?andb_false_r, ?orb_false_r.
    + clear. destruct ev, (timer s); cbn; by rewrite ?app_nil_r.
    + rewrite delivered_lines_app, concat_app, without_newlines_app, <- app_assoc, Hw2.
      rewrite without_newlines_app, app_assoc, Hw1.
      by rewrite <- without_newlines_app, (stdout_text_cons ev pre), app_assoc.
Qed.

(** A closure that has settled stays settled, settles nothing more and
    leaves the timer alone. *)
Lemma deliver_settled_any ev s :
  settled s = true → timer s = false →
  settled (state_of (deliver ev s)) = true ∧ timer (state_of (deliver ev s)) = false ∧
  settlements (trace_of (deliver ev s)) = [] ∧
  timer_calls (trace_of (deliver ev s)) = [].
Proof.
  intros Hs Ht. destruct (is_terminal ev) eqn:Hev.
  { by rewrite terminal_ignored. }
  destruct (nonterminal_any ev s Hev) as (Hs1 & _ & Ht1 & _ & Hp1 & Hc1 & _).
  by rewrite Hs1, Ht1, Hp1, Hc1, Hs, Ht.
Qed.

Lemma settled_forever_any evs s :
  settled s = true → timer s = false →
  settled (deliver_each evs s).1 = true ∧
  settlements (deliver_each evs s).2 = [] ∧
  timer_calls (deliver_each evs s).2 = [].
Proof.
  revert s. induction evs as [|ev evs IH]; intros s Hs Ht; [done|].
  rewrite deliver_each_cons. cbn [fst snd].
  destruct (deliver_settled_any ev s Hs Ht) as (Hs1 & Ht1 & Hp1 & Hc1).
  destruct (IH _ Hs1 Ht1) as (-> & Hp2 & Hc2).
  by rewrite settlements_app, timer_calls_app, Hp1, Hp2, Hc1, Hc2.
Qed.

(** The first terminal event, whatever the callback does: the flag is
    set, the timer is cancelled, and at most one settlement is made. *)
Lemma terminal_any t s :
  is_terminal t = true → settled s = false →
  settled (state_of (deliver t s)) = true ∧ timer (state_of (deliver t s)) = false ∧
  timer_calls (trace_of (deliver t s)) = [ClearTimeout].
Proof.
  intros Ht Hs. destruct t as [chunk|d|err|c sg|dl]; try done.
  - by rewrite error_run.
  - rewrite (close_any c sg s Hs).
    by destruct (lineBuffer s) as [|x b]; [|destruct (onStdoutLine (x :: b))].
Qed.

(** C8: whatever the child wrote and whatever the callback did, a result
    that the promise is resolved with has the empty string as its [stdout],
    and by then the output has gone through the line callback: the process
    had closed, and the strings handed to [onStdoutLine] before the
    resolution hold, newlines apart, exactly the decoded output. A
    listener that dropped output could not resolve so. *)
Theorem stdout_only_through_callback evs r :
  Resolve r ∈ (run evs).2 →
  stdout r = [] ∧
  ∃ pre c sg t t',
    first_terminal evs = Some (pre, child_close c sg) ∧
    (run evs).2 = t ++ Resolve r :: t' ∧
    without_newlines (concat (delivered_lines t)) = without_newlines (stdout_text pre).
Proof.
  unfold ExecStreaming.run. intros Hr.
  destruct (first_terminal evs) as [[pre t]|] eqn:Hft.
  2:{ destruct (nonterminal_events_any evs initial (first_terminal_None _ Hft))
        as (_ & _ & _ & _ & Hp & _).
      apply resolve_is_settlement in Hr. rewrite Hp in Hr. by apply elem_of_nil in Hr. }
  destruct (first_terminal_Some _ _ _ Hft) as (post & -> & Hpre & Ht).
  rewrite deliver_each_app, deliver_each_cons in Hr |- *. cbn [fst snd] in Hr |- *.
  destruct (nonterminal_events_any pre initial Hpre)
    as (Hs & _ & _ & _ & Hp & _ & Hw).
  cbn zeta in *. cbn [lineBuffer initial app] in Hw.
  set (s := (deliver_each pre initial).1) in *.
  set (tr := (deliver_each pre initial).2) in *.
  assert (Hunsettled : settled s = false) by (by rewrite Hs).
  destruct (terminal_any t s Ht Hunsettled) as (Hs1 & Ht1 & _).
  destruct (settled_forever_any post _ Hs1 Ht1) as (_ & Hpost & _).
  set (tp := (deliver_each post (state_of (deliver t s))).2) in *.
  assert (Hin : Resolve r ∈ trace_of (deliver t s)).
  { rewrite !elem_of_app in Hr. destruct Hr as [Hr|[Hr|Hr]]; [|done|].
    - apply resolve_is_settlement in Hr. rewrite Hp in Hr. by apply elem_of_nil in Hr.
    - apply resolve_is_settlement in Hr. rewrite Hpost in Hr.
      by apply elem_of_nil in Hr. }
  destruct t as [chunk|d|err|c sg|dl]; try done.
  { rewrite error_run in Hin by done. cbn in Hin.
    rewrite !elem_of_cons, elem_of_nil in Hin. by destruct Hin as [?|[?|[]]]. }
  clear Hr. revert Hin. rewrite (close_any c sg s Hunsettled). cbn zeta.
  destruct (lineBuffer s) as [|x b] eqn:Hb.
  - cbn [trace_of snd]. rewrite !elem_of_cons, elem_of_nil.
    intros [?|[[= ->]|[]]]; [done|]. split; [done|].
    exists pre, c, sg, (tr ++ [ClearTimeout]), tp. split_and!; [done| |].
    + by rewrite <- app_assoc.
    + rewrite delivered_lines_app. cbn. rewrite app_nil_r, <- Hw. cbn.
      by rewrite app_nil_r.
  - destruct (onStdoutLine (x :: b)) as [err|] eqn:Hcb; cbn [trace_of snd];
      rewrite !elem_of_cons, elem_of_nil.
    + by intros [?|[?|[]]].
    + intros [?|[?|[[= ->]|[]]]]; [done|done|]. split; [done|].
      exists pre, c, sg, (tr ++ [ClearTimeout; OnStdoutLine (x :: b)]), tp.
      split_and!; [done| |].
      * by rewrite <- app_assoc.
      * rewrite delivered_lines_app. cbn [delivered_lines omap list_omap].
        by rewrite concat_app, without_newlines_app, <- Hw; cbn; rewrite app_nil_r.
Qed.

End executor.

(* ------------------------------------------------------------------ *)
(** ** A callback that returns *)
(* ------------------------------------------------------------------ *)

Section returning.
Context {Buffer : Type} (Buffer_toString : Buffer → jsstring).
Variable onStdoutLine : jsstring → option error.
Hypothesis onStdoutLine_returns : ∀ line, onStdoutLine line = None.
Local Abbreviation call_onStdoutLine := (call_onStdoutLine onStdoutLine).
Local Abbreviation while_newline := (while_newline onStdoutLine).
Local Abbreviation deliver := (deliver Buffer_toString onStdoutLine).
Local Abbreviation deliver_each := (deliver_each Buffer_toString onStdoutLine).
Local Abbreviation run := (run Buffer_toString onStdoutLine).
Local Abbreviation after := (after Buffer_toString).
Local Abbreviation stdout_text := (stdout_text Buffer_toString).
Local Abbreviation stderr_text := (stderr_text Buffer_toString).
Local Abbreviation outcome_of := (outcome_of Buffer_toString).

Lemma call_returns line s :
  call_onStdoutLine line s = (Normal tt, s, [OnStdoutLine line]).
Proof. by rewrite call_run, onStdoutLine_returns. Qed.

(** The loop stops because no newline is left, never because it ran out of
    rounds: it delivers the non-empty terminated lines of the buffer and
    keeps the remainder. *)
Lemma while_newline_exits rounds s :
  (length (lineBuffer s) < rounds)%nat →
  while_newline rounds s =
    (Normal tt,
     set_lineBuffer (lines_and_rest (lineBuffer s)).2 s,
     OnStdoutLine <$> nonempty_lines (lines_and_rest (lineBuffer s)).1).
Proof.
  revert s. induction rounds as [|n IH]; intros s Hlen; [lia|].
  cbn [ExecStreaming.while_newline]. rewrite (bind_pure _ get s s s) by done.
  destruct (indexOf (lineBuffer s) LF) as [i|] eqn:Hi.
  - rewrite (lines_and_rest_newline _ _ Hi).
    pose proof (indexOf_lt _ _ _ Hi) as Hlt.
    unfold slice, slice_from. rewrite drop_0, Nat.sub_0_r.
    replace (i + 1)%nat with (S i) by lia.
    set (s1 := set_lineBuffer (drop (S i) (lineBuffer s)) s).
    rewrite (bind_pure _ (modify _) s tt s1) by done.
    assert (Hlen1 : (length (lineBuffer s1) < n)%nat).
    { cbn. rewrite length_drop. lia. }
    specialize (IH s1 Hlen1). change (lineBuffer s1) with (drop (S i) (lineBuffer s)) in IH.
    unfold s1 in IH at 2. rewrite set_lineBuffer_twice in IH.
    cbn [fst snd]. unfold nonempty_lines at 1. rewrite filter_cons.
    destruct (take i (lineBuffer s)) as [|c l] eqn:Ht.
    + rewrite bool_decide_false by (simpl; lia).
      rewrite decide_False by naive_solver.
      by rewrite (bind_pure _ (when false _) s1 tt s1) by done.
    + rewrite bool_decide_true by (simpl; lia).
      rewrite decide_True by done. cbn [when].
      by rewrite (bind_run _ _ _ _ _ _ _ _ _ (call_returns (c :: l) s1) IH).
  - rewrite (lines_and_rest_no_newline _ Hi). cbn. by rewrite set_lineBuffer_id.
Qed.

(** One [data] event on the output stream, in any closure. *)
Lemma stdout_data_run chunk s :
  deliver (stdout_data chunk) s =
    (Normal tt,
     set_lineBuffer (lines_and_rest (lineBuffer s ++ Buffer_toString chunk)).2 s,
     OnStdoutLine <$> terminated_lines (lineBuffer s ++ Buffer_toString chunk)).
Proof.
  cbn [ExecStreaming.deliver]. unfold on_stdout_data.
  rewrite (bind_pure _ get s s s) by done.
  set (s1 := set_lineBuffer (lineBuffer s ++ Buffer_toString chunk) s).
  rewrite (bind_pure _ (modify _) s tt s1) by done.
  rewrite (bind_pure _ get s1 s1 s1) by done.
  rewrite while_newline_exits by (simpl; lia).
  unfold s1. by rewrite set_lineBuffer_twice.
Qed.

(** [close] in a closure that has not settled: the remainder is flushed,
    then the promise is resolved. *)
Lemma close_run c sg s :
  settled s = false →
  deliver (child_close c sg) s =
    (Normal tt,
     set_lineBuffer [] (set_timer false (set_settled true s)),
     [ClearTimeout] ++ (OnStdoutLine <$> nonempty_lines [lineBuffer s])
     ++ [Resolve {| stdout := []; stderr := v_stderr s; code := c; signal := sg;
                    killed := child_killed s |}]).
Proof.
  intros Hs. rewrite (close_any _ _ c sg s Hs). cbn zeta.
  destruct s as [e b st tm k]. cbn in *. destruct b as [|x b]; [done|].
  by rewrite onStdoutLine_returns.
Qed.

Lemma deliver_returns ev s : outcome (deliver ev s) = Normal tt.
Proof.
  destruct ev as [chunk|d|err|c sg|dl].
  - by rewrite stdout_data_run.
  - done.
  - destruct (settled s) eqn:Hs; [by rewrite terminal_ignored|by rewrite error_run].
  - destruct (settled s) eqn:Hs; [by rewrite terminal_ignored|by rewrite close_run].
  - rewrite timeout_run. by destruct (timer s).
Qed.

Lemma after_nil s :
  lines_and_rest (lineBuffer s) = ([], lineBuffer s) → after [] s = s.
Proof.
  intros Hs. unfold ExecStreaming.after. cbn. rewrite !app_nil_r, Hs.
  rewrite andb_true_r, andb_false_r, orb_false_r. by destruct s.
Qed.

Lemma after_cons ev pre s :
  is_terminal ev = false →
  after pre (state_of (deliver ev s)) = after (ev :: pre) s.
Proof.
  destruct ev as [chunk|d|err|c sg|dl]; intros Hev; try done.
  - rewrite stdout_data_run.
    unfold ExecStreaming.after, state_of. cbn. f_equal.
    by rewrite (app_assoc (lineBuffer s)), (lines_and_rest_app (lineBuffer s ++ _)).
  - unfold ExecStreaming.after. cbn. by rewrite app_assoc.
  - rewrite timeout_run. unfold ExecStreaming.after.
    destruct (timer s) eqn:Ht; cbn; rewrite ?Ht; cbn.
    + by rewrite orb_false_r.
    + done.
Qed.

Lemma deliver_nonterminal ev s :
  is_terminal ev = false →
  lines_and_rest (lineBuffer s) = ([], lineBuffer s) →
  let r := deliver ev s in
  let cut := lines_and_rest (lineBuffer s ++ stdout_text [ev]) in
  lineBuffer (state_of r) = cut.2 ∧
  delivered_lines (trace_of r) = nonempty_lines cut.1 ∧
  settlements (trace_of r) = [].
Proof.
  intros Hev Hs. destruct ev as [chunk|d|err|c sg|dl]; try done; cbn zeta.
  - rewrite stdout_data_run. unfold state_of, trace_of. cbn.
    by rewrite delivered_lines_fmap, settlements_fmap, !app_nil_r.
  - cbn. by rewrite app_nil_r, Hs.
  - rewrite timeout_run. destruct (timer s); cbn; by rewrite app_nil_r, Hs.
Qed.

Lemma nonterminal_events pre s :
  Forall (λ ev, is_terminal ev = false) pre →
  lines_and_rest (lineBuffer s) = ([], lineBuffer s) →
  let r := deliver_each pre s in
  r.1 = after pre s ∧
  delivered_lines r.2 =
    nonempty_lines (lines_and_rest (lineBuffer s ++ stdout_text pre)).1 ∧
  settlements r.2 = [].
Proof.
  intros Hpre. revert s. induction Hpre as [|ev pre Hev _ IH]; intros s Hs.
  - cbn. rewrite after_nil, app_nil_r, Hs by done. done.
  - cbn zeta. rewrite deliver_each_cons. cbn [fst snd].
    destruct (deliver_nonterminal ev s Hev Hs) as (Hb1 & Hl1 & Hp1).
    assert (Hs1 : lines_and_rest (lineBuffer (state_of (deliver ev s)))
                  = ([], lineBuffer (state_of (deliver ev s)))).
    { rewrite Hb1. apply lines_and_rest_idem. }
    destruct (IH _ Hs1) as (Hs2 & Hl2 & Hp2).
    rewrite delivered_lines_app, settlements_app, Hs2, Hl1, Hl2, Hp1, Hp2.
    split_and!; [by apply after_cons| |done].
    rewrite (stdout_text_cons _ ev pre), app_assoc.
    rewrite (lines_and_rest_app (_ ++ _)). cbn [fst].
    unfold nonempty_lines. by rewrite filter_app, Hb1.
Qed.

Lemma initial_no_newline : lines_and_rest (lineBuffer initial) = ([], lineBuffer initial).
Proof. done. Qed.

(** The lines of an execution that ends with [close]. *)
Lemma lines_before_close evs c sg :
  Forall (λ ev, is_terminal ev = false) evs →
  ∃ t r,
    (run (evs ++ [child_close c sg])).2 = t ++ [Resolve r] ∧
    delivered_lines t = nonempty_lines (spec_lines (stdout_text evs)).
Proof.
  intros Hevs. unfold ExecStreaming.run. rewrite deliver_each_app. cbn [snd].
  destruct (nonterminal_events evs initial Hevs initial_no_newline) as (Hs & Hl & _).
  cbn zeta in *. rewrite Hs in *. rewrite deliver_each_cons. cbn [fst snd deliver_each].
  rewrite close_run by done. unfold trace_of. cbn [snd].
  eexists (_ ++ [ClearTimeout]
             ++ (OnStdoutLine <$> nonempty_lines [lineBuffer (after evs initial)])), _.
  split.
  - rewrite app_nil_r, !app_assoc. reflexivity.
  - rewrite !delivered_lines_app, Hl, delivered_lines_fmap. cbn.
    rewrite nonempty_spec_lines, split_on_lines_and_rest.
    unfold nonempty_lines. by rewrite filter_app.
Qed.

Lemma deliver_settled ev s :
  settled s = true →
  settled (state_of (deliver ev s)) = true ∧ settlements (trace_of (deliver ev s)) = [].
Proof.
  intros Hs. destruct (is_terminal ev) eqn:Hev.
  { by rewrite terminal_ignored. }
  destruct (nonterminal_any Buffer_toString onStdoutLine ev s Hev)
    as (Hs1 & _ & _ & _ & Hp1 & _).
  by rewrite Hs1, Hp1.
Qed.

Lemma settled_forever evs s :
  settled s = true →
  settled (deliver_each evs s).1 = true ∧ settlements (deliver_each evs s).2 = [].
Proof.
  revert s. induction evs as [|ev evs IH]; intros s Hs; [done|].
  rewrite deliver_each_cons. cbn [fst snd]. rewrite settlements_app.
  destruct (deliver_settled ev s Hs) as [Hs1 ->].
  by destruct (IH _ Hs1) as [-> ->].
Qed.

Lemma terminal_unsettled pre t :
  is_terminal t = true →
  let s := after pre initial in
  settled (state_of (deliver t s)) = true ∧
  settlements (trace_of (deliver t s)) = outcome_of pre t.
Proof.
  intros Ht. destruct t as [chunk|d|err|c sg|dl]; try done; cbn zeta.
  rewrite close_run by done. unfold state_of, trace_of. cbn [fst snd]. split; [done|].
  rewrite !settlements_app, settlements_fmap. done.
Qed.

(** C7, for a callback that returns: [resolve] and [reject] are called,
    between them, exactly once as soon as an [error] or [close] event has
    arrived, and the first such event decides which and with what; the
    [settled] flag is what makes every later terminal event a no-op. *)
Theorem settles_exactly_once evs :
  settlements (run evs).2 =
    match first_terminal evs with
    | Some (pre, t) => outcome_of pre t
    | None => []
    end
  ∧ settled (run evs).1 = bool_decide (is_Some (first_terminal evs))
  ∧ ∀ s ev, settled s = true → is_terminal ev = true →
            deliver ev s = (Normal tt, s, []).
Proof.
  split_and!; [| |apply terminal_ignored]; unfold ExecStreaming.run.
  - destruct (first_terminal evs) as [[pre t]|] eqn:Hft.
    + destruct (first_terminal_Some _ _ _ Hft) as (post & -> & Hpre & Ht).
      rewrite deliver_each_app, deliver_each_cons. cbn [fst snd].
      destruct (nonterminal_events pre initial Hpre initial_no_newline) as (Hs & _ & Hp).
      cbn zeta in *. rewrite !settlements_app, Hp, Hs.
      destruct (terminal_unsettled pre t Ht) as [Hs1 ->].
      destruct (settled_forever post _ Hs1) as [_ ->]. by rewrite app_nil_r.
    + by destruct (nonterminal_events evs initial (first_terminal_None _ Hft)
                     initial_no_newline) as (_ & _ & ->).
  - destruct (first_terminal evs) as [[pre t]|] eqn:Hft.
    + destruct (first_terminal_Some _ _ _ Hft) as (post & -> & Hpre & Ht).
      rewrite deliver_each_app, deliver_each_cons. cbn [fst snd].
      destruct (nonterminal_events pre initial Hpre initial_no_newline) as (Hs & _ & _).
      cbn zeta in *. rewrite Hs.
      destruct (terminal_unsettled pre t Ht) as [Hs1 _].
      by destruct (settled_forever post _ Hs1) as [-> _].
    + by destruct (nonterminal_events evs initial (first_terminal_None _ Hft)
                     initial_no_newline) as (-> & _ & _).
Qed.

End returning.

(** C1, as the code has it by design: for a callback that returns and
    output chunks none of which ends inside a multi-byte character, when
    the process closes after any interleaving of output chunks, error
    output and the timer, the lines handed to [onStdoutLine] are the
    non-empty lines of the decoded concatenation of all the chunks, in
    order, an unterminated remainder last, and all of them precede the
    resolution. *)
Theorem stdout_lines_delivered onStdoutLine evs c sg :
  (∀ line, onStdoutLine line = None) →
  Forall (λ ev, is_terminal ev = false) evs →
  Forall complete (stdout_chunks evs) →
  ∃ t r,
    (run toString onStdoutLine (evs ++ [child_close c sg])).2 = t ++ [Resolve r] ∧
    delivered_lines t =
      nonempty_lines (spec_lines (toString (Buffer_concat (stdout_chunks evs)))).
Proof.
  intros Hret Hevs Hchunks.
  destruct (lines_before_close toString onStdoutLine Hret evs c sg Hevs)
    as (t & r & Ht & Hl).
  exists t, r. split; [done|].
  by rewrite Hl, stdout_text_chunks, toString_concat.
Qed.

(** C1 as stated does not hold. The output [a\n\nb\n] splits into the
    lines [a], the empty line and [b], and the empty line is never handed
    to the callback (the guard of line 54). The two chunks [caf\xC3] and
    [\xA9\n] are the bytes of one line, yet each is decoded by itself (line
    49) and the line arrives with two U+FFFD for its last letter. And when
    the callback throws on [a], the listener leaves [b\nc] in the buffer,
    which [close] hands over as one line. *)
Lemma claimed_lines_not_delivered :
  (let chunk := bytes "a" ++ [x0a; x0a] ++ bytes "b" ++ [x0a] in
   let t := (run toString returns_always
               [stdout_data chunk; child_close (Some 0%Z) None]).2 in
   spec_lines (toString chunk) = [js "a"; []; js "b"] ∧
   delivered_lines t = [js "a"; js "b"] ∧
   delivered_lines t ≠ spec_lines (toString chunk)) ∧
  (let chunk1 := bytes "caf" ++ [xc3] in
   let chunk2 := [xa9; x0a] in
   let t := (run toString returns_always
               [stdout_data chunk1; stdout_data chunk2; child_close (Some 0%Z) None]).2 in
   spec_lines (toString (Buffer_concat [chunk1; chunk2])) = [js "caf" ++ [233]] ∧
   delivered_lines t = [js "caf" ++ [REPLACEMENT; REPLACEMENT]] ∧
   delivered_lines t ≠ spec_lines (toString (Buffer_concat [chunk1; chunk2]))) ∧
  (let chunk := bytes "a" ++ [x0a] ++ bytes "b" ++ [x0a] ++ bytes "c" in
   let t := (run toString (throws_on (js "a"))
               [stdout_data chunk; child_close (Some 0%Z) None]).2 in
   spec_lines (toString chunk) = [js "a"; js "b"; js "c"] ∧
   delivered_lines t = [js "a"; js "b" ++ [LF] ++ js "c"] ∧
   delivered_lines t ≠ spec_lines (toString chunk)).
Proof. vm_compute. split_and!; try done; discriminate. Qed.

(** C7 as stated does not hold. When the callback throws on the remainder
    that [close] flushes, the flag is already set and [resolve] is never
    reached: the promise is not settled, then or by any later event. *)
Lemma throwing_flush_never_settles :
  let evs := [stdout_data (bytes "x"); child_close (Some 0%Z) None;
              child_close (Some 0%Z) None; child_error TypeError] in
  let r := run toString (throws_on (js "x")) evs in
  is_Some (first_terminal evs) ∧ settlements r.2 = [] ∧ settled r.1 = true.
Proof. vm_compute. split_and!; [by eexists|done|done]. Qed.

Lemma stdout_lines_delivered_witness :
  ∃ t r,
    (run toString returns_always
       ([stdout_data (bytes "hel"); stderr_data (bytes "warn");
         stdout_data (bytes "lo" ++ [x0a; x0a] ++ bytes "caf" ++ [xc3; xa9]);
         timeout_fired true;
         stdout_data ([x0a] ++ bytes "tail")]
        ++ [child_close None (Some (js "SIGKILL"))])).2 = t ++ [Resolve r] ∧
    delivered_lines t = [js "hello"; js "caf" ++ [233]; js "tail"].
Proof.
  destruct (stdout_lines_delivered returns_always
              [stdout_data (bytes "hel"); stderr_data (bytes "warn");
               stdout_data (bytes "lo" ++ [x0a; x0a] ++ bytes "caf" ++ [xc3; xa9]);
               timeout_fired true;
               stdout_data ([x0a] ++ bytes "tail")]
              None (Some (js "SIGKILL"))) as (t & r & Ht & Hl).
  - done.
  - repeat constructor.
  - repeat constructor.
  - exists t, r. split; [exact Ht|]. rewrite Hl. vm_compute. reflexivity.
Defined.

Lemma settles_exactly_once_witness :
  settlements
    (run toString returns_always
       [stdout_data (bytes "x"); timeout_fired true;
        child_close None (Some (js "SIGKILL")); child_error TypeError]).2 =
    [Fulfilled {| stdout := []; stderr := []; code := None;
                  signal := Some (js "SIGKILL"); killed := true |}].
Proof.
  destruct (settles_exactly_once toString returns_always (λ _, eq_refl)
              [stdout_data (bytes "x"); timeout_fired true;
               child_close None (Some (js "SIGKILL")); child_error TypeError])
    as (Hsettled & _ & _).
  rewrite Hsettled. by vm_compute.
Defined.

Lemma stdout_only_through_callback_witness :
  let evs := [stdout_data (bytes "da"); stdout_data (bytes "ta" ++ [x0a] ++ bytes "b");
              stderr_data (bytes "warn"); child_close (Some 0%Z) None] in
  let r := {| stdout := []; stderr := js "warn"; code := Some 0%Z; signal := None;
              killed := false |} in
  Resolve r ∈ (run toString (throws_on (js "data")) evs).2 ∧
  ∃ pre c sg t t',
    first_terminal evs = Some (pre, child_close c sg) ∧
    (run toString (throws_on (js "data")) evs).2 = t ++ Resolve r :: t' ∧
    without_newlines (concat (delivered_lines t)) = without_newlines (stdout_text toString pre).
Proof.
  cbn zeta.
  assert (Hin : Resolve {| stdout := []; stderr := js "warn"; code := Some 0%Z;
                           signal := None; killed := false |}
                ∈ (run toString (throws_on (js "data"))
                     [stdout_data (bytes "da");
                      stdout_data (bytes "ta" ++ [x0a] ++ bytes "b");
                      stderr_data (bytes "warn"); child_close (Some 0%Z) None]).2).
  { match goal with |- _ ∈ ?tr => let t := eval vm_compute in tr in change tr with t end.
    rewrite !elem_of_cons. auto. }
  split; [exact Hin|].
  exact (proj2 (stdout_only_through_callback toString (throws_on (js "data")) _ _ Hin)).
Defined.

End ExecStreamingProps.

(* ================================================================== *)
(** * Properties of the stream-json accumulator *)
(* ================================================================== *)

Module StreamJsonProps.
Import StreamJson.

Lemma is_str_true v lit : is_str v lit = true → v = Some (VString (js lit)).
Proof.
  destruct v as [[]|]; try done. cbn. intros ->%bool_decide_eq_true. done.
Qed.

(** The five discriminators exclude one another. *)
Lemma type_cases (t : option value) :
  (is_str t "system", is_str t "assistant", is_str t "tool_use",
   is_str t "tool_result", is_str t "result")
  ∈ [ (true, false, false, false, false); (false, true, false, false, false);
      (false, false, true, false, false); (false, false, false, true, false);
      (false, false, false, false, true); (false, false, false, false, false) ].
Proof.
  destruct (is_str t "system") eqn:H1.
  { apply is_str_true in H1 as ->. vm_compute. set_solver. }
  destruct (is_str t "assistant") eqn:H2.
  { apply is_str_true in H2 as ->. vm_compute. set_solver. }
  destruct (is_str t "tool_use") eqn:H3.
  { apply is_str_true in H3 as ->. vm_compute. set_solver. }
  destruct (is_str t "tool_result") eqn:H4.
  { apply is_str_true in H4 as ->. vm_compute. set_solver. }
  destruct (is_str t "result") eqn:H5; set_solver.
Qed.

Ltac by_type t :=
  let H := fresh in
  let H1 := fresh "Hsystem" in
  let H2 := fresh "Hassistant" in
  let H3 := fresh "Htool_use" in
  let H4 := fresh "Htool_result" in
  let H5 := fresh "Hresult" in
  pose proof (type_cases t) as H;
  rewrite !elem_of_cons, elem_of_nil in H;
  destruct H as [H|[H|[H|[H|[H|[H|[]]]]]]];
  injection H as H1 H2 H3 H4 H5;
  rewrite ?H1, ?H2, ?H3, ?H4, ?H5.

Lemma null_or_not (v : value) : v = VNull ∨ v ≠ VNull.
Proof. destruct v; auto. Qed.

Section accumulator.
Variable number_to_string : jsstring → jsstring.
Variable callbacks : StreamJsonCallbacks.
Local Abbreviation handleLine := (handleLine number_to_string callbacks).
Local Abbreviation feed := (feed number_to_string callbacks).
Local Abbreviation on_block := (on_block callbacks).

Lemma set_resultText_id s : set_resultText (resultText s) s = s.
Proof. by destruct s. Qed.

Lemma set_resultText_twice x y s :
  set_resultText x (set_resultText y s) = set_resultText x s.
Proof. by destruct s. Qed.

Lemma call_observer_run {A} (observer : option (A → option error)) a c s :
  call_observer observer a c s = (answer observer a, s, calls observer c).
Proof.
  unfold call_observer, answer, calls. destruct observer as [f|]; [|done].
  unfold mbind, M_bind, bind, emit. by destruct (f a).
Qed.

Lemma answer_returns {A} (observer : option (A → option error)) a :
  observer_returns observer → answer observer a = Normal tt.
Proof.
  intros Hret. unfold answer. destruct observer as [f|]; [|done].
  by rewrite (Hret f a eq_refl).
Qed.

(** One block: the text is appended before the observer is called, so
    that it stays appended when the observer throws. *)
Lemma block_appended block s :
  on_block block s =
    match text_fragment block with
    | Some t =>
        (answer (onAssistantText callbacks) t,
         set_resultText (resultText s ++ t) s,
         calls (onAssistantText callbacks) (AssistantText t))
    | None => (Normal tt, s, [])
    end.
Proof.
  unfold StreamJson.on_block, text_fragment.
  destruct (is_object (Some block) && is_str (prop block "type") "text"); [|done].
  destruct (as_string (prop block "text")) as [t|]; [|done].
  destruct t as [|c t].
  - rewrite bool_decide_false by (simpl; lia). by rewrite bool_decide_false by naive_solver.
  - rewrite bool_decide_true by (simpl; lia). rewrite bool_decide_true by done.
    rewrite (bind_pure _ get s s s) by done.
    rewrite (bind_pure _ (modify _) s tt (set_resultText (resultText s ++ c :: t) s))
      by done.
    apply call_observer_run.
Qed.

(** The blocks of a line, when the text observer returns. *)
Lemma blocks_appended blocks s :
  observer_returns (onAssistantText callbacks) →
  for_each blocks on_block s =
    (Normal tt,
     set_resultText (resultText s ++ concat (omap text_fragment blocks)) s,
     match onAssistantText callbacks with
     | Some _ => AssistantText <$> omap text_fragment blocks
     | None => []
     end).
Proof.
  intros Hret. revert s. induction blocks as [|b blocks IH]; intros s.
  - cbn. rewrite app_nil_r, set_resultText_id. by destruct (onAssistantText _).
  - cbn [for_each]. unfold bind. rewrite block_appended. cbn [omap list_omap].
    destruct (text_fragment b) as [t|]; [|by rewrite IH].
    rewrite (answer_returns _ _ Hret), IH.
    cbn. rewrite app_assoc. unfold calls. by destruct (onAssistantText _).
Qed.

(** The blocks of a line, whatever the observer does: nothing but the
    text is touched. *)
Lemma blocks_any blocks s :
  ∃ r x t, for_each blocks on_block s = (r, set_resultText x s, t).
Proof.
  revert s. induction blocks as [|b blocks IH]; intros s.
  - exists (Normal tt), (resultText s), []. by rewrite set_resultText_id.
  - cbn [for_each]. unfold bind. rewrite block_appended.
    destruct (text_fragment b) as [t|].
    + destruct (answer (onAssistantText callbacks) t) as [[]|err].
      * destruct (IH (set_resultText (resultText s ++ t) s)) as (r & x & t' & ->).
        rewrite set_resultText_twice. by eexists _, _, _.
      * by eexists _, _, _.
    + destruct (IH s) as (r & x & t' & ->). by eexists _, _, _.
Qed.

Lemma on_assistant_any parsed s :
  ∃ r x t, on_assistant callbacks parsed s = (r, set_resultText x s, t).
Proof. apply blocks_any. Qed.

Lemma on_tool_use_run parsed s :
  on_tool_use callbacks parsed s =
    let toolCallId := default [] (as_string (prop parsed "tool_use_id")) in
    let name := default (js "unknown") (as_string (prop parsed "name")) in
    (answer (onToolUse callbacks) (name, toolCallId, tool_args parsed),
     if bool_decide (toolCallId ≠ [])
     then set_toolNameById (<[toolCallId := name]> (toolNameById s)) s else s,
     calls (onToolUse callbacks) (ToolUse name toolCallId (tool_args parsed))).
Proof.
  unfold on_tool_use. cbn zeta. case_bool_decide; cbn [when].
  - erewrite bind_pure; [apply call_observer_run|done].
  - erewrite bind_pure; [apply call_observer_run|done].
Qed.

Lemma on_tool_result_run parsed s :
  on_tool_result number_to_string callbacks parsed s =
    let toolCallId := default [] (as_string (prop parsed "tool_use_id")) in
    let name := getToolName s toolCallId in
    let isError := is_true (prop parsed "is_error") in
    let result := tool_result_text number_to_string parsed in
    (answer (onToolResult callbacks) (name, toolCallId, isError, result), s,
     calls (onToolResult callbacks) (ToolResult name toolCallId isError result)).
Proof.
  unfold on_tool_result. cbn zeta. rewrite (bind_pure _ get s s s) by done.
  apply call_observer_run.
Qed.

(** What a call of [handleLine] is, case by case. *)
Lemma handleLine_unparsed line s :
  JSON_parse line = None → handleLine line s = (Normal tt, s, []).
Proof. unfold StreamJson.handleLine. by intros ->. Qed.

Lemma handleLine_null line s :
  JSON_parse line = Some VNull → handleLine line s = (Abrupt TypeError, s, []).
Proof. unfold StreamJson.handleLine. by intros ->. Qed.

Lemma handleLine_parsed line parsed s :
  JSON_parse line = Some parsed → parsed ≠ VNull →
  handleLine line s =
    let type := prop parsed "type" in
    if is_str type "system" then on_system parsed s
    else if is_str type "assistant" then on_assistant callbacks parsed s
    else if is_str type "tool_use" then on_tool_use callbacks parsed s
    else if is_str type "tool_result"
         then on_tool_result number_to_string callbacks parsed s
    else if is_str type "result" then on_result parsed s
    else (Normal tt, s, []).
Proof.
  unfold StreamJson.handleLine. intros -> Hnull. cbn zeta.
  assert (Hread : read parsed "type" = mret (prop parsed "type")) by by destruct parsed.
  rewrite Hread, bind_ret_l. by repeat destruct (is_str _ _).
Qed.


Lemma on_result_resultText parsed s :
  resultText (state_of (on_result parsed s)) =
    match as_string (prop parsed "result") with
    | Some r => if bool_decide (r ≠ []) then r else resultText s
    | None => resultText s
    end.
Proof.
  unfold on_result, mbind, M_bind, bind, when.
  destruct (as_string (prop parsed "result")) as [[|c r]|];
    destruct (as_string (prop parsed "session_id"));
    destruct (is_object (prop parsed "usage")); done.
Qed.

Lemma on_result_registry parsed s :
  toolNameById (state_of (on_result parsed s)) = toolNameById s ∧
  trace_of (on_result parsed s) = [] ∧ outcome (on_result parsed s) = Normal tt.
Proof.
  unfold on_result, mbind, M_bind, bind, when.
  destruct (as_string (prop parsed "result")) as [[|c r]|];
    destruct (as_string (prop parsed "session_id"));
    destruct (is_object (prop parsed "usage")); done.
Qed.

(** The text after one line: a final result replaces it, assistant
    fragments are appended to it, nothing else touches it. *)
Lemma handleLine_resultText line s :
  observer_returns (onAssistantText callbacks) →
  resultText (state_of (handleLine line s)) =
    match final_result line with
    | Some r => r
    | None => resultText s ++ concat (assistant_fragments line)
    end.
Proof.
  intros Hret. unfold final_result, assistant_fragments.
  destruct (JSON_parse line) as [parsed|] eqn:Hp.
  2:{ rewrite handleLine_unparsed by done. cbn. by rewrite app_nil_r. }
  destruct (null_or_not parsed) as [->|Hnull].
  { rewrite handleLine_null by done. cbn. by rewrite app_nil_r. }
  rewrite (handleLine_parsed _ _ _ Hp Hnull). cbn zeta.
  by_type (prop parsed "type"); cbn [concat]; rewrite ?app_nil_r; try done.
  - unfold on_assistant. by rewrite blocks_appended.
  - rewrite on_tool_use_run. cbn zeta. unfold state_of. cbn [fst snd].
    by case_bool_decide.
  - by rewrite on_tool_result_run.
  - rewrite on_result_resultText.
    destruct (as_string (prop parsed "result")) as [r|]; [|by rewrite ?app_nil_r].
    case_bool_decide; by rewrite ?app_nil_r.
Qed.

Lemma feed_cons line lines s :
  feed (line :: lines) s =
    ((feed lines (state_of (handleLine line s))).1,
     trace_of (handleLine line s) ++ (feed lines (state_of (handleLine line s))).2).
Proof. cbn. by destruct (StreamJson.feed _ _ lines _). Qed.

Lemma feed_resultText lines s :
  observer_returns (onAssistantText callbacks) →
  resultText (feed lines s).1 =
    match last_result lines with
    | Some (r, rest) => r ++ assistant_text rest
    | None => resultText s ++ assistant_text lines
    end.
Proof.
  intros Hret. revert s. induction lines as [|line lines IH]; intros s.
  - cbn. by rewrite app_nil_r.
  - rewrite feed_cons. cbn [fst last_result]. rewrite IH, handleLine_resultText by done.
    destruct (last_result lines) as [[r rest]|]; [done|].
    unfold assistant_text. cbn. rewrite concat_app.
    destruct (final_result line) as [r|]; cbn; [done|]. by rewrite app_assoc.
Qed.


Lemma as_string_absent v : absent v → as_string v = None.
Proof. by intros [->| ->]. Qed.

(** C3, as the code has it: the observer of a [tool_result] line receives
    the tool name that the registry holds for the call id, the error flag
    (true only for the boolean [true]), and as its result the [content]
    string, else the [output] string, else the JSON text of [content] when
    that is present and not [null], else the JSON text of [output] when
    that is present and not [null], else the JSON text of the empty string,
    which is two double quotes. The observer is called once, the
    accumulator is left as it was, and [handleLine] completes as the
    observer does. *)
Theorem tool_result_payload line parsed s observer :
  JSON_parse line = Some parsed →
  is_str (prop parsed "type") "tool_result" = true →
  onToolResult callbacks = Some observer →
  let toolCallId := default [] (as_string (prop parsed "tool_use_id")) in
  let content := prop parsed "content" in
  let output := prop parsed "output" in
  ∃ isError result,
    handleLine line s =
      (completion_of (observer (getToolName s toolCallId, toolCallId, isError, result)),
       s, [ToolResult (getToolName s toolCallId) toolCallId isError result]) ∧
    (isError = true ↔ prop parsed "is_error" = Some (VBool true)) ∧
    (prop parsed "is_error" = None → isError = false) ∧
    (∀ c, content = Some (VString c) → result = c) ∧
    (∀ o, as_string content = None → output = Some (VString o) → result = o) ∧
    (∀ v, content = Some v → as_string content = None → as_string output = None →
          v ≠ VNull → result = JSON_stringify number_to_string v) ∧
    (∀ v, absent content → output = Some v → as_string output = None →
          v ≠ VNull → result = JSON_stringify number_to_string v) ∧
    (absent content → absent output → result = [QUOTE; QUOTE]).
Proof.
  intros Hp Htype Hcb. cbn zeta.
  assert (Hnull : parsed ≠ VNull) by (by intros ->).
  exists (is_true (prop parsed "is_error")), (tool_result_text number_to_string parsed).
  split_and!.
  - rewrite (handleLine_parsed _ _ _ Hp Hnull). cbn zeta.
    by_type (prop parsed "type"); try congruence.
    rewrite on_tool_result_run. cbn zeta. by rewrite Hcb.
  - by destruct (prop parsed "is_error") as [[|[]| | | | ]|].
  - by intros ->.
  - intros c Hc. unfold tool_result_text. by rewrite Hc.
  - intros o Hc Ho. unfold tool_result_text. by rewrite Hc, Ho.
  - intros v Hv Hc Ho Hvn. unfold tool_result_text. rewrite Hc, Ho, Hv.
    by destruct v.
  - intros v Hc Hv Ho Hvn. unfold tool_result_text.
    rewrite (as_string_absent _ Hc), Ho, Hv. destruct Hc as [-> | ->]; by destruct v.
  - intros Hc Ho. unfold tool_result_text.
    rewrite (as_string_absent _ Hc), (as_string_absent _ Ho).
    by destruct Hc as [-> | ->], Ho as [-> | ->].
Qed.

(** C5 fails on one line: [null] is valid JSON and carries none of the five
    discriminators, yet [handleLine] does not drop it: reading [parsed.type]
    throws a [TypeError] out of the method, on every accumulator. The state
    is left as it was and no observer is called. *)
Lemma handleLine_null_line s :
  handleLine (js "null") s = (Abrupt TypeError, s, []).
Proof. by apply handleLine_null. Qed.

(** What C5 says of every other line: a line that is not JSON, and a JSON
    value other than [null] whose [type] is not one of the five
    discriminators, change nothing, call no observer and raise nothing. *)
Lemma dropped_silently line s :
  match JSON_parse line with
  | None => True
  | Some parsed => parsed ≠ VNull ∧ recognized (prop parsed "type") = false
  end →
  handleLine line s = (Normal tt, s, []).
Proof.
  destruct (JSON_parse line) as [parsed|] eqn:Hp.
  - intros [Hnull Hrec]. rewrite (handleLine_parsed _ _ _ Hp Hnull). cbn zeta.
    unfold recognized in Hrec.
    by_type (prop parsed "type"); try done;
      by rewrite ?Hsystem, ?Hassistant, ?Htool_use, ?Htool_result, ?Hresult in Hrec.
  - intros _. by apply handleLine_unparsed.
Qed.

Lemma not_json :
  JSON_parse (js "not json") = None ∧ JSON_parse (js "{broken") = None ∧
  JSON_parse [] = None.
Proof. by vm_compute. Qed.

(** The registry after one line. *)
Lemma handleLine_registry line s :
  toolNameById (state_of (handleLine line s)) =
    match registration line with
    | Some (id, name) => <[id := name]> (toolNameById s)
    | None => toolNameById s
    end.
Proof.
  unfold registration.
  destruct (JSON_parse line) as [parsed|] eqn:Hp.
  2:{ by rewrite handleLine_unparsed. }
  destruct (null_or_not parsed) as [->|Hnull].
  { by rewrite handleLine_null. }
  rewrite (handleLine_parsed _ _ _ Hp Hnull). cbn zeta.
  by_type (prop parsed "type"); try done.
  - by destruct (on_assistant_any parsed s) as (r & x & t & ->).
  - rewrite on_tool_use_run. cbn zeta. unfold state_of. cbn [fst snd].
    destruct (as_string (prop parsed "tool_use_id")) as [id|].
    + change (default [] (Some id)) with id. by case_bool_decide.
    + cbn [default]. by rewrite bool_decide_false by naive_solver.
  - by rewrite on_tool_result_run.
  - apply on_result_registry.
Qed.

Lemma registration_nonempty line id name :
  registration line = Some (id, name) → id ≠ [].
Proof.
  unfold registration. destruct (JSON_parse line) as [parsed|]; [|done].
  destruct (is_str _ _); [|done].
  destruct (as_string _) as [id'|]; [|done].
  case_bool_decide; [|done]. by intros [= <- _].
Qed.

Lemma feed_registry_lookup lines s id :
  Forall (λ line, fst <$> registration line ≠ Some id) lines →
  toolNameById (feed lines s).1 !! id = toolNameById s !! id.
Proof.
  intros Hlines. revert s. induction Hlines as [|line lines Hline _ IH]; intros s.
  - done.
  - rewrite feed_cons. cbn [fst]. rewrite IH, handleLine_registry.
    destruct (registration line) as [[id' name]|]; [|done].
    apply lookup_insert_ne. cbn in Hline. congruence.
Qed.

Lemma feed_registry_grows lines s id :
  is_Some (toolNameById s !! id) → is_Some (toolNameById (feed lines s).1 !! id).
Proof.
  revert s. induction lines as [|line lines IH]; intros s Hs; [done|].
  rewrite feed_cons. cbn [fst]. apply IH. rewrite handleLine_registry.
  destruct (registration line) as [[id' name]|]; [|done].
  rewrite lookup_insert. case_decide; [by eexists|done].
Qed.

(** C6: a [tool_use] line registers its name under its call id, as the
    line of the test does for [tu-1] and [Read]; an id that no line
    registered resolves to [unknown]; and an id that is registered stays
    registered whatever lines follow. *)
Theorem tool_names_resolved :
  (∀ s, getToolName (state_of (handleLine (tool_use_line (js "tu-1") (js "Read")) s))
                    (js "tu-1") = js "Read") ∧
  (∀ line id name s, registration line = Some (id, name) →
                     getToolName (state_of (handleLine line s)) id = name) ∧
  (∀ lines id, Forall (λ line, fst <$> registration line ≠ Some id) lines →
               getToolName (feed lines new).1 id = js "unknown") ∧
  (∀ lines s id, is_Some (toolNameById s !! id) →
                 is_Some (toolNameById (feed lines s).1 !! id)).
Proof.
  assert (Hreg : ∀ line id name s, registration line = Some (id, name) →
                     getToolName (state_of (handleLine line s)) id = name).
  { intros line id name s Hr. unfold getToolName.
    by rewrite handleLine_registry, Hr, lookup_insert_eq. }
  split_and!; [|done| |apply feed_registry_grows].
  - intros s. by apply Hreg.
  - intros lines id Hlines. unfold getToolName.
    by rewrite feed_registry_lookup.
Qed.

Lemma empty_key_never_registered lines s :
  toolNameById s !! [] = None → toolNameById (feed lines s).1 !! [] = None.
Proof.
  intros Hs. rewrite feed_registry_lookup; [done|].
  apply Forall_forall. intros line _.
  destruct (registration line) as [[id name]|] eqn:Hr; [|done].
  cbn. intros [= ->]. by apply registration_nonempty in Hr.
Qed.

(** C10: a [tool_use] line without a string call id is announced to the
    observer with the empty call id (and the name [unknown] when it has no
    name either) and leaves the accumulator as it was, whether the observer
    returns or throws; hence the registry never holds the empty key and the
    empty id resolves to [unknown]. *)
Theorem unkeyed_tool_use :
  (∀ line parsed s observer,
     JSON_parse line = Some parsed →
     is_str (prop parsed "type") "tool_use" = true →
     as_string (prop parsed "tool_use_id") = None →
     onToolUse callbacks = Some observer →
     ∃ name args,
       handleLine line s =
         (completion_of (observer (name, [], args)), s, [ToolUse name [] args]) ∧
       (∀ n, prop parsed "name" = Some (VString n) → name = n) ∧
       (prop parsed "name" = None → name = js "unknown")) ∧
  (∀ lines, getToolName (feed lines new).1 [] = js "unknown" ∧
            toolNameById (feed lines new).1 !! [] = None).
Proof.
  split.
  - intros line parsed s observer Hp Htype Hid Hcb.
    assert (Hnull : parsed ≠ VNull) by (by intros ->).
    eexists (default (js "unknown") (as_string (prop parsed "name"))), _.
    split_and!.
    + rewrite (handleLine_parsed _ _ _ Hp Hnull). cbn zeta.
      by_type (prop parsed "type"); try congruence.
      rewrite on_tool_use_run. cbn zeta. rewrite Hid, Hcb. cbn [default].
      by rewrite bool_decide_false by naive_solver.
    + by intros n ->.
    + by intros ->.
  - intros lines. unfold getToolName.
    by rewrite empty_key_never_registered.
Qed.

(** C2, as the code has it: as long as the text observer returns, the
    text is the last non-empty final result followed by the assistant
    fragments of the lines after it, and all the assistant fragments when
    no line carried a final result; in particular a final result replaces
    the assistant text before it. *)
Theorem final_text lines :
  observer_returns (onAssistantText callbacks) →
  text (finalize (feed lines new).1) =
    match last_result lines with
    | Some (r, rest) => r ++ assistant_text rest
    | None => assistant_text lines
    end
  ∧ text (finalize (feed [assistant_line [js "partial"]; result_line (js "final")]
                      new).1) = js "final".
Proof.
  intros Hret.
  assert (H : ∀ lines, text (finalize (feed lines new).1) =
    match last_result lines with
    | Some (r, rest) => r ++ assistant_text rest
    | None => assistant_text lines
    end).
  { intros ls. cbn [text finalize]. by rewrite feed_resultText. }
  split; [apply H|]. rewrite H. by vm_compute.
Qed.

End accumulator.

(** C3 as stated does not hold: with neither [content] nor [output] the
    observer receives two double quotes, not the empty string. *)
Lemma no_payload_is_quoted :
  trace_of (handleLine (λ l, l) all_observers (print bare_tool_result) new) =
    [ToolResult (js "unknown") (js "tu-3") false [QUOTE; QUOTE]] ∧
  [QUOTE; QUOTE] ≠ @nil N.
Proof. by vm_compute. Qed.

Lemma tool_result_payload_witness :
  handleLine (λ l, l) all_observers (print denied_tool_result) new =
    (Normal tt, new,
     [ToolResult (js "unknown") (js "tu-3") true (js "Permission denied")]).
Proof.
  destruct (tool_result_payload (λ l, l) all_observers
              (print denied_tool_result) denied_tool_result new (λ _, None))
    as (isError & result & Hrun & Herr & _ & _ & Hout & _).
  - by vm_compute.
  - by vm_compute.
  - done.
  - rewrite Hrun, (proj2 Herr eq_refl), (Hout (js "Permission denied") eq_refl eq_refl).
    reflexivity.
Defined.

Lemma tool_names_resolved_witness :
  getToolName
    (feed (λ l, l) all_observers
       [tool_use_line (js "tu-1") (js "Read"); print denied_tool_result] new).1
    (js "unknown-id") = js "unknown".
Proof.
  apply (tool_names_resolved (λ l, l) all_observers).
  repeat constructor; by vm_compute.
Defined.

Lemma unkeyed_tool_use_witness :
  ∃ name args,
    handleLine (λ l, l) all_observers (print unkeyed_tool_use_event) new =
      (Normal tt, new, [ToolUse name [] args]) ∧ name = js "unknown".
Proof.
  destruct (proj1 (unkeyed_tool_use (λ l, l) all_observers)
              (print unkeyed_tool_use_event) unkeyed_tool_use_event new (λ _, None))
    as (name & args & Hrun & _ & Hname).
  - by vm_compute.
  - by vm_compute.
  - by vm_compute.
  - done.
  - exists name, args. split; [exact Hrun|]. by apply Hname.
Defined.

(** C2 as stated does not hold: assistant text that arrives after the
    final result is appended to it. And when the text observer throws on
    the block [a], the loop over the blocks of the line is left with [a]
    appended and the block [b] unread. *)
Lemma text_after_result_appended :
  (let lines := [result_line (js "final"); assistant_line [js " more"]] in
   let found := text (finalize (feed (λ l, l) all_observers lines new).1) in
   found = js "final more" ∧
   claimed_text lines = js "final" ∧
   found ≠ claimed_text lines) ∧
  (let lines := [assistant_line [js "a"; js "b"]] in
   let found :=
     text (finalize (feed (λ l, l) (text_observer_failing_on (js "a")) lines new).1) in
   found = js "a" ∧
   claimed_text lines = js "ab" ∧
   found ≠ claimed_text lines).
Proof. vm_compute. split_and!; try done; discriminate. Qed.

Lemma final_text_witness :
  text (finalize (feed (λ l, l) all_observers
                    [assistant_line [js "partial"]; result_line (js "final");
                     assistant_line [js " and"; js " more"]] new).1)
  = js "final and more".
Proof.
  destruct (final_text (λ l, l) all_observers
              [assistant_line [js "partial"]; result_line (js "final");
               assistant_line [js " and"; js " more"]]) as [Htext _].
  - by intros f a [= <-].
  - rewrite Htext. by vm_compute.
Defined.

End StreamJsonProps.

(* ================================================================== *)
(** * Properties of the matcher *)
(* ================================================================== *)

Module RegExpProps.

Lemma match_group_stop ps c s t :
  forallb (λ p, negb (p c)) ps = true →
  match_group ps (s ++ c :: t) = (λ rest, rest ++ c :: t) <$> match_group ps s.
Proof.
  revert s. induction ps as [|p ps IH]; intros s Hps; [done|].
  cbn in Hps. apply andb_prop in Hps as [Hp Hps]. apply negb_true_iff in Hp.
  destruct s as [|x s]; cbn.
  - by rewrite Hp.
  - destruct (p x); [by apply IH|done].
Qed.

(** A pattern none of whose classes accepts [c] never looks past a [c]. *)
Lemma match_atoms_stop r c s t :
  rejects c r = true → match_atoms r (s ++ c :: t) = match_atoms r s.
Proof.
  revert s. induction r as [|a r IH]; intros s Hr; [done|].
  cbn in Hr. apply andb_prop in Hr as [Ha Hr]. specialize (λ s, IH s Hr).
  destruct a as [p|p|ps].
  - apply negb_true_iff in Ha. destruct s as [|x s]; cbn.
    + by rewrite Ha.
    + destruct (p x); [by rewrite IH|done].
  - apply negb_true_iff in Ha. induction s as [|x s IHs].
    + cbn. rewrite Ha. apply (IH []).
    + cbn in *. destruct (p x); [|apply (IH (x :: s))].
      rewrite IHs. destruct (_ s); [done|]. apply (IH (x :: s)).
  - cbn. rewrite match_group_stop by done.
    destruct (match_group ps s) as [rest|]; cbn; [|apply IH].
    rewrite IH. destruct (match_atoms r rest); [done|apply IH].
Qed.

Lemma match_group_Some ps c s rest :
  forallb (λ p, negb (p c)) ps = true →
  match_group ps s = Some rest →
  ∃ pre, s = pre ++ rest ∧ length pre = length ps ∧ c ∉ pre.
Proof.
  revert s. induction ps as [|p ps IH]; intros s Hps.
  - intros [= ->]. exists []. split_and!; [done|done|apply not_elem_of_nil].
  - cbn in Hps. apply andb_prop in Hps as [Hp Hps]. apply negb_true_iff in Hp.
    destruct s as [|x s]; [done|]. cbn. destruct (p x) eqn:Hx; [|done].
    intros (pre & -> & Hlen & Hpre)%IH; [|done].
    exists (x :: pre). split_and!; [done|by cbn; f_equal|].
    rewrite not_elem_of_cons. split; [|done]. intros ->. congruence.
Qed.

(** A match of such a pattern ends at the first [c] of the text. *)
Lemma match_ends_at_first r q c s n :
  rejects c r = true → (∀ x, q x = true ↔ x = c) →
  match_atoms (r ++ [One q]) s = Some n →
  ∃ u t, s = u ++ c :: t ∧ (c ∉ u) ∧ n = S (length u).
Proof.
  intros Hr Hq. revert s n. induction r as [|a r IH]; intros s n.
  - destruct s as [|x s]; [done|]. cbn. destruct (q x) eqn:Hx; [|done].
    intros [= <-]. apply Hq in Hx as ->. exists [], s.
    split_and!; [done|apply not_elem_of_nil|done].
  - cbn in Hr. apply andb_prop in Hr as [Ha Hr]. specialize (IH Hr).
    destruct a as [p|p|ps]; rewrite <- app_comm_cons.
    + apply negb_true_iff in Ha. destruct s as [|x s]; [done|]. cbn.
      destruct (p x) eqn:Hx; [|done].
      destruct (match_atoms (r ++ [One q]) s) as [n'|] eqn:Hm; [|done].
      intros [= <-]. destruct (IH _ _ Hm) as (u & t & -> & Hu & ->).
      exists (x :: u), t. split_and!; [done| |done].
      rewrite not_elem_of_cons. split; [|done]. intros ->. congruence.
    + apply negb_true_iff in Ha. revert n. induction s as [|x s IHs]; intros n.
      * cbn. apply IH.
      * cbn. destruct (p x) eqn:Hx; [|apply IH].
        match goal with |- context [match ?star s with _ => _ end] =>
          destruct (star s) as [n'|] eqn:Hm end; [|apply IH].
        intros [= <-]. destruct (IHs _ Hm) as (u & t & -> & Hu & ->).
        exists (x :: u), t. split_and!; [done| |done].
        rewrite not_elem_of_cons. split; [|done]. intros ->. congruence.
    + cbn. destruct (match_group ps s) as [rest|] eqn:Hg; [|apply IH].
      destruct (match_atoms (r ++ [One q]) rest) as [n'|] eqn:Hm; [|apply IH].
      intros [= <-].
      destruct (match_group_Some _ _ _ _ Ha Hg) as (pre & -> & Hlen & Hpre).
      destruct (IH _ _ Hm) as (u & t & -> & Hu & ->).
      exists (pre ++ u), t. split_and!.
      * by rewrite <- app_assoc.
      * rewrite elem_of_app. tauto.
      * rewrite length_app. lia.
Qed.

(** Such a pattern never looks past the first [c] of the text. *)
Lemma match_stops_at_first r q c u t :
  rejects c r = true → (∀ x, q x = true ↔ x = c) → c ∉ u →
  match_atoms (r ++ [One q]) (u ++ c :: t) = match_atoms (r ++ [One q]) (u ++ [c]).
Proof.
  intros Hr Hq. revert u. induction r as [|a r IH]; intros u Hu.
  - destruct u as [|x u]; cbn; [by rewrite (proj2 (Hq c) eq_refl)|].
    by destruct (q x).
  - cbn in Hr. apply andb_prop in Hr as [Ha Hr]. specialize (IH Hr).
    destruct a as [p|p|ps]; rewrite <- app_comm_cons.
    + apply negb_true_iff in Ha. destruct u as [|x u]; cbn; [by rewrite Ha|].
      apply not_elem_of_cons in Hu as [_ Hu]. destruct (p x); [by rewrite IH|done].
    + apply negb_true_iff in Ha. induction u as [|x u IHu].
      * cbn. rewrite Ha. apply (IH []), not_elem_of_nil.
      * pose proof Hu as Hxu. apply not_elem_of_cons in Hu as [_ Hu].
        cbn in *. destruct (p x); [|by apply (IH (x :: u))].
        rewrite (IHu Hu).
        match goal with |- context [match ?star (u ++ [c]) with _ => _ end] =>
          destruct (star (u ++ [c])) end; [done|by apply (IH (x :: u))].
    + cbn. rewrite !match_group_stop by done.
      destruct (match_group ps u) as [rest|] eqn:Hg; cbn; [|by apply IH].
      destruct (match_group_Some _ _ _ _ Ha Hg) as (pre & -> & _ & _).
      assert (c ∉ rest) by (rewrite elem_of_app in Hu; tauto).
      rewrite IH by done. destruct (match_atoms _ (rest ++ [c])); [done|by apply IH].
Qed.

(** A greedy star passes a run of its class that ends where the class does. *)
Lemma match_star_run p r a s n :
  Forall (λ x, p x = true) a →
  match s with [] => True | x :: _ => p x = false end →
  match_atoms r s = Some n →
  match_atoms (Star p :: r) (a ++ s) = Some (length a + n)%nat.
Proof.
  intros Ha Hs Hm. induction Ha as [|x a Hx _ IH].
  - cbn [app length]. destruct s as [|y s]; cbn; [done|]. by rewrite Hs.
  - cbn in *. by rewrite Hx, IH.
Qed.

Lemma match_one p r x s :
  p x = true → match_atoms (One p :: r) (x :: s) = S <$> match_atoms r s.
Proof. cbn. by intros ->. Qed.

Lemma match_opt_skipped ps r s :
  match_group ps s = None → match_atoms (Opt ps :: r) s = match_atoms r s.
Proof. cbn. by intros ->. Qed.

Lemma match_opt_taken ps r s rest n :
  match_group ps s = Some rest → match_atoms r rest = Some n →
  match_atoms (Opt ps :: r) s = Some (length ps + n)%nat.
Proof. cbn. by intros -> ->. Qed.

End RegExpProps.

(* ================================================================== *)
(** * Properties of [stripThinkingSegments] *)
(* ================================================================== *)

Module StripProps.
Import PiSubscribe RegExpProps.

Local Abbreviation tag_at := (match_atoms THINKING_TAG_RE).

Lemma lit_accepts (a : ascii) x :
  (chr a < 65 ∨ 90 < chr a) → (chr a < 97 ∨ 122 < chr a) →
  lit a x = true ↔ x = chr a.
Proof.
  intros H1 H2. unfold lit, upper. rewrite N.eqb_eq.
  repeat case_match; rewrite ?andb_true_iff, ?andb_false_iff, ?N.leb_le, ?N.leb_gt in *; lia.
Qed.

Lemma lit_lt x : lit "<" x = true ↔ x = LT.
Proof. apply lit_accepts; cbn; lia. Qed.

Lemma lit_gt x : lit ">" x = true ↔ x = GT.
Proof. apply lit_accepts; cbn; lia. Qed.

Lemma tag_at_nil : tag_at [] = None.
Proof. done. Qed.

Lemma tag_at_cons x s :
  tag_at (x :: s) = if lit "<" x then S <$> match_atoms after_lt s else None.
Proof. done. Qed.

(** A marker cannot run into the next [<]. *)
Lemma tag_at_before_lt s t : s ≠ [] → tag_at (s ++ LT :: t) = tag_at s.
Proof.
  destruct s as [|x s]; [done|]. intros _.
  rewrite <- app_comm_cons, !tag_at_cons. destruct (lit "<" x); [|done].
  by rewrite match_atoms_stop.
Qed.

(** A marker ends at the first [>] after its start. *)
Lemma tag_at_Some s n :
  tag_at s = Some n →
  ∃ u t, s = LT :: u ++ GT :: t ∧ (GT ∉ LT :: u) ∧ n = S (S (length u)).
Proof.
  intros Hm.
  destruct (match_ends_at_first before_gt (lit ">") GT s n) as (u & t & -> & Hu & ->);
    [done|apply lit_gt|done|].
  destruct u as [|x u].
  - cbn in Hm. discriminate.
  - rewrite <- app_comm_cons, tag_at_cons in Hm.
    destruct (lit "<" x) eqn:Hx; [|done]. apply lit_lt in Hx as ->.
    by exists u, t.
Qed.

Lemma tag_at_bound s n : tag_at s = Some n → (0 < n ≤ length s)%nat.
Proof.
  intros (u & t & -> & _ & ->)%tag_at_Some. cbn. rewrite length_app. cbn. lia.
Qed.

Lemma is_tag_spec tag :
  is_tag tag = true →
  (∃ tag', tag = LT :: tag') ∧ ∀ t, tag_at (tag ++ t) = Some (length tag).
Proof.
  intros Htag%bool_decide_eq_true.
  destruct (tag_at_Some _ _ Htag) as (u & t0 & -> & Hu & Hlen).
  assert (t0 = []) as ->.
  { cbn in Hlen. rewrite length_app in Hlen. cbn in Hlen.
    destruct t0; [done|]. cbn in Hlen. lia. }
  split; [by eexists|]. intros t.
  rewrite <- Htag. change (LT :: u ++ [GT]) with ((LT :: u) ++ [GT]).
  rewrite <- app_assoc. cbn [app].
  apply (match_stops_at_first before_gt (lit ">") GT (LT :: u) t);
    [done|apply lit_gt|done].
Qed.

Lemma visible_skip a t b :
  visible b (length a) (a ++ t) = visible b 0 t.
Proof. induction a as [|x a IH]; [by destruct t|done]. Qed.

(** Where the next unit is [<], or the text ends, the pass over the text
    before it is a pass of its own. *)
Lemma visible_app a x b k :
  (x = [] ∨ ∃ t, x = LT :: t) → (k ≤ length a)%nat →
  visible b k (a ++ x) =
    ((visible b k a).1 ++ (visible (visible b k a).2 0 x).1,
     (visible (visible b k a).2 0 x).2).
Proof.
  intros Hx. revert b k. induction a as [|c a IH]; intros b k Hk.
  - cbn in Hk. assert (k = 0%nat) as -> by lia. cbn.
    by destruct (visible b 0 x).
  - destruct k as [|k]; cbn [visible app]; [|apply IH; cbn in Hk; lia].
    assert (Htag : tag_at (c :: a ++ x) = tag_at (c :: a)).
    { destruct Hx as [->|[t ->]]; [by rewrite app_nil_r|].
      by apply (tag_at_before_lt (c :: a)). }
    rewrite Htag. destruct (tag_at (c :: a)) as [n|] eqn:Hn.
    + apply tag_at_bound in Hn. cbn in Hn.
      rewrite (app_comm_cons a x c), take_app_le by (cbn; lia).
      apply IH. lia.
    + rewrite IH by lia. destruct (visible b 0 a) as [o1 b1]. cbn.
      destruct (visible b1 0 x) as [o2 b2]. by destruct b.
Qed.

(** A whole marker switches the span on or off and shows nothing. *)
Lemma visible_tag tag t b :
  is_tag tag = true →
  visible b 0 (tag ++ t) = visible (negb (includes tag SLASH)) 0 t.
Proof.
  intros ([tag' ->] & Hm)%is_tag_spec. specialize (Hm t).
  cbn [visible app]. cbn [app] in Hm. rewrite Hm.
  rewrite (app_comm_cons tag' t LT), take_app_length. cbn [length pred].
  apply visible_skip.
Qed.

Lemma visible_no_closing s idx k :
  Forall (λ m, includes m.2 SLASH = false) (scan THINKING_TAG_RE s idx k) →
  visible true k s = ([], true).
Proof.
  revert idx k. induction s as [|c s IH]; intros idx k; [done|].
  destruct k as [|k]; cbn [visible scan]; [|apply IH].
  destruct (tag_at (c :: s)) as [n|].
  - intros [Hm Hrest]%Forall_cons. cbn in Hm. rewrite Hm. by eapply IH.
  - intros Hrest. by rewrite (IH _ _ Hrest).
Qed.

Lemma visible_no_marker s idx b :
  scan THINKING_TAG_RE s idx 0 = [] → visible b 0 s = (if b then [] else s, b).
Proof.
  revert idx. induction s as [|c s IH]; intros idx; [by destruct b|].
  cbn [visible scan]. destruct (tag_at (c :: s)); [done|].
  intros Hs. rewrite (IH _ Hs). by destruct b.
Qed.

Lemma lower_slash x : (lower x =? SLASH) = (x =? SLASH).
Proof.
  unfold lower, SLASH. case_match; [|done].
  rewrite andb_true_iff, !N.leb_le in *.
  transitivity false; [|symmetry]; apply N.eqb_neq; lia.
Qed.

Lemma includes_toLowerCase m : includes (toLowerCase m) SLASH = includes m SLASH.
Proof.
  unfold includes, toLowerCase. induction m as [|x m IH]; [done|]. cbn.
  rewrite lower_slash. destruct (x =? SLASH); [done|].
  destruct (indexOf (map lower m) SLASH), (indexOf m SLASH); done.
Qed.

(** Letters match in either case. *)
Lemma lit_letter (a : ascii) x :
  (97 ≤ chr a ≤ 122) → lower x = chr a → lit a x = true.
Proof.
  intros Ha Hx. unfold lit, lower, upper in *. rewrite N.eqb_eq.
  repeat case_match; rewrite ?andb_true_iff, ?andb_false_iff, ?N.leb_le, ?N.leb_gt in *; lia.
Qed.

Lemma letter_not_special x c :
  (97 ≤ c ≤ 122) → lower x = c →
  isWhiteSpace x = false ∧ x ≠ SLASH ∧ x ≠ GT ∧ lit "/" x = false.
Proof.
  intros Hc Hx. unfold lower in Hx.
  assert (Hr : x = c ∨ x + 32 = c) by (case_match; auto).
  assert (65 ≤ x ≤ 122) as [H1 H2] by lia.
  split_and!; [|unfold SLASH; lia|unfold GT; lia|].
  - unfold isWhiteSpace.
    repeat (apply orb_false_intro); try (apply N.eqb_neq; lia).
    apply andb_false_intro1, N.leb_gt. lia.
  - unfold lit. change (upper (chr "/")) with 47. apply N.eqb_neq. unfold upper.
    destruct ((97 <=? x) && (x <=? 122)) eqn:E;
      rewrite ?andb_true_iff, ?N.leb_le in E; lia.
Qed.

Lemma includes_app s1 s2 c :
  includes (s1 ++ s2) c = includes s1 c || includes s2 c.
Proof.
  unfold includes. induction s1 as [|x s1 IH]; [done|]. cbn.
  destruct (x =? c); [done|].
  destruct (indexOf (s1 ++ s2) c), (indexOf s1 c); cbn in *; done.
Qed.

Lemma includes_cons x s c : includes (x :: s) c = (x =? c) || includes s c.
Proof.
  unfold includes. cbn. destruct (x =? c); [done|]. by destruct (indexOf s c).
Qed.

Lemma blank_no_slash a : blank a → includes a SLASH = false.
Proof.
  induction 1 as [|x a Hx _ IH]; [done|]. rewrite includes_cons, IH, orb_false_r.
  apply N.eqb_neq. intros ->. done.
Qed.

Lemma name_no_slash name : is_name name → includes name SLASH = false.
Proof.
  intros Hname. rewrite <- includes_toLowerCase. by destruct Hname as [-> | ->].
Qed.

Lemma blank_range x : isWhiteSpace x = true → x < 48 ∨ 122 < x.
Proof.
  unfold isWhiteSpace.
  rewrite !orb_true_iff, andb_true_iff, !N.eqb_eq, !N.leb_le. lia.
Qed.

Lemma blank_not_letter (a : ascii) x :
  (65 ≤ chr a ≤ 122) → isWhiteSpace x = true → lit a x = false.
Proof.
  intros Ha Hx%blank_range. unfold lit, upper. apply N.eqb_neq.
  destruct ((97 <=? x) && (x <=? 122)) eqn:E1;
    destruct ((97 <=? chr a) && (chr a <=? 122)) eqn:E2;
    rewrite ?andb_true_iff, ?andb_false_iff, ?N.leb_le, ?N.leb_gt in E1;
    rewrite ?andb_true_iff, ?andb_false_iff, ?N.leb_le, ?N.leb_gt in E2; lia.
Qed.

Lemma match_close b :
  blank b →
  match_atoms [Star isWhiteSpace; One (lit ">")] (b ++ [GT]) = Some (length b + 1)%nat.
Proof. intros Hb. by apply match_star_run. Qed.

Lemma match_from_name name b :
  is_name name → blank b →
  match_atoms from_name (name ++ b ++ [GT]) = Some (length name + (length b + 1))%nat.
Proof.
  intros Hname Hb. pose proof (match_close b Hb) as Hclose.
  assert (Hopt : match_atoms [Opt [lit "i"; lit "n"; lit "g"]; Star isWhiteSpace;
                              One (lit ">")] (b ++ [GT]) = Some (length b + 1)%nat).
  { destruct Hb as [|x b Hx Hb].
    - done.
    - rewrite match_opt_skipped; [done|]. cbn.
      rewrite (blank_not_letter "i" x); [done|cbn; lia|done]. }
  unfold from_name. cbn [drop THINKING_TAG_RE].
  destruct Hname as [Hname|Hname];
    repeat (destruct name as [|? name]; try discriminate Hname);
    injection Hname as ?????; try (injection H4 as ???);
    cbn [app];
    repeat (rewrite match_one by (apply lit_letter; [cbn; lia|assumption]);
            cbn [fmap option_fmap option_map]).
  - rewrite Hopt; cbn; repeat f_equal; lia.
  - erewrite match_opt_taken; [| |exact Hclose].
    + cbn; repeat f_equal; lia.
    + cbn. by rewrite !lit_letter by (first [cbn; lia|assumption]).
Qed.


Lemma slice_empty (text : jsstring) from to :
  (to ≤ from)%nat → slice text from to = [].
Proof. intros H. unfold slice. by replace (to - from)%nat with 0%nat by lia. Qed.

(** The statement after the loop. *)
Local Abbreviation finish text acc :=
  (if acc.2 then acc.1.1 else acc.1.1 ++ slice_from text acc.1.2).

(** The loop over the matches, with its slices of the whole text, shows
    what one pass over the text shows. *)
Lemma loop_visible text s done skip result lastIndex (b : bool) :
  text = done ++ s →
  (lastIndex ≤ length done + skip)%nat →
  (0 < skip → lastIndex = length done + skip)%nat →
  finish text (foldl (strip_step text) (result, lastIndex, b)
                 (scan THINKING_TAG_RE s (length done) skip)) =
    result ++ (if b then [] else slice text lastIndex (length done))
           ++ (visible b skip s).1.
Proof.
  revert done skip result lastIndex b.
  induction s as [|c s IH]; intros done skip result lastIndex b Htext Hle Hskip.
  - cbn [scan]. rewrite tag_at_nil. rewrite app_nil_r in Htext. subst done.
    assert (foldl (strip_step text) (result, lastIndex, b)
              match skip with 0%nat | _ => [] end = (result, lastIndex, b)) as ->
      by by destruct skip.
    cbn. rewrite app_nil_r. destruct b; [by rewrite app_nil_r|].
    unfold slice, slice_from. by rewrite take_ge by (rewrite length_drop; lia).
  - assert (Htext' : text = (done ++ [c]) ++ s) by by rewrite <- app_assoc.
    assert (Hlen' : length (done ++ [c]) = S (length done))
      by (rewrite length_app; cbn; lia).
    destruct skip as [|skip]; cbn [scan visible].
    2:{ rewrite <- Hlen', (IH (done ++ [c]) skip result lastIndex b Htext') by lia.
        do 2 f_equal. destruct b; [done|].
        by rewrite !slice_empty by lia. }
    destruct (tag_at (c :: s)) as [n|] eqn:Hn.
    + pose proof (tag_at_bound _ _ Hn) as Hb. cbn [foldl strip_step].
      rewrite includes_toLowerCase, length_take_le by lia.
      rewrite <- Hlen'.
      rewrite (IH (done ++ [c]) (pred n) _ (length done + n)%nat _ Htext') by lia.
      rewrite Hlen', (slice_empty _ (length done + n)%nat) by lia.
      destruct b, (negb (includes (take n (c :: s)) SLASH));
        by rewrite ?app_nil_r, <- ?app_assoc.
    + rewrite <- Hlen', (IH (done ++ [c]) 0%nat result lastIndex b Htext') by lia.
      destruct (visible b 0 s) as [out b']. cbn [fst]. destruct b; [done|].
      f_equal. rewrite Hlen'. unfold slice.
      assert (Hle' : (lastIndex ≤ length done)%nat) by lia.
      replace (S (length done) - lastIndex)%nat with (S (length done - lastIndex)) by lia.
      rewrite (take_S_r _ _ c).
      * by rewrite <- app_assoc.
      * rewrite lookup_drop, Htext.
        replace (lastIndex + (length done - lastIndex))%nat with (length done) by lia.
        by rewrite lookup_app_r, Nat.sub_diag by lia.
Qed.

Lemma search_None s idx :
  search THINKING_TAG_RE s idx = None → scan THINKING_TAG_RE s idx 0 = [].
Proof.
  revert idx. induction s as [|c s IH]; intros idx; cbn [search scan].
  - by rewrite tag_at_nil.
  - destruct (tag_at (c :: s)); [done|]. apply IH.
Qed.

(** [stripThinkingSegments] is one pass over the text, and it leaves the
    regular expression at rest. *)
Lemma strip_visible text :
  stripThinkingSegments text 0 = ((visible false 0 text).1, 0%nat).
Proof.
  unfold stripThinkingSegments. case_bool_decide as Htext; [by subst|].
  unfold test, exec. rewrite bool_decide_false by lia. rewrite drop_0.
  destruct (search THINKING_TAG_RE text 0) as [[i n]|] eqn:Hs.
  - rewrite bool_decide_true by done. cbn [negb]. unfold matchAll.
    rewrite bool_decide_false by lia. rewrite drop_0.
    pose proof (loop_visible text text [] 0%nat [] 0%nat false eq_refl) as H.
    cbn [length] in H. specialize (H ltac:(lia) ltac:(lia)).
    destruct (foldl _ _ _) as [[result lastIndex] b]. cbn in H.
    f_equal. unfold slice_from. by rewrite H.
  - rewrite bool_decide_false by (by intros []). cbn [negb].
    by rewrite (visible_no_marker _ _ _ (search_None _ _ Hs)).
Qed.

Lemma name_head name :
  is_name name → ∃ x name', name = x :: name' ∧ lower x = 116.
Proof.
  intros [Hname|Hname]; destruct name as [|x name]; try discriminate Hname;
    injection Hname as Hx _; by exists x, name.
Qed.

Lemma match_after_blank name b :
  is_name name → blank b →
  match_atoms (Star isWhiteSpace :: from_name) (name ++ b ++ [GT])
  = Some (length name + (length b + 1))%nat.
Proof.
  intros Hname Hb. destruct (name_head _ Hname) as (x & name' & Hn & Hx).
  apply (match_star_run isWhiteSpace from_name [] (name ++ b ++ [GT]));
    [done| |by apply match_from_name].
  rewrite Hn. cbn [app]. by destruct (letter_not_special x 116 ltac:(lia) Hx).
Qed.

(** An opening marker: [<], white space, the name in any case, white
    space, [>]. *)
Lemma opening_marker a name b :
  blank a → is_name name → blank b →
  is_opening (LT :: a ++ name ++ b ++ [GT]) = true.
Proof.
  intros Ha Hname Hb. unfold is_opening, is_tag. apply andb_true_intro. split.
  - apply bool_decide_eq_true. rewrite tag_at_cons.
    assert (lit "<" LT = true) as -> by done.
    change after_lt with
      (Star isWhiteSpace :: Opt [lit "/"] :: Star isWhiteSpace :: from_name).
    destruct (name_head _ Hname) as (x & name' & Hn & Hx).
    destruct (letter_not_special x 116 ltac:(lia) Hx) as (Hws & _ & _ & Hslash).
    rewrite (match_star_run isWhiteSpace _ a (name ++ b ++ [GT])
               (length name + (length b + 1))%nat); [| done | |].
    + cbn; rewrite !length_app; cbn; repeat f_equal; lia.
    + rewrite Hn. by cbn [app].
    + rewrite match_opt_skipped; [by apply match_after_blank|].
      rewrite Hn. cbn [app match_group]. by rewrite Hslash.
  - apply negb_true_iff. rewrite includes_cons, !includes_app.
    rewrite (blank_no_slash a), (blank_no_slash b), (name_no_slash name) by done.
    done.
Qed.

(** A closing marker: [<], white space, [/], white space, the name in any
    case, white space, [>]. *)
Lemma closing_marker a b name c :
  blank a → blank b → is_name name → blank c →
  is_closing (LT :: a ++ SLASH :: b ++ name ++ c ++ [GT]) = true.
Proof.
  intros Ha Hb Hname Hc. unfold is_closing, is_tag. apply andb_true_intro. split.
  - apply bool_decide_eq_true. rewrite tag_at_cons.
    assert (lit "<" LT = true) as -> by done.
    change after_lt with
      (Star isWhiteSpace :: Opt [lit "/"] :: Star isWhiteSpace :: from_name).
    destruct (name_head _ Hname) as (x & name' & Hn & Hx).
    destruct (letter_not_special x 116 ltac:(lia) Hx) as (Hws & _ & _ & Hslash).
    rewrite (match_star_run isWhiteSpace _ a (SLASH :: b ++ name ++ c ++ [GT])
               (1 + (length b + (length name + (length c + 1))))%nat); [|done|done|].
    + cbn; rewrite !length_app; cbn; rewrite !length_app; cbn; repeat f_equal; lia.
    + apply (match_opt_taken [lit "/"] _ _ (b ++ name ++ c ++ [GT])); [done|].
      apply match_star_run; [done| |by apply match_from_name].
      rewrite Hn. by cbn [app].
  - rewrite includes_cons, !includes_app, includes_cons. cbn.
    by rewrite !orb_true_r.
Qed.

Lemma markers_scan text : markers text = scan THINKING_TAG_RE text 0 0.
Proof. unfold markers, matchAll. rewrite bool_decide_false by lia. by rewrite drop_0. Qed.

Lemma strip_text_visible text : strip_text text = (visible false 0 text).1.
Proof. unfold strip_text. by rewrite strip_visible. Qed.

Lemma strip_no_marker text : no_marker text → strip_text text = text.
Proof.
  unfold no_marker. rewrite markers_scan, strip_text_visible.
  intros Hm. by rewrite (visible_no_marker _ _ _ Hm).
Qed.

Lemma strip_unclosed pre o rest :
  is_opening o = true → no_closing_marker rest →
  strip_text (pre ++ o ++ rest) = strip_text pre.
Proof.
  intros [Ho Hslash%negb_true_iff]%andb_prop Hrest.
  unfold no_closing_marker in Hrest. rewrite markers_scan in Hrest.
  rewrite !strip_text_visible.
  destruct (is_tag_spec _ Ho) as [[o' Ho'] _].
  rewrite visible_app; [|right; rewrite Ho'; by eexists|cbn; lia]. cbn [fst].
  rewrite visible_tag, Hslash by done. cbn [negb].
  rewrite (visible_no_closing _ _ _ Hrest). by rewrite app_nil_r.
Qed.

Lemma strip_span pre o mid c post :
  is_opening o = true → is_closing c = true → no_closing_marker mid →
  strip_text (pre ++ o ++ mid ++ c ++ post) = strip_text pre ++ strip_text post.
Proof.
  intros [Ho Hoslash%negb_true_iff]%andb_prop [Hc Hcslash]%andb_prop Hmid.
  unfold no_closing_marker in Hmid. rewrite markers_scan in Hmid.
  rewrite !strip_text_visible.
  destruct (is_tag_spec _ Ho) as [[o' Ho'] _].
  destruct (is_tag_spec _ Hc) as [[c' Hc'] _].
  rewrite visible_app; [|right; rewrite Ho'; by eexists|cbn; lia]. cbn [fst].
  f_equal. rewrite visible_tag, Hoslash by done. cbn [negb].
  rewrite visible_app; [|right; rewrite Hc'; by eexists|cbn; lia]. cbn [fst].
  rewrite (visible_no_closing _ _ _ Hmid). cbn [fst snd app].
  by rewrite visible_tag, Hcslash by done.
Qed.

End StripProps.

(* ================================================================== *)
(** * Properties of the session bridge *)
(* ================================================================== *)

Module PiSubscribeProps.
Import PiSubscribe StripProps.

Lemma bind_ext {S E A B} (k1 k2 : A → M S E B) (m : M S E A) s :
  (∀ a s', k1 a s' = k2 a s') → (m ≫= k1) s = (m ≫= k2) s.
Proof.
  intros Hk. unfold mbind, M_bind, bind.
  destruct (m s) as [[[a|e] s1] t1]; [by rewrite Hk|done].
Qed.

Lemma bind_returns {S E A B} (k : A → M S E B) (m : M S E A) s a s1 t1 :
  m s = (Normal a, s1, t1) →
  (m ≫= k) s = (outcome (k a s1), state_of (k a s1), t1 ++ trace_of (k a s1)).
Proof.
  intros Hm. unfold mbind, M_bind, bind. rewrite Hm.
  by destruct (k a s1) as [[??]?].
Qed.

Section bridge.
Context `{Collaborators}.

Lemma call_sink_returns {A} (p : Params) (sink : option (A → option error)) a e s :
  returns sink →
  call_sink sink a e s = (Normal tt, s, match sink with Some _ => [e] | None => [] end).
Proof.
  intros Hr. destruct sink as [f|]; [|done]. cbn.
  unfold mbind, M_bind, bind, emit. cbn. by rewrite (Hr f a eq_refl).
Qed.

(** The [try] block around the delivery: whatever the sink does, the call
    is made and the statement completes. *)
Lemma delivery_guarded (sink : Payload → option error) payload s :
  try_catch (call_sink (Some sink) payload (OnToolResult payload)) (mret tt) s
  = (Normal tt, s, [OnToolResult payload]).
Proof.
  unfold try_catch, call_sink, mbind, M_bind, bind, emit. cbn.
  by destruct (sink payload).
Qed.

Lemma flush_call_returns p call s :
  returns (onPartialReply p) →
  ∃ t, on_debounce_flush p call s = (Normal tt, s, t).
Proof.
  intros Hr. unfold on_debounce_flush.
  destruct (onPartialReply p) as [f|] eqn:Hf; [|by eexists].
  destruct (splitMediaFromOutput _) as [cleanedText mediaUrls].
  rewrite (call_sink_returns p) by done. by eexists.
Qed.

Lemma flush_calls_return p calls s :
  returns (onPartialReply p) →
  ∃ t, for_each calls (on_debounce_flush p) s = (Normal tt, s, t).
Proof.
  intros Hr. induction calls as [|call calls [t IH]]; [by eexists|].
  cbn [for_each]. destruct (flush_call_returns p call s Hr) as [t1 H1].
  unfold bind. rewrite H1, IH. by eexists.
Qed.

Lemma deliver_tool_result_any p sink toolName meta s :
  deliver_tool_result (with_onToolResult (Some sink) p) toolName meta s =
    (Normal tt, s,
     match tool_result_delivery p toolName meta with
     | Some payload => [OnToolResult payload]
     | None => []
     end).
Proof.
  unfold deliver_tool_result, tool_result_delivery.
  change (emits_tool_result (with_onToolResult (Some sink) p))
    with (emits_tool_result p).
  cbn [onToolResult with_onToolResult].
  destruct (emits_tool_result p); [|done].
  destruct (splitMediaFromOutput _) as [cleanedText mediaUrls].
  destruct (_ || _); [|done]. apply delivery_guarded.
Qed.

Lemma tool_end_run p sink toolName toolCallId isError s :
  returns (onAgentEvent p) → returns (onPartialReply p) →
  let meta := mjoin (toolMetaById s !! toolCallId) in
  let data := ToolResult toolName toolCallId meta isError in
  let pushed := debouncer_push toolName meta (toolDebouncer s) in
  let s' := set_toolDebouncer pushed.1
              (set_toolMetas (toolMetas s ++ [(toolName, meta)]) s) in
  subscriber (with_onToolResult (Some sink) p)
    (tool_execution_end toolName toolCallId isError) s =
  (Normal tt, s',
   trace_of (for_each pushed.2 (on_debounce_flush p) s')
     ++ [EmitAgentEvent (runId p) (js "tool") data]
     ++ match onAgentEvent p with
        | Some _ => [OnAgentEvent (js "tool") data]
        | None => []
        end
     ++ match tool_result_delivery p toolName meta with
        | Some payload => [OnToolResult payload]
        | None => []
        end).
Proof.
  intros Hagent Hpartial. cbn zeta. cbn [subscriber].
  unfold on_tool_execution_end.
  set (meta := mjoin (toolMetaById s !! toolCallId)).
  set (s1 := set_toolMetas (toolMetas s ++ [(toolName, meta)]) s).
  destruct (debouncer_push toolName meta (toolDebouncer s)) as [d calls] eqn:Hd.
  cbn [fst snd].
  destruct (flush_calls_return p calls (set_toolDebouncer d s1) Hpartial)
    as [flushed Hf].
  rewrite Hf. unfold trace_of at 1. cbn [snd].
  rewrite (bind_returns _ get s s s []) by done.
  rewrite (bind_returns _ _ s tt s1 []) by done.
  assert (Hpush : toolDebouncer_push (with_onToolResult (Some sink) p) toolName meta s1
                  = (Normal tt, set_toolDebouncer d s1, flushed)).
  { unfold toolDebouncer_push.
    rewrite (bind_returns _ get s1 s1 s1 []) by done.
    change (toolDebouncer s1) with (toolDebouncer s). rewrite Hd.
    rewrite (bind_returns _ _ s1 tt (set_toolDebouncer d s1) []) by done.
    change (on_debounce_flush (with_onToolResult (Some sink) p))
      with (on_debounce_flush p).
    by rewrite Hf. }
  rewrite (bind_returns _ _ s1 tt _ _ Hpush).
  rewrite (bind_returns _ (emit _) _ tt (set_toolDebouncer d s1) [_]) by done.
  rewrite (bind_returns _ _ _ tt (set_toolDebouncer d s1) _
             (call_sink_returns p _ _ _ _ Hagent)).
  rewrite deliver_tool_result_any.
  unfold outcome, state_of, trace_of. cbn [fst snd app].
  by destruct (onAgentEvent p).
Qed.

(** C9: whatever the [onToolResult] sink does when the result of a tool
    call is delivered to it, and in particular when it throws, the
    subscriber returns, the closure is as after a delivery that succeeded
    (the tool meta recorded, the registry of metas untouched, the pair
    pushed on the debouncer), and the telemetry emitter and the
    [onAgentEvent] sink have had their deliveries. *)
Theorem sink_failure_discarded p sink toolName toolCallId isError s :
  returns (onAgentEvent p) → returns (onPartialReply p) →
  let evt := tool_execution_end toolName toolCallId isError in
  let meta := mjoin (toolMetaById s !! toolCallId) in
  let data := ToolResult toolName toolCallId meta isError in
  let run := subscriber (with_onToolResult (Some sink) p) evt s in
  run = subscriber (with_onToolResult (Some (λ _, None)) p) evt s ∧
  outcome run = Normal tt ∧
  state_of run =
    set_toolDebouncer (debouncer_push toolName meta (toolDebouncer s)).1
      (set_toolMetas (toolMetas s ++ [(toolName, meta)]) s) ∧
  EmitAgentEvent (runId p) (js "tool") data ∈ trace_of run ∧
  (onAgentEvent p ≠ None → OnAgentEvent (js "tool") data ∈ trace_of run) ∧
  (∀ payload, tool_result_delivery p toolName meta = Some payload →
              OnToolResult payload ∈ trace_of run).
Proof.
  intros Hagent Hpartial. cbn zeta.
  rewrite !tool_end_run by done. unfold outcome, state_of, trace_of. cbn [fst snd].
  split_and!; [done|done|done| | |].
  - rewrite !elem_of_app, elem_of_cons. auto.
  - intros Hsome. rewrite !elem_of_app. right. right. left.
    destruct (onAgentEvent p); [by apply list_elem_of_singleton|done].
  - intros payload ->. rewrite !elem_of_app. do 3 right.
    by apply list_elem_of_singleton.
Qed.

Lemma keeps_state_call_sink {A} (sink : option (A → option error)) a e :
  keeps_state (call_sink sink a e).
Proof.
  destruct sink as [f|]; [|done]. intros s. cbn.
  unfold mbind, M_bind, bind, emit. cbn. by destruct (f a).
Qed.

Lemma strip_at_rest text s :
  re_lastIndex s = 0%nat → strip text s = (Normal (strip_text text), s, []).
Proof.
  intros Hre. unfold strip, mbind, M_bind, bind, get, strip_text.
  rewrite Hre, strip_visible. cbn. rewrite <- Hre. by destruct s.
Qed.

(** The closure after a [message_update] that carries text: the fragment
    is appended to the buffer, and the stripped and trimmed buffer becomes
    the last streamed text when it is not empty and is new. *)
Lemma on_message_update_state p message ev chunk s :
  is_assistant message = true → text_chunk ev = Some chunk →
  re_lastIndex s = 0%nat →
  state_of (on_message_update p message ev s) =
    let buffer := deltaBuffer s ++ chunk in
    let next := trim (strip_text buffer) in
    set_lastStreamedAssistant
      (if bool_decide (next ≠ []) && bool_decide (Some next ≠ lastStreamedAssistant s)
       then Some next else lastStreamedAssistant s)
      (set_deltaBuffer buffer s).
Proof.
  intros Hrole Hchunk Hre. unfold on_message_update. rewrite Hrole.
  unfold text_chunk in Hchunk.
  destruct (_ || _); [|done].
  match type of Hchunk with
  | (if bool_decide (?c ≠ []) then _ else _) = _ => set (chunk' := c) in *
  end.
  case_bool_decide; [|done]. injection Hchunk as Hchunk. subst chunk'.
  rewrite Hchunk. clear Hchunk. cbn zeta.
  rewrite (state_of_bind _ get s s s []) by done.
  set (s1 := set_deltaBuffer (deltaBuffer s ++ chunk) s).
  rewrite (state_of_bind _ _ s tt s1 []) by done.
  rewrite (state_of_bind _ get s1 s1 s1 []) by done.
  rewrite (state_of_bind _ _ s1 _ s1 [] (strip_at_rest _ s1 Hre)).
  rewrite (state_of_bind _ get s1 s1 s1 []) by done.
  change (deltaBuffer s1) with (deltaBuffer s ++ chunk).
  change (lastStreamedAssistant s1) with (lastStreamedAssistant s).
  destruct (_ && _).
  2:{ cbn. by destruct s. }
  set (s2 := set_lastStreamedAssistant _ s1).
  rewrite (state_of_bind _ _ s1 tt s2 []) by done.
  destruct (splitMediaFromOutput _) as [cleanedText mediaUrls].
  apply keeps_state_bind; [apply keeps_state_emit|]. intros _.
  apply keeps_state_bind; intros; apply keeps_state_call_sink.
Qed.

Lemma deliver_all_cons p evt evts s :
  (deliver_all p (evt :: evts) s).1 =
    (deliver_all p evts (state_of (subscriber p evt s))).1.
Proof. cbn. by destruct (deliver_all p evts _). Qed.

Lemma split_delivery p msg :
  role msg = js "assistant" →
  let s := (deliver_all p
              [message_update (Some msg) (Some (text_delta (js "<thi")));
               message_update (Some msg)
                 (Some (text_delta (js "nking>hidden</thinking>visible")))]
              subscribed).1 in
  deltaBuffer s = js "<thinking>hidden</thinking>visible" ∧
  lastStreamedAssistant s = Some (js "visible").
Proof.
  intros Hrole. cbn zeta. rewrite !deliver_all_cons. cbn [deliver_all fst subscriber].
  assert (Hmsg : is_assistant (Some msg) = true) by (cbn; by rewrite Hrole).
  rewrite (on_message_update_state p _ _ (js "<thi") subscribed Hmsg) by done.
  rewrite (on_message_update_state p _ _ (js "nking>hidden</thinking>visible") _ Hmsg)
    by done.
  by vm_compute.
Qed.

(** C4: the marked text of the specification strips to [visible]; markers
    are recognized in any letter case and with white space around the
    name; what lies between an opening marker and the next closing one is
    removed with both markers; after an opening marker that no closing one
    follows nothing is kept; a text without markers is returned as it is;
    and the same text delivered in two fragments, the first ending inside
    the opening marker, leaves [visible] as the streamed text. *)
Theorem thinking_segments_stripped :
  strip_text (js "<thinking>hidden</thinking>visible") = js "visible" ∧
  (∀ a name b,
     blank a → is_name name → blank b →
     is_opening (js "<" ++ a ++ name ++ b ++ js ">") = true) ∧
  (∀ a b name c,
     blank a → blank b → is_name name → blank c →
     is_closing (js "<" ++ a ++ js "/" ++ b ++ name ++ c ++ js ">") = true) ∧
  (∀ pre o mid c post,
     is_opening o = true → is_closing c = true → no_closing_marker mid →
     strip_text (pre ++ o ++ mid ++ c ++ post) = strip_text pre ++ strip_text post) ∧
  (∀ pre o rest,
     is_opening o = true → no_closing_marker rest →
     strip_text (pre ++ o ++ rest) = strip_text pre) ∧
  (∀ text, no_marker text → strip_text text = text) ∧
  (∀ p msg,
     role msg = js "assistant" →
     let s := (deliver_all p
                 [message_update (Some msg) (Some (text_delta (js "<thi")));
                  message_update (Some msg)
                    (Some (text_delta (js "nking>hidden</thinking>visible")))]
                 subscribed).1 in
     deltaBuffer s = js "<thinking>hidden</thinking>visible" ∧
     lastStreamedAssistant s = Some (js "visible")).
Proof.
  split_and!.
  - by vm_compute.
  - apply opening_marker.
  - apply closing_marker.
  - apply strip_span.
  - apply strip_unclosed.
  - apply strip_no_marker.
  - apply split_delivery.
Qed.

End bridge.

#[local] Existing Instance plain_session.

Lemma thinking_segments_stripped_witness :
  strip_text (js "Plan: " ++ js "<Think >" ++ js "a < b, <thinking> again"
              ++ js "</THINKING>" ++ js " done") = js "Plan:  done" ∧
  strip_text (js "shown" ++ js "< think>" ++ js "never <think> shown") = js "shown" ∧
  lastStreamedAssistant
    (deliver_all verbose_params
       [message_update (Some assistant_message) (Some (text_delta (js "<thi")));
        message_update (Some assistant_message)
          (Some (text_delta (js "nking>hidden</thinking>visible")))]
       subscribed).1 = Some (js "visible").
Proof.
  destruct (thinking_segments_stripped (H := plain_session))
    as (_ & Hopening & Hclosing & Hspan & Hopen & _ & Hsplit).
  split_and!.
  - rewrite Hspan.
    + by vm_compute.
    + apply (Hopening [] (js "Think") (js " "));
        [repeat constructor|left; reflexivity|repeat constructor].
    + apply (Hclosing [] [] (js "THINKING") []);
        [repeat constructor|repeat constructor|right; reflexivity|repeat constructor].
    + unfold no_closing_marker. vm_compute. repeat constructor.
  - rewrite Hopen.
    + by vm_compute.
    + apply (Hopening (js " ") (js "think") []);
        [repeat constructor|left; reflexivity|repeat constructor].
    + unfold no_closing_marker. vm_compute. repeat constructor.
  - by apply (Hsplit verbose_params assistant_message).
Defined.

Lemma sink_failure_discarded_witness :
  let run := subscriber verbose_params
               (tool_execution_end (js "Read") (js "tu-1") false) reading in
  outcome run = Normal tt ∧
  toolMetas (state_of run) = [(js "Read", Some (js "/foo"))] ∧
  OnToolResult {| p_text := js "Read /foo"; p_mediaUrls := None |} ∈ trace_of run.
Proof.
  destruct (sink_failure_discarded (H := plain_session) verbose_params failing_sink
              (js "Read") (js "tu-1") false reading)
    as (_ & Hout & Hstate & _ & _ & Hsink).
  - by intros f a [= <-].
  - by intros f a [= <-].
  - split_and!.
    + exact Hout.
    + change (with_onToolResult (Some failing_sink) verbose_params)
        with verbose_params in Hstate.
      rewrite Hstate. by vm_compute.
    + apply Hsink. by vm_compute.
Defined.

End PiSubscribeProps.

(* ================================================================== *)
(** * Whole runs of the streaming executor *)
(* ================================================================== *)

Module ExecStreamingRuns.
Import ExecStreaming ExecStreamingProps.

(** The lines one listener hands over are never empty, whatever the
    callback does. *)
Lemma deliver_nonempty {Buffer} (Buffer_toString : Buffer → jsstring) onStdoutLine ev s :
  Forall (λ l : jsstring, l ≠ [])
    (delivered_lines (trace_of (deliver Buffer_toString onStdoutLine ev s))).
Proof.
  destruct ev as [chunk|d|err|c sg|dl].
  - destruct (data_any Buffer_toString onStdoutLine chunk s) as (r & b & ls & -> & Hls & _).
    unfold trace_of. cbn [snd]. rewrite delivered_lines_fmap.
    eapply Forall_impl; [exact Hls|]. by intros l [Hl _].
  - constructor.
  - destruct (settled s) eqn:Hst.
    + rewrite terminal_ignored by done. constructor.
    + rewrite error_run by done. constructor.
  - destruct (settled s) eqn:Hst.
    + rewrite terminal_ignored by done. constructor.
    + rewrite (close_any _ _ c sg s Hst). cbn zeta.
      destruct (lineBuffer s) as [|x b]; [constructor|].
      destruct (onStdoutLine (x :: b)); by repeat constructor.
  - rewrite timeout_run. destruct (timer s); constructor.
Qed.

Section executor.
Context {Buffer : Type} (Buffer_toString : Buffer → jsstring).
Variable onStdoutLine : jsstring → option error.
Hypothesis onStdoutLine_returns : ∀ line, onStdoutLine line = None.
Local Abbreviation deliver := (deliver Buffer_toString onStdoutLine).
Local Abbreviation deliver_each := (deliver_each Buffer_toString onStdoutLine).
Local Abbreviation run := (run Buffer_toString onStdoutLine).
Local Abbreviation stdout_text := (stdout_text Buffer_toString).
Local Abbreviation stdout_data_run :=
  (stdout_data_run Buffer_toString onStdoutLine onStdoutLine_returns).
Local Abbreviation close_run :=
  (close_run Buffer_toString onStdoutLine onStdoutLine_returns).

(** Every listener keeps the buffer free of newlines, and hands over only
    lines that are not empty and hold no newline. *)
Lemma deliver_clean ev s :
  LF ∉ lineBuffer s →
  (LF ∉ lineBuffer (state_of (deliver ev s))) ∧
  Forall (λ l, l ≠ [] ∧ LF ∉ l) (delivered_lines (trace_of (deliver ev s))).
Proof.
  intros Hs. destruct ev as [chunk|d|err|c sg|dl].
  - rewrite stdout_data_run. unfold state_of, trace_of. cbn [fst snd].
    rewrite delivered_lines_fmap.
    destruct (lines_and_rest_clean (lineBuffer s ++ Buffer_toString chunk)) as [Hl Hr].
    split; [done|]. unfold terminated_lines, nonempty_lines.
    apply Forall_forall. intros l [Hne Hin]%list_elem_of_filter.
    split; [done|]. by eapply Forall_forall in Hl.
  - by split; [|constructor].
  - destruct (settled s) eqn:Hst.
    + rewrite terminal_ignored by done. by split; [|constructor].
    + rewrite error_run by done. by split; [|constructor].
  - destruct (settled s) eqn:Hst.
    + rewrite terminal_ignored by done. by split; [|constructor].
    + rewrite close_run by done. unfold state_of, trace_of. cbn [fst snd].
      split; [apply not_elem_of_nil|].
      rewrite !delivered_lines_app, delivered_lines_fmap. cbn -[nonempty_lines].
      rewrite app_nil_r. apply Forall_forall.
      intros l [Hne Hin]%list_elem_of_filter.
      by apply list_elem_of_singleton in Hin as ->.
  - rewrite timeout_run. destruct (timer s); by split; [|constructor].
Qed.

Lemma deliver_each_clean evs s :
  LF ∉ lineBuffer s →
  Forall (λ l, LF ∉ l) (delivered_lines (deliver_each evs s).2).
Proof.
  revert s. induction evs as [|ev evs IH]; intros s Hs; [constructor|].
  rewrite deliver_each_cons. cbn [snd]. rewrite delivered_lines_app.
  destruct (deliver_clean ev s Hs) as [Hs1 Hl].
  apply Forall_app. split; [|by apply IH].
  eapply Forall_impl; [exact Hl|]. by intros l [_ Hl'].
Qed.

(** Events that cannot flush: either the closure has settled, or no
    [close] is among them. The listener of [data] goes on splitting. *)
Lemma run_without_flush evs s :
  settled s = true ∨ Forall (λ ev, is_close ev = false) evs →
  LF ∉ lineBuffer s →
  let r := deliver_each evs s in
  delivered_lines r.2 = terminated_lines (lineBuffer s ++ stdout_text evs) ∧
  lineBuffer r.1 = (lines_and_rest (lineBuffer s ++ stdout_text evs)).2 ∧
  (settled s = true → settled r.1 = true).
Proof.
  revert s. induction evs as [|ev evs IH]; intros s Hok Hs; cbn zeta.
  - cbn. rewrite app_nil_r. unfold terminated_lines.
    by rewrite lines_and_rest_clean_buffer.
  - rewrite deliver_each_cons. cbn [fst snd]. rewrite delivered_lines_app.
    assert (Hone :
      delivered_lines (trace_of (deliver ev s)) =
        terminated_lines (lineBuffer s ++ stdout_text [ev]) ∧
      lineBuffer (state_of (deliver ev s)) =
        (lines_and_rest (lineBuffer s ++ stdout_text [ev])).2 ∧
      (settled s = true → settled (state_of (deliver ev s)) = true) ∧
      (settled (state_of (deliver ev s)) = true
       ∨ Forall (λ ev, is_close ev = false) evs)).
    { assert (Hsame : terminated_lines (lineBuffer s ++ []) = []
                      ∧ (lines_and_rest (lineBuffer s ++ [])).2 = lineBuffer s).
      { rewrite app_nil_r. unfold terminated_lines.
        by rewrite lines_and_rest_clean_buffer. }
      destruct Hsame as [Hl Hr].
      assert (Hrest : settled s = false → Forall (λ ev, is_close ev = false) evs).
      { intros Hst. destruct Hok as [Hok|Hok]; [congruence|].
        by apply Forall_cons in Hok as [_ Hok]. }
      destruct ev as [chunk|d|err|c sg|dl].
      - rewrite stdout_data_run. unfold state_of, trace_of. cbn [fst snd].
        rewrite delivered_lines_fmap. cbn [stdout_text ExecStreaming.stdout_text].
        rewrite app_nil_r. split_and!; [done|done|done|].
        destruct (settled s) eqn:Hst; [by left|right; by apply Hrest].
      - cbn. rewrite Hl, Hr. split_and!; [done|done|done|].
        destruct (settled s) eqn:Hst; [by left|right; by apply Hrest].
      - destruct (settled s) eqn:Hst.
        + rewrite terminal_ignored by done. cbn. rewrite Hl, Hr. auto.
        + rewrite error_run by done. cbn. rewrite Hl, Hr. auto.
      - destruct (settled s) eqn:Hst.
        + rewrite terminal_ignored by done. cbn. rewrite Hl, Hr. auto.
        + destruct Hok as [Hok|Hok]; [congruence|].
          by apply Forall_cons in Hok as [Hok _].
      - rewrite timeout_run. destruct (timer s); cbn; rewrite Hl, Hr.
        + split_and!; [done|done|done|].
          destruct (settled s) eqn:Hst; [by left|right; by apply Hrest].
        + split_and!; [done|done|done|].
          destruct (settled s) eqn:Hst; [by left|right; by apply Hrest]. }
    destruct Hone as (Hl1 & Hb1 & Hst1 & Hok1).
    assert (Hs1 : LF ∉ lineBuffer (state_of (deliver ev s))).
    { rewrite Hb1. apply lines_and_rest_clean. }
    destruct (IH _ Hok1 Hs1) as (Hl2 & Hb2 & Hst2).
    assert (Hsplit : lineBuffer s ++ stdout_text (ev :: evs)
      = (lineBuffer s ++ stdout_text [ev]) ++ stdout_text evs).
    { destruct ev; cbn; by rewrite ?app_nil_r, <- ?app_assoc. }
    rewrite Hl1, Hl2, Hb2, Hb1, Hsplit.
    split_and!; [by rewrite <- terminated_lines_app| |auto].
    by rewrite (lines_and_rest_app (_ ++ _)).
Qed.

(** X2: the lines of any run whose callback returns. When [close] is the
    first terminal event, they are the non-empty lines of the output
    before it, a remainder without newline included, and then the
    newline-terminated lines of the output that arrives later. In every
    other run (the spawn fails first, or the process has not closed) only
    newline-terminated lines are delivered, and an unfinished last line
    never is. *)
Theorem lines_of_a_run evs :
  delivered_lines (run evs).2 =
    match first_terminal evs with
    | Some (pre, child_close _ _) =>
        nonempty_lines (spec_lines (stdout_text pre))
        ++ terminated_lines (stdout_text (after_terminal evs))
    | _ => terminated_lines (stdout_text evs)
    end.
Proof.
  unfold ExecStreaming.run, after_terminal.
  destruct (first_terminal evs) as [[pre t]|] eqn:Hft.
  - destruct (first_terminal_Some _ _ _ Hft) as (post & -> & Hpre & Ht).
    rewrite deliver_each_app. cbn [snd].
    destruct (nonterminal_events Buffer_toString onStdoutLine onStdoutLine_returns
                pre initial Hpre initial_no_newline) as (Hs & Hl & _).
    cbn zeta in *. rewrite delivered_lines_app, Hl, Hs, deliver_each_cons. cbn [snd].
    rewrite delivered_lines_app. cbn [lineBuffer initial app].
    assert (Hclean : LF ∉ lineBuffer (after Buffer_toString pre initial)).
    { cbn. apply lines_and_rest_clean. }
    destruct t as [chunk|d|err|c sg|dl]; try done.
    + rewrite error_run by done. cbn [state_of trace_of fst snd].
      destruct (run_without_flush post
                  (set_timer false (set_settled true (after Buffer_toString pre initial))))
        as (Hl2 & _); [by left|done|].
      cbn zeta in Hl2. rewrite Hl2. cbn.
      rewrite stdout_text_app. cbn. symmetry. apply terminated_lines_app.
    + rewrite close_run by done. cbn [state_of trace_of fst snd].
      destruct (run_without_flush post
                  (set_lineBuffer [] (set_timer false (set_settled true
                     (after Buffer_toString pre initial)))))
        as (Hl2 & _); [by left|apply not_elem_of_nil|].
      cbn zeta in Hl2. cbn [lineBuffer set_lineBuffer app] in Hl2. rewrite Hl2.
      rewrite !delivered_lines_app, delivered_lines_fmap, drop_after.
      cbn -[nonempty_lines terminated_lines spec_lines].
      rewrite app_nil_r, app_assoc. f_equal.
      rewrite nonempty_spec_lines, split_on_lines_and_rest.
      unfold nonempty_lines. by rewrite filter_app.
  - pose proof (first_terminal_None _ Hft) as Hevs.
    destruct (run_without_flush evs initial) as (Hl & _).
    + right. eapply Forall_impl; [exact Hevs|]. by intros [].
    + apply not_elem_of_nil.
    + done.
Qed.

End executor.

(** X1: whatever events arrive, in whatever order, and whatever the
    callback does, no line handed to [onStdoutLine] is empty; and as long
    as the callback returns, none holds a newline. *)
Theorem delivered_lines_are_lines {Buffer} (Buffer_toString : Buffer → jsstring)
    onStdoutLine evs :
  let lines := delivered_lines (run Buffer_toString onStdoutLine evs).2 in
  Forall (λ l, l ≠ []) lines ∧
  ((∀ line, onStdoutLine line = None) → Forall (λ l, LF ∉ l) lines).
Proof.
  cbn zeta. unfold run. split.
  - generalize initial. induction evs as [|ev evs IH]; intros s; [constructor|].
    rewrite deliver_each_cons. cbn [snd]. rewrite delivered_lines_app.
    apply Forall_app. split; [apply deliver_nonempty|apply IH].
  - intros Hret. by apply deliver_each_clean, not_elem_of_nil.
Qed.

(** X3: the timer's discipline, whatever the callback does. [SIGKILL] is
    sent at most once, and only when the timer fires before the first
    [error] or [close] event; [clearTimeout] is called once, by that
    event; after it the timer does nothing. And a fired timer never
    settles the promise by itself: as long as neither [error] nor [close]
    has arrived, [resolve] and [reject] have not been called and the flag
    is not set. *)
Theorem timer_discipline {Buffer} (Buffer_toString : Buffer → jsstring) onStdoutLine evs :
  let r := run Buffer_toString onStdoutLine evs in
  timer_calls r.2 =
    match first_terminal evs with
    | Some (pre, _) => kill_of pre ++ [ClearTimeout]
    | None => kill_of evs
    end
  ∧ (first_terminal evs = None → settlements r.2 = [] ∧ settled r.1 = false).
Proof.
  cbn zeta. unfold run. split.
  - destruct (first_terminal evs) as [[pre t]|] eqn:Hft.
    + destruct (first_terminal_Some _ _ _ Hft) as (post & -> & Hpre & Ht).
      rewrite deliver_each_app, deliver_each_cons. cbn [fst snd].
      destruct (nonterminal_events_any Buffer_toString onStdoutLine pre initial Hpre)
        as (Hs & _ & _ & _ & _ & Hc & _).
      cbn zeta in *. rewrite !timer_calls_app, Hc. cbn [timer initial]. f_equal.
      destruct (terminal_any Buffer_toString onStdoutLine t _ Ht Hs) as (Hs1 & Ht1 & ->).
      by destruct (settled_forever_any Buffer_toString onStdoutLine post _ Hs1 Ht1)
        as (_ & _ & ->).
    + by destruct (nonterminal_events_any Buffer_toString onStdoutLine evs initial
                     (first_terminal_None _ Hft)) as (_ & _ & _ & _ & _ & -> & _).
  - intros Hft.
    by destruct (nonterminal_events_any Buffer_toString onStdoutLine evs initial
                   (first_terminal_None _ Hft)) as (-> & _ & _ & _ & -> & _).
Qed.

Lemma lines_of_a_run_witness :
  delivered_lines
    (run toString returns_always
       [stdout_data (bytes "one" ++ [x0a] ++ bytes "tw"); stdout_data (bytes "o");
        child_close (Some 0%Z) None;
        stdout_data (bytes "late" ++ [x0a] ++ bytes "lost")]).2
  = [js "one"; js "two"; js "late"].
Proof.
  rewrite (lines_of_a_run toString returns_always (λ _, eq_refl)). by vm_compute.
Defined.

End ExecStreamingRuns.

(* ================================================================== *)
(** * The accumulator, field by field *)
(* ================================================================== *)

Module StreamJsonFields.
Import StreamJson StreamJsonProps.

Lemma last_omap_cons {A B} (f : A → option B) x l :
  last (omap f (x :: l)) =
    match last (omap f l) with
    | Some y => Some y
    | None => f x
    end.
Proof.
  cbn. destruct (f x) as [y|]; [|by destruct (last (omap f l))].
  rewrite last_cons. by destruct (last (omap f l)).
Qed.

Lemma announced_text_app t1 t2 :
  announced_text (t1 ++ t2) = announced_text t1 ++ announced_text t2.
Proof. apply omap_app. Qed.

Lemma announced_text_fmap l : announced_text (AssistantText <$> l) = l.
Proof. induction l; [done|]. cbn. by f_equal. Qed.

Section handlers.

(** What each handler is, as one triple. *)
Lemma on_system_run parsed s :
  on_system parsed s =
    (Normal tt,
     set_sessionId (match as_string (prop parsed "session_id") with
                    | Some id => Some id
                    | None => v_sessionId s
                    end) s, []).
Proof. done. Qed.

Lemma on_result_run parsed s :
  on_result parsed s =
    (Normal tt,
     {| v_sessionId := match as_string (prop parsed "session_id") with
                       | Some id => Some id
                       | None => v_sessionId s
                       end;
        resultText := match as_string (prop parsed "result") with
                      | Some r => if bool_decide (r ≠ []) then r else resultText s
                      | None => resultText s
                      end;
        v_usage := if is_object (prop parsed "usage")
                   then
                     let raw := default VNull (prop parsed "usage") in
                     Some {| input := nullish (prop raw "input_tokens") (prop raw "input");
                             output := nullish (prop raw "output_tokens")
                                         (prop raw "output") |}
                   else v_usage s;
        toolNameById := toolNameById s |}, []).
Proof.
  unfold on_result, mbind, M_bind, bind, when. destruct s as [sid txt us reg].
  destruct (as_string (prop parsed "result")) as [[|c r]|];
    destruct (as_string (prop parsed "session_id"));
    destruct (is_object (prop parsed "usage")); done.
Qed.

End handlers.

(** A call of [handleLine], case by case: a line that is not JSON, the
    line [null], the five handlers, an unrecognized discriminator. *)
Ltac by_line line :=
  let parsed := fresh "parsed" in
  let Hp := fresh "Hp" in
  let Hnull := fresh "Hnull" in
  destruct (JSON_parse line) as [parsed|] eqn:Hp;
  [ destruct (null_or_not parsed) as [->|Hnull];
    [ rewrite ?(handleLine_null _ _ _ _ Hp)
    | rewrite ?(handleLine_parsed _ _ _ _ _ Hp Hnull); cbn zeta;
      by_type (prop parsed "type");
      rewrite ?on_system_run, ?on_tool_use_run, ?on_tool_result_run, ?on_result_run;
      cbn zeta ]
  | rewrite ?(handleLine_unparsed _ _ _ _ Hp) ].

(** The handler of [assistant] lines, whatever the observer does. *)
Ltac any_assistant :=
  repeat match goal with
  | |- context [on_assistant ?cb ?parsed ?s] =>
      let r := fresh "r" in
      let x := fresh "x" in
      let t := fresh "t" in
      let H := fresh in
      destruct (on_assistant_any cb parsed s) as (r & x & t & H); rewrite H; clear H
  end.

Section accumulator.
Variable number_to_string : jsstring → jsstring.
Variable callbacks : StreamJsonCallbacks.
Local Abbreviation handleLine := (handleLine number_to_string callbacks).
Local Abbreviation feed := (feed number_to_string callbacks).

(** The session id after one line. *)
Lemma handleLine_sessionId line s :
  v_sessionId (state_of (handleLine line s)) =
    match session_of line with
    | Some id => Some id
    | None => v_sessionId s
    end.
Proof.
  unfold session_of. by_line line; any_assistant; unfold state_of; cbn [fst snd orb];
    try done.
  by case_bool_decide.
Qed.

Lemma feed_sessionId lines s :
  v_sessionId (feed lines s).1 =
    match last (omap session_of lines) with
    | Some id => Some id
    | None => v_sessionId s
    end.
Proof.
  revert s. induction lines as [|line lines IH]; intros s; [done|].
  rewrite feed_cons, last_omap_cons. cbn [fst]. rewrite IH, handleLine_sessionId.
  by destruct (last (omap session_of lines)).
Qed.

(** X4: the session id that [finalize] reports is the one seen last: the
    [session_id] of the last [system] or [result] line that carries one as
    a string; lines of other kinds, and lines that carry none, leave it
    alone. *)
Theorem session_id_last_seen lines :
  sessionId (finalize (feed lines new).1) = last (omap session_of lines).
Proof.
  cbn [sessionId finalize]. rewrite feed_sessionId.
  by destruct (last (omap session_of lines)).
Qed.

Lemma handleLine_usage line s :
  v_usage (state_of (handleLine line s)) =
    match usage_of line with
    | Some u => Some u
    | None => v_usage s
    end.
Proof.
  unfold usage_of. by_line line; any_assistant; unfold state_of; cbn [fst snd andb];
    try done.
  - by case_bool_decide.
  - by destruct (is_object _).
Qed.

Lemma feed_usage lines s :
  v_usage (feed lines s).1 =
    match last (omap usage_of lines) with
    | Some u => Some u
    | None => v_usage s
    end.
Proof.
  revert s. induction lines as [|line lines IH]; intros s; [done|].
  rewrite feed_cons, last_omap_cons. cbn [fst]. rewrite IH, handleLine_usage.
  by destruct (last (omap usage_of lines)).
Qed.

(** X5: the usage that [finalize] reports is that of the last [result]
    line whose [usage] is an object, each count read under
    [input_tokens] / [output_tokens] first and under [input] / [output]
    when the long name is missing or [null]; no other line touches it, and
    without such a line there is none. *)
Theorem usage_last_seen lines :
  usage (finalize (feed lines new).1) = last (omap usage_of lines).
Proof.
  cbn [usage finalize]. rewrite feed_usage.
  by destruct (last (omap usage_of lines)).
Qed.

(** The registry after one line, by call id. *)
Lemma feed_registered lines s id :
  toolNameById (feed lines s).1 !! id =
    match registered lines id with
    | Some name => Some name
    | None => toolNameById s !! id
    end.
Proof.
  unfold registered. revert s. induction lines as [|line lines IH]; intros s; [done|].
  rewrite feed_cons, last_omap_cons. cbn [fst]. rewrite IH, handleLine_registry.
  destruct (last _) as [name|]; [done|].
  destruct (registration line) as [[id' name]|]; [|done].
  case_bool_decide as Hid.
  - subst id'. by rewrite lookup_insert_eq.
  - by rewrite lookup_insert_ne.
Qed.

(** X6: a call id resolves to the name of the last [tool_use] line that
    registered it, so a later registration replaces an earlier one; and a
    [tool_result] line that follows is announced under that name. *)
Theorem last_registration_wins lines id :
  getToolName (feed lines new).1 id = default (js "unknown") (registered lines id) ∧
  ∀ line parsed,
    JSON_parse line = Some parsed →
    is_str (prop parsed "type") "tool_result" = true →
    as_string (prop parsed "tool_use_id") = Some id →
    is_Some (onToolResult callbacks) →
    ∃ isError result,
      trace_of (handleLine line (feed lines new).1) =
        [ToolResult (default (js "unknown") (registered lines id)) id isError result].
Proof.
  assert (Hname : getToolName (feed lines new).1 id
                  = default (js "unknown") (registered lines id)).
  { unfold getToolName. rewrite feed_registered.
    by destruct (registered lines id). }
  split; [done|]. intros line parsed Hp Htype Hid [observer Hcb].
  assert (Hnull : parsed ≠ VNull) by (by intros ->).
  rewrite (handleLine_parsed _ _ _ _ _ Hp Hnull). cbn zeta.
  by_type (prop parsed "type"); try congruence.
  rewrite on_tool_result_run. cbn zeta. rewrite Hid, Hcb.
  change (default [] (Some id)) with id. rewrite Hname. by eexists _, _.
Qed.

(** The calls of the text observer made for one line. *)
Lemma handleLine_announced line s :
  observer_returns (onAssistantText callbacks) →
  announced_text (trace_of (handleLine line s)) =
    match onAssistantText callbacks with
    | Some _ => assistant_fragments line
    | None => []
    end.
Proof.
  intros Hret. unfold assistant_fragments. by_line line; unfold trace_of; cbn [fst snd];
    try (by destruct (onAssistantText callbacks)).
  - unfold on_assistant. rewrite blocks_appended by done. cbn [snd].
    destruct (onAssistantText callbacks); [|done]. apply announced_text_fmap.
  - by destruct (onToolUse callbacks), (onAssistantText callbacks).
  - by destruct (onToolResult callbacks), (onAssistantText callbacks).
Qed.

(** X7: the text observer, when one is registered and as long as it
    returns, is called once for every non-empty text block of every
    [assistant] line, in arrival order, and for nothing else; what it has
    received, put together, is the assistant text of the lines. *)
Theorem assistant_text_announced lines s :
  observer_returns (onAssistantText callbacks) →
  announced_text (feed lines s).2 =
    match onAssistantText callbacks with
    | Some _ => lines ≫= assistant_fragments
    | None => []
    end ∧
  (is_Some (onAssistantText callbacks) →
   concat (announced_text (feed lines s).2) = assistant_text lines).
Proof.
  intros Hret.
  assert (H : announced_text (feed lines s).2 =
              match onAssistantText callbacks with
              | Some _ => lines ≫= assistant_fragments
              | None => []
              end).
  { revert s. induction lines as [|line lines IH]; intros s.
    - by destruct (onAssistantText callbacks).
    - rewrite feed_cons. cbn [snd].
      rewrite announced_text_app, IH, handleLine_announced by done.
      by destruct (onAssistantText callbacks). }
  split; [done|]. intros [observer Hcb]. by rewrite H, Hcb.
Qed.

(** X9: a [tool_use] line with a string call id is announced under that
    id with its name ([unknown] when the name is not a string) and with
    the arguments [input], else [args], else an empty object, a [null]
    counting as missing; it is registered under the id unless the id is the
    empty string, and nothing else changes. The registration is made before
    the observer is called, and [handleLine] completes as the observer
    does. *)
Theorem tool_use_announced line parsed id s :
  JSON_parse line = Some parsed →
  is_str (prop parsed "type") "tool_use" = true →
  as_string (prop parsed "tool_use_id") = Some id →
  let name := default (js "unknown") (as_string (prop parsed "name")) in
  let input := prop parsed "input" in
  let args := prop parsed "args" in
  handleLine line s =
    (answer (onToolUse callbacks) (name, id, tool_args parsed),
     if bool_decide (id ≠ [])
     then set_toolNameById (<[id := name]> (toolNameById s)) s else s,
     calls (onToolUse callbacks) (ToolUse name id (tool_args parsed))) ∧
  (∀ v, input = Some v → v ≠ VNull → tool_args parsed = v) ∧
  (∀ v, absent input → args = Some v → v ≠ VNull → tool_args parsed = v) ∧
  (absent input → absent args → tool_args parsed = VObject []).
Proof.
  intros Hp Htype Hid. cbn zeta.
  assert (Hnull : parsed ≠ VNull) by (by intros ->).
  split_and!.
  - rewrite (handleLine_parsed _ _ _ _ _ Hp Hnull). cbn zeta.
    by_type (prop parsed "type"); try congruence.
    rewrite on_tool_use_run. cbn zeta. by rewrite Hid.
  - intros v Hv Hvn. unfold tool_args. rewrite Hv. by destruct v.
  - intros v Hin Hv Hvn. unfold tool_args. rewrite Hv.
    destruct Hin as [-> | ->]; by destruct v.
  - intros Hin Ha. unfold tool_args.
    by destruct Hin as [-> | ->], Ha as [-> | ->].
Qed.

End accumulator.

(** The state after one line does not depend on the observers, nor on how
    numbers are printed, as long as the text observers return. *)
Lemma handleLine_state_independent print1 cb1 print2 cb2 line s :
  observer_returns (onAssistantText cb1) → observer_returns (onAssistantText cb2) →
  state_of (handleLine print1 cb1 line s) = state_of (handleLine print2 cb2 line s).
Proof.
  intros Hret1 Hret2.
  destruct (JSON_parse line) as [parsed|] eqn:Hp.
  2:{ by rewrite !handleLine_unparsed. }
  destruct (null_or_not parsed) as [->|Hnull].
  { by rewrite !handleLine_null. }
  rewrite !(handleLine_parsed _ _ _ _ _ Hp Hnull). cbn zeta.
  by_type (prop parsed "type"); try done.
  - unfold on_assistant. by rewrite !blocks_appended.
  - by rewrite !on_tool_use_run.
  - by rewrite !on_tool_result_run.
Qed.

Lemma handleLine_unobserved print line s :
  trace_of (handleLine print no_observers line s) = [].
Proof.
  by_line line; try done.
  unfold on_assistant. by rewrite blocks_appended.
Qed.

(** X10: observers only watch, as long as the text observer returns. The
    accumulator that a sequence of lines leaves behind is then the same
    whatever observers are registered (and however numbers are printed),
    even when the observers of tool events throw: they are called after the
    accumulator has been brought up to date. And with no observer
    registered no call is made. *)
Theorem observers_only_watch print1 cb1 print2 cb2 lines s :
  observer_returns (onAssistantText cb1) → observer_returns (onAssistantText cb2) →
  (feed print1 cb1 lines s).1 = (feed print2 cb2 lines s).1 ∧
  (feed print1 no_observers lines s).2 = [].
Proof.
  intros Hret1 Hret2.
  split; revert s; induction lines as [|line lines IH]; intros s; try done.
  - rewrite !feed_cons. cbn [fst].
    by rewrite (handleLine_state_independent print1 cb1 print2 cb2), IH.
  - rewrite feed_cons. cbn [snd]. by rewrite handleLine_unobserved, IH.
Qed.

Lemma assistant_text_announced_witness :
  announced_text
    (feed (λ l, l) all_observers
       [assistant_line [js "Hello"; []; js " world"];
        tool_use_line (js "tu-1") (js "Read");
        assistant_line [js "!"]] new).2
  = [js "Hello"; js " world"; js "!"].
Proof.
  destruct (assistant_text_announced (λ l, l) all_observers
              [assistant_line [js "Hello"; []; js " world"];
               tool_use_line (js "tu-1") (js "Read");
               assistant_line [js "!"]] new) as [Hcalls _].
  - by intros f a [= <-].
  - rewrite Hcalls. by vm_compute.
Defined.

Lemma observers_only_watch_witness :
  let lines := [tool_use_line (js "tu-1") (js "Read"); print denied_tool_result;
                assistant_line [js "done"]] in
  (feed (λ l, l) failing_tool_observers lines new).1
  = (feed (λ l, l) no_observers lines new).1.
Proof.
  cbn zeta.
  apply (observers_only_watch (λ l, l) failing_tool_observers (λ l, l) no_observers).
  - by intros f a [=].
  - by intros f a [=].
Defined.

Lemma tool_use_announced_witness :
  handleLine (λ l, l) all_observers (tool_use_line (js "tu-1") (js "Read")) new =
    (Normal tt, set_toolNameById {[ js "tu-1" := js "Read" ]} new,
     [ToolUse (js "Read") (js "tu-1") (obj [member "file_path" (str "/foo/bar.ts")])]).
Proof.
  destruct (tool_use_announced (λ l, l) all_observers
              (tool_use_line (js "tu-1") (js "Read"))
              (obj [member "type" (str "tool_use");
                    member "tool_use_id" (VString (js "tu-1"));
                    member "name" (VString (js "Read"));
                    member "input" (obj [member "file_path" (str "/foo/bar.ts")])])
              (js "tu-1") new) as (Hrun & Hinput & _).
  - by vm_compute.
  - by vm_compute.
  - by vm_compute.
  - rewrite Hrun. cbn zeta in Hinput.
    rewrite (Hinput (obj [member "file_path" (str "/foo/bar.ts")])).
    + by vm_compute.
    + by vm_compute.
    + done.
Defined.

End StreamJsonFields.

(* ================================================================== *)
(** * The language of the marker pattern *)
(* ================================================================== *)

Module RegExpLanguage.
Import RegExpProps.

Lemma match_group_sound ps s rest :
  match_group ps s = Some rest →
  ∃ g, s = g ++ rest ∧ Forall2 (λ p c, p c = true) ps g.
Proof.
  revert s. induction ps as [|p ps IH]; intros s.
  - intros [= ->]. exists []. by split; [|constructor].
  - destruct s as [|c s]; [done|]. cbn. destruct (p c) eqn:Hc; [|done].
    intros (g & -> & Hg)%IH. exists (c :: g). by split; [|constructor].
Qed.

(** What the matcher consumes is a word of the language. *)
Lemma match_atoms_sound r s n :
  match_atoms r s = Some n →
  ∃ w t, s = w ++ t ∧ length w = n ∧ accepts r w.
Proof.
  revert s n. induction r as [|a r IH]; intros s n.
  - intros [= <-]. by exists [], s.
  - destruct a as [p|p|ps].
    + destruct s as [|c s]; [done|]. cbn. destruct (p c) eqn:Hc; [|done].
      destruct (match_atoms r s) as [m|] eqn:Hm; [|done]. intros [= <-].
      destruct (IH _ _ Hm) as (w & t & -> & <- & Hw).
      exists (c :: w), t. split_and!; [done|done|]. by exists c, w.
    + assert (Hskip : ∀ s n, match_atoms r s = Some n →
                ∃ w t, s = w ++ t ∧ length w = n ∧ accepts (Star p :: r) w).
      { intros s' n' (w & t & -> & <- & Hw)%IH. exists w, t.
        split_and!; [done|done|]. exists [], w. by split_and!; [|constructor|]. }
      revert n. induction s as [|c s IHs]; intros n.
      * apply Hskip.
      * cbn. destruct (p c) eqn:Hc; [|apply Hskip].
        destruct (match_atoms (Star p :: r) s) as [m|] eqn:Hm; cbn in Hm; rewrite Hm.
        -- intros [= <-]. destruct (IHs _ eq_refl) as (w & t & -> & <- & Hw).
           destruct Hw as (a & w' & -> & Ha & Hw').
           exists (c :: a ++ w'), t. split_and!; [done|done|].
           exists (c :: a), w'. split_and!; [done|by constructor|done].
        -- apply Hskip.
    + assert (Hskip : ∀ n, match_atoms r s = Some n →
                ∃ w t, s = w ++ t ∧ length w = n ∧ accepts (Opt ps :: r) w).
      { intros n' (w & t & -> & <- & Hw)%IH. exists w, t.
        split_and!; [done|done|]. by left. }
      cbn. destruct (match_group ps s) as [rest|] eqn:Hg; [|apply Hskip].
      destruct (match_atoms r rest) as [m|] eqn:Hm; [|apply Hskip].
      intros [= <-]. destruct (match_group_sound _ _ _ Hg) as (g & -> & Hps).
      destruct (IH _ _ Hm) as (w & t & -> & <- & Hw).
      exists (g ++ w), t. split_and!.
      * by rewrite app_assoc.
      * rewrite length_app. by rewrite (Forall2_length _ _ _ Hps).
      * right. by exists g, w.
Qed.

End RegExpLanguage.

(* ================================================================== *)
(** * More on [stripThinkingSegments] *)
(* ================================================================== *)

Module StripLaws.
Import PiSubscribe RegExpProps StripProps RegExpLanguage.

Local Abbreviation tag_at := (match_atoms THINKING_TAG_RE).

Lemma visible_sublist b k s : (visible b k s).1 `sublist_of` s.
Proof.
  revert b k. induction s as [|c s IH]; intros b k; [done|].
  destruct k as [|k]; cbn [visible].
  - destruct (tag_at (c :: s)) as [n|].
    + by apply sublist_cons.
    + specialize (IH b 0%nat). destruct (visible b 0 s) as [out ends]. cbn in *.
      destruct b; [by apply sublist_cons|by apply sublist_skip].
  - by apply sublist_cons.
Qed.

(** X11: stripping only removes. The result is the input with some code
    units left out: nothing is added, nothing is reordered, and the result
    is never longer than the input. *)
Theorem strip_only_removes text :
  strip_text text `sublist_of` text ∧
  (length (strip_text text) ≤ length text)%nat.
Proof.
  assert (H : strip_text text `sublist_of` text).
  { rewrite strip_text_visible. apply visible_sublist. }
  split; [done|]. by apply sublist_length.
Qed.

(** X12: a closing marker always ends the hidden span and is itself
    removed, whether or not a span was open: the text before it and the
    text after it are stripped apart from each other. A closing marker
    that closes nothing thus disappears and hides nothing. *)
Theorem closing_marker_resets pre c post :
  is_closing c = true →
  strip_text (pre ++ c ++ post) = strip_text pre ++ strip_text post.
Proof.
  intros [Hc Hslash]%andb_prop. rewrite !strip_text_visible.
  destruct (is_tag_spec _ Hc) as [[c' Hc'] _].
  rewrite visible_app; [|right; rewrite Hc'; by eexists|cbn; lia]. cbn [fst].
  by rewrite visible_tag, Hslash by done.
Qed.

Lemma lit_slash x : lit "/" x = true ↔ x = SLASH.
Proof. apply lit_accepts; cbn; lia. Qed.

Lemma lit_letter_inv (a : ascii) x :
  (97 ≤ chr a ≤ 122) → lit a x = true → lower x = chr a.
Proof.
  intros Ha. unfold lit, lower, upper. rewrite N.eqb_eq.
  destruct ((97 <=? x) && (x <=? 122)) eqn:E1;
    destruct ((65 <=? x) && (x <=? 90)) eqn:E2;
    destruct ((97 <=? chr a) && (chr a <=? 122)) eqn:E3;
    rewrite ?andb_true_iff, ?andb_false_iff, ?N.leb_le, ?N.leb_gt in E1;
    rewrite ?andb_true_iff, ?andb_false_iff, ?N.leb_le, ?N.leb_gt in E2;
    rewrite ?andb_true_iff, ?andb_false_iff, ?N.leb_le, ?N.leb_gt in E3; lia.
Qed.

Lemma blank_app a b : blank a → blank b → blank (a ++ b).
Proof. intros Ha Hb. by apply Forall_app. Qed.

Lemma is_tag_length tag :
  is_tag tag = true → accepts THINKING_TAG_RE tag.
Proof.
  intros Htag%bool_decide_eq_true.
  destruct (match_atoms_sound _ _ _ Htag) as (w & t & Hw & Hlen & Hacc).
  assert (t = []) as ->.
  { apply (f_equal length) in Hw. rewrite length_app in Hw.
    destruct t; [done|]. cbn in Hw. lia. }
  rewrite app_nil_r in Hw. by subst w.
Qed.

Ltac letter H := apply lit_letter_inv in H; [|cbn; lia].

(** X13: the markers are exactly the strings made of [<], white space, an
    optional [/], white space, the name [think] or [thinking] in any
    letter case, white space and [>]. A tag with another name, with an
    attribute, or with anything else between its brackets is not a marker. *)
Theorem marker_language tag : is_tag tag = true ↔ marker_shape tag.
Proof.
  split.
  - intros Hacc%is_tag_length. unfold THINKING_TAG_RE in Hacc. cbn [accepts] in Hacc.
    destruct Hacc as (x0 & w0 & -> & Hlt%lit_lt & a & w1 & -> & Ha & Hslash).
    assert (Hname : ∀ w, accepts from_name w →
              ∃ name c, w = name ++ c ++ [GT] ∧ is_name name ∧ blank c).
    { intros w Hw. unfold from_name in Hw. cbn [drop THINKING_TAG_RE accepts] in Hw.
      destruct Hw as (t & ? & -> & Ht & h & ? & -> & Hh & i & ? & -> & Hi
                      & n & ? & -> & Hn & k & w' & -> & Hk & Hing).
      letter Ht. letter Hh. letter Hi. letter Hn. letter Hk.
      destruct Hing as [Hend|(g & w'' & -> & Hg & Hend)].
      - destruct Hend as (c & ? & -> & Hc & x & ? & -> & Hgt%lit_gt & ->).
        exists [t; h; i; n; k], c. split_and!; [by subst|left|done].
        cbn. by rewrite Ht, Hh, Hi, Hn, Hk.
      - destruct Hend as (c & ? & -> & Hc & x & ? & -> & Hgt%lit_gt & ->).
        apply Forall2_cons_inv_l in Hg as (i' & g1 & Hi' & Hg & ->).
        apply Forall2_cons_inv_l in Hg as (n' & g2 & Hn' & Hg & ->).
        apply Forall2_cons_inv_l in Hg as (g' & g3 & Hg' & Hg & ->).
        apply Forall2_nil_inv_l in Hg as ->.
        letter Hi'. letter Hn'. letter Hg'.
        exists [t; h; i; n; k; i'; n'; g'], c. split_and!; [by subst|right|done].
        cbn. by rewrite Ht, Hh, Hi, Hn, Hk, Hi', Hn', Hg'. }
    subst x0.
    destruct Hslash as [Hrest|(g & w2 & -> & Hg & Hrest)].
    + destruct Hrest as (b & w3 & -> & Hb & (name & c & -> & Hn & Hc)%Hname).
      exists a, [], b, name, c. split_and!; auto.
    + destruct Hrest as (b & w3 & -> & Hb & (name & c & -> & Hn & Hc)%Hname).
      apply Forall2_cons_inv_l in Hg as (x & g1 & Hx%lit_slash & Hg & ->).
      apply Forall2_nil_inv_l in Hg as ->. subst x.
      exists a, [SLASH], b, name, c. split_and!; auto.
  - intros (a & sl & b & name & c & -> & Ha & Hsl & Hb & Hn & Hc).
    destruct Hsl as [-> | ->].
    + cbn [app]. rewrite app_assoc.
      pose proof (opening_marker (a ++ b) name c (blank_app _ _ Ha Hb) Hn Hc) as H.
      by apply andb_prop in H as [H _].
    + pose proof (closing_marker a b name c Ha Hb Hn Hc) as H.
      by apply andb_prop in H as [H _].
Qed.

Lemma closing_marker_resets_witness :
  strip_text (js "a" ++ js "</think>" ++ js "b") = js "ab".
Proof.
  rewrite closing_marker_resets; by vm_compute.
Defined.

End StripLaws.

(* ================================================================== *)
(** * What a computation keeps, and what it emits *)
(* ================================================================== *)

Module EffFrames.

Section frames.
Context {S E : Type}.
Implicit Types (P : S → Prop) (Q : E → Prop).

Lemma preserves_ret {A} P (a : A) : preserves P (mret a : M S E A).
Proof. by intros s. Qed.

Lemma preserves_get P : preserves P (get : M S E S).
Proof. by intros s. Qed.

Lemma preserves_emit P e : preserves P (emit e : M S E unit).
Proof. by intros s. Qed.

Lemma preserves_modify P f :
  (∀ s, P s → P (f s)) → preserves P (modify f : M S E unit).
Proof. intros Hf s. apply Hf. Qed.

Lemma preserves_bind {A B} P (m : M S E A) (k : A → M S E B) :
  preserves P m → (∀ a, preserves P (k a)) → preserves P (m ≫= k).
Proof.
  intros Hm Hk s Hs. specialize (Hm s Hs). unfold mbind, M_bind, bind, state_of in *.
  destruct (m s) as [[[a|e] s1] t1]; cbn in *; [|done].
  specialize (Hk a s1 Hm). unfold state_of in Hk. by destruct (k a s1) as [[??]?].
Qed.

Lemma preserves_when P b (m : M S E unit) : preserves P m → preserves P (when b m).
Proof. intros Hm. destruct b; [done|by intros s]. Qed.

Lemma preserves_for_each {A} P (l : list A) (body : A → M S E unit) :
  (∀ x, preserves P (body x)) → preserves P (for_each l body).
Proof.
  intros Hbody. induction l as [|x l IH]; [by intros s|].
  apply (preserves_bind P (body x) (λ _, for_each l body)); [apply Hbody|done].
Qed.

Lemma preserves_try_catch P (m h : M S E unit) :
  preserves P m → preserves P h → preserves P (try_catch m h).
Proof.
  intros Hm Hh s Hs. specialize (Hm s Hs). unfold try_catch, state_of in *.
  destruct (m s) as [[[a|e] s1] t1]; cbn in *; [done|].
  specialize (Hh s1 Hm). unfold state_of in Hh. by destruct (h s1) as [[??]?].
Qed.

Lemma emits_only_ret {A} Q (a : A) : emits_only Q (mret a : M S E A).
Proof. intros s. constructor. Qed.

Lemma emits_only_get Q : emits_only Q (get : M S E S).
Proof. intros s. constructor. Qed.

Lemma emits_only_modify Q f : emits_only Q (modify f : M S E unit).
Proof. intros s. constructor. Qed.

Lemma emits_only_emit Q e : Q e → emits_only Q (emit e : M S E unit).
Proof. intros He s. by repeat constructor. Qed.

Lemma emits_only_bind {A B} Q (m : M S E A) (k : A → M S E B) :
  emits_only Q m → (∀ a, emits_only Q (k a)) → emits_only Q (m ≫= k).
Proof.
  intros Hm Hk s. specialize (Hm s). unfold mbind, M_bind, bind, trace_of in *.
  destruct (m s) as [[[a|e] s1] t1]; cbn in *; [|done].
  specialize (Hk a s1). unfold trace_of in Hk. destruct (k a s1) as [[??]?].
  cbn in *. by apply Forall_app.
Qed.

Lemma emits_only_when Q b (m : M S E unit) : emits_only Q m → emits_only Q (when b m).
Proof. intros Hm. destruct b; [done|]. intros s. constructor. Qed.

Lemma emits_only_for_each {A} Q (l : list A) (body : A → M S E unit) :
  (∀ x, emits_only Q (body x)) → emits_only Q (for_each l body).
Proof.
  intros Hbody. induction l as [|x l IH]; [intros s; constructor|].
  apply (emits_only_bind Q (body x) (λ _, for_each l body)); [apply Hbody|done].
Qed.

Lemma emits_only_try_catch Q (m h : M S E unit) :
  emits_only Q m → emits_only Q h → emits_only Q (try_catch m h).
Proof.
  intros Hm Hh s. specialize (Hm s). unfold try_catch, trace_of in *.
  destruct (m s) as [[[a|e] s1] t1]; cbn in *; [done|].
  specialize (Hh s1). unfold trace_of in Hh. destruct (h s1) as [[??]?].
  cbn in *. by apply Forall_app.
Qed.

End frames.

End EffFrames.

(* ================================================================== *)
(** * The bridge over whole sessions *)
(* ================================================================== *)

Module PiSubscribeSessions.
Import PiSubscribe StripProps PiSubscribeProps EffFrames.

(** The regular expression after a call: at rest, unless the text was
    empty and the expression was not touched. *)
Lemma strip_lastIndex text i :
  (stripThinkingSegments text i).2 = if bool_decide (text = []) then i else 0%nat.
Proof.
  unfold stripThinkingSegments. case_bool_decide; [done|].
  unfold test, exec. case_bool_decide; [done|].
  destruct (search _ _ _) as [[idx n]|]; cbn; [|done].
  by destruct (foldl _ _ _) as [[??]?].
Qed.

Lemma tool_results_app t1 t2 : tool_results (t1 ++ t2) = tool_results t1 ++ tool_results t2.
Proof. apply omap_app. Qed.

Lemma tool_results_none t : Forall (λ e, tool_results [e] = []) t → tool_results t = [].
Proof.
  induction 1 as [|e t He _ IH]; [done|].
  change (e :: t) with ([e] ++ t). by rewrite tool_results_app, He, IH.
Qed.

Section bridge.
Context `{Collaborators}.
Implicit Types (P : state → Prop) (Q : effect → Prop).

Lemma set_re_lastIndex_id s : set_re_lastIndex (re_lastIndex s) s = s.
Proof. by destruct s. Qed.

Lemma preserves_call_sink {A} P (sink : option (A → option error)) a e :
  preserves P (call_sink sink a e).
Proof. intros s Hs. unfold state_of. by rewrite keeps_state_call_sink. Qed.

Lemma emits_only_call_sink {A} Q (sink : option (A → option error)) a e :
  Q e → emits_only Q (call_sink sink a e).
Proof.
  intros He s. destruct sink as [f|]; [|constructor]. cbn.
  unfold mbind, M_bind, bind, emit. cbn. destruct (f a); by repeat constructor.
Qed.

Lemma preserves_strip P text :
  (∀ s, P s → P (set_re_lastIndex 0 s)) → preserves P (strip text).
Proof.
  intros HP s Hs. unfold strip, mbind, M_bind, bind, get, state_of.
  pose proof (strip_lastIndex text (re_lastIndex s)) as Hi.
  destruct (stripThinkingSegments text (re_lastIndex s)) as [result i]. cbn in *.
  subst i. case_bool_decide; [by rewrite set_re_lastIndex_id|by apply HP].
Qed.

Lemma emits_only_strip Q text : emits_only Q (strip text).
Proof.
  intros s. unfold strip, mbind, M_bind, bind, get, trace_of.
  destruct (stripThinkingSegments text (re_lastIndex s)) as [result i]. constructor.
Qed.

Ltac handlers :=
  unfold subscriber, on_tool_execution_start, on_tool_execution_end,
    on_message_update, on_message_end, toolDebouncer_push, toolDebouncer_flush,
    on_debounce_flush, deliver_tool_result.

(** A property of the closure that no assignment in sight breaks is kept
    by the whole computation. *)
Ltac frame :=
  repeat first
    [ apply preserves_ret | apply preserves_get | apply preserves_emit
    | apply preserves_call_sink | apply preserves_when | apply preserves_try_catch
    | apply preserves_for_each; intros ?
    | apply preserves_strip; by intros []
    | apply preserves_modify; by intros []
    | apply preserves_bind; [|intros ?]
    | match goal with
      | |- preserves _ (match ?x with _ => _ end) => destruct x
      end ].

Ltac quiet_with known :=
  repeat first
    [ known
    | apply emits_only_ret | apply emits_only_get | apply emits_only_modify
    | apply emits_only_strip
    | apply emits_only_emit; done
    | apply emits_only_call_sink; done
    | apply emits_only_when | apply emits_only_try_catch
    | apply emits_only_for_each; intros ?
    | apply emits_only_bind; [|intros ?]
    | match goal with
      | |- emits_only _ (match ?x with _ => _ end) => destruct x
      end ].

Ltac quiet := quiet_with fail.

Lemma deliver_all_step p evt evts s :
  deliver_all p (evt :: evts) s =
    ((deliver_all p evts (state_of (subscriber p evt s))).1,
     trace_of (subscriber p evt s)
       ++ (deliver_all p evts (state_of (subscriber p evt s))).2).
Proof. cbn. by destruct (deliver_all p evts _). Qed.

Lemma subscriber_at_rest p evt :
  preserves (λ s, re_lastIndex s = 0%nat) (subscriber p evt).
Proof. destruct evt; handlers; frame. Qed.

Lemma deliver_all_at_rest p evts s :
  re_lastIndex s = 0%nat → re_lastIndex (deliver_all p evts s).1 = 0%nat.
Proof.
  revert s. induction evts as [|evt evts IH]; intros s Hs; [done|].
  rewrite deliver_all_step. cbn [fst]. by apply IH, subscriber_at_rest.
Qed.

(** X14: the shared regular expression is always left at rest. A call of
    [stripThinkingSegments] on a text that is not empty ends with
    [lastIndex] at 0 wherever it stood, and through any sequence of
    session events, whatever the sinks do, the bridge never leaves it
    elsewhere: every scan for markers starts at the beginning of the
    text. *)
Theorem regex_left_at_rest :
  (∀ text i,
     (stripThinkingSegments text i).2 = if bool_decide (text = []) then i else 0%nat) ∧
  (∀ p evts, re_lastIndex (deliver_all p evts subscribed).1 = 0%nat) ∧
  (∀ p evt s text,
     re_lastIndex s = 0%nat →
     strip text (state_of (subscriber p evt s)) =
       (Normal (strip_text text), state_of (subscriber p evt s), [])).
Proof.
  split_and!.
  - apply strip_lastIndex.
  - intros p evts. by apply deliver_all_at_rest.
  - intros p evt s text Hs. by apply strip_at_rest, subscriber_at_rest.
Qed.

(** The final texts after one event. *)
Lemma subscriber_assistantTexts p evt s :
  re_lastIndex s = 0%nat →
  assistantTexts (state_of (subscriber p evt s)) =
    assistantTexts s ++ option_list (final_text_of evt).
Proof.
  intros Hs.
  assert (Hkept : ∀ evt', final_text_of evt' = None →
            preserves (λ s', assistantTexts s' = assistantTexts s) (subscriber p evt') →
            assistantTexts (state_of (subscriber p evt' s)) =
              assistantTexts s ++ option_list (final_text_of evt')).
  { intros evt' -> Hp. cbn. rewrite app_nil_r. by apply Hp. }
  destruct evt as [n i a|n i e|m ev|m| |t]; try (apply Hkept; [done|handlers; frame]).
  destruct m as [msg|]; [|by rewrite app_nil_r].
  cbn [subscriber final_text_of]. unfold on_message_end.
  case_bool_decide; [|by rewrite app_nil_r].
  rewrite (state_of_bind _ _ s _ s [] (strip_at_rest _ s Hs)).
  unfold mbind, M_bind, bind, get, when, modify. cbn.
  case_bool_decide; cbn; by rewrite ?app_nil_r.
Qed.

Lemma deliver_all_assistantTexts p evts s :
  re_lastIndex s = 0%nat →
  assistantTexts (deliver_all p evts s).1 = assistantTexts s ++ omap final_text_of evts.
Proof.
  revert s. induction evts as [|evt evts IH]; intros s Hs.
  - cbn. by rewrite app_nil_r.
  - rewrite deliver_all_step. cbn [fst].
    rewrite IH by (by apply subscriber_at_rest).
    rewrite subscriber_assistantTexts by done. cbn [omap list_omap].
    rewrite <- app_assoc. by destruct (final_text_of evt).
Qed.

(** X15: the [assistantTexts] that the bridge returns hold, in order, the
    stripped text of every assistant message that ended, the empty ones
    left out; no other event adds to them, and no failing sink loses
    one. *)
Theorem assistant_texts_collected p evts :
  assistantTexts (deliver_all p evts subscribed).1 = omap final_text_of evts.
Proof. by rewrite deliver_all_assistantTexts. Qed.

(** The tool metas and their registry after one event. *)
Lemma subscriber_toolMetas p evt s :
  toolMetas (state_of (subscriber p evt s)) =
    toolMetas s ++ tool_metas_of (toolMetaById s) [evt] ∧
  toolMetaById (state_of (subscriber p evt s)) =
    match evt with
    | tool_execution_start toolName toolCallId args =>
        <[toolCallId := inferToolMetaFromArgs toolName args]> (toolMetaById s)
    | _ => toolMetaById s
    end.
Proof.
  assert (Hkept : ∀ evt',
            tool_metas_of (toolMetaById s) [evt'] = [] →
            preserves (λ s', toolMetas s' = toolMetas s ∧ toolMetaById s' = toolMetaById s)
              (subscriber p evt') →
            toolMetas (state_of (subscriber p evt' s)) =
              toolMetas s ++ tool_metas_of (toolMetaById s) [evt'] ∧
            toolMetaById (state_of (subscriber p evt' s)) = toolMetaById s).
  { intros evt' -> Hp. rewrite app_nil_r. by apply Hp. }
  destruct evt as [n i a|n i e|m ev|m| |t];
    try (apply Hkept; [done|handlers; frame]).
  - cbn [subscriber tool_metas_of]. unfold on_tool_execution_start.
    rewrite (state_of_bind _ get s s s []) by done.
    rewrite (state_of_bind _ _ s tt
               (set_toolMetaById (<[i:=inferToolMetaFromArgs n a]> (toolMetaById s)) s) [])
      by done.
    rewrite app_nil_r.
    apply (preserves_bind
             (λ s', toolMetas s' = toolMetas s ∧
                    toolMetaById s' = <[i:=inferToolMetaFromArgs n a]> (toolMetaById s)));
      [frame|intros ?; frame|done].
  - cbn [subscriber tool_metas_of]. unfold on_tool_execution_end.
    rewrite (state_of_bind _ get s s s []) by done.
    rewrite (state_of_bind _ _ s tt
               (set_toolMetas (toolMetas s ++ [(n, mjoin (toolMetaById s !! i))]) s) [])
      by done.
    apply (preserves_bind
             (λ s', toolMetas s' = toolMetas s ++ [(n, mjoin (toolMetaById s !! i))] ∧
                    toolMetaById s' = toolMetaById s));
      [handlers; frame|intros ?; handlers; frame|done].
Qed.

Lemma tool_metas_of_cons reg (evt : AgentEvent) evts :
  tool_metas_of reg (evt :: evts) =
    tool_metas_of reg [evt]
    ++ tool_metas_of
         (match evt with
          | tool_execution_start toolName toolCallId args =>
              <[toolCallId := inferToolMetaFromArgs toolName args]> reg
          | _ => reg
          end) evts.
Proof. by destruct evt. Qed.

Lemma deliver_all_toolMetas p evts s :
  toolMetas (deliver_all p evts s).1 = toolMetas s ++ tool_metas_of (toolMetaById s) evts.
Proof.
  revert s. induction evts as [|evt evts IH]; intros s.
  - cbn. by rewrite app_nil_r.
  - rewrite deliver_all_step. cbn [fst].
    destruct (subscriber_toolMetas p evt s) as [Hm Hr].
    by rewrite (tool_metas_of_cons _ evt evts), IH, Hm, Hr, app_assoc.
Qed.

(** X16: the [toolMetas] that the bridge returns hold one entry for every
    [tool_execution_end], in order: the tool name, with the meta that was
    inferred when that call id last started, and none when it never
    started. The entry is recorded before any sink is called, so no failing
    sink loses one. *)
Theorem tool_metas_collected p evts :
  toolMetas (deliver_all p evts subscribed).1 = tool_metas_of ∅ evts.
Proof. by rewrite deliver_all_toolMetas. Qed.

Lemma subscriber_without_tool_results p evt :
  emits_tool_result p = false ∨ onToolResult p = None →
  emits_only (λ e, tool_results [e] = []) (subscriber p evt).
Proof.
  intros Hp.
  assert (Hquiet : ∀ toolName meta,
            emits_only (λ e, tool_results [e] = []) (deliver_tool_result p toolName meta)).
  { intros toolName meta. unfold deliver_tool_result. cbn zeta.
    destruct Hp as [-> | ->]; [quiet|]. destruct (emits_tool_result p); quiet. }
  destruct evt;
    unfold subscriber, on_tool_execution_start, on_tool_execution_end,
      on_message_update, on_message_end, toolDebouncer_push, toolDebouncer_flush,
      on_debounce_flush;
    quiet_with ltac:(apply Hquiet).
Qed.

(** X17: tool results are delivered only on request. When neither the
    injected predicate nor the verbose level asks for them, or when no
    [onToolResult] sink is given, no event of any session reaches that
    sink. *)
Theorem tool_results_on_request p evts s :
  emits_tool_result p = false ∨ onToolResult p = None →
  tool_results (deliver_all p evts s).2 = [].
Proof.
  intros Hp. revert s. induction evts as [|evt evts IH]; intros s; [done|].
  rewrite deliver_all_step. cbn [snd]. rewrite tool_results_app, IH, app_nil_r.
  by apply tool_results_none, subscriber_without_tool_results.
Qed.

Lemma flush_calls_quiet p calls :
  emits_only (λ e, tool_results [e] = []) (for_each calls (on_debounce_flush p)).
Proof. handlers. quiet. Qed.

(** X18: only the [onToolResult] sink is guarded. When the [onAgentEvent]
    sink throws on the result of a tool call, the exception leaves the
    subscriber: the tool meta has been recorded and the telemetry emitter
    has been called, but the tool result is never delivered. *)
Theorem agent_sink_failure_escapes p f err toolName toolCallId isError s :
  onAgentEvent p = Some f → returns (onPartialReply p) →
  let meta := mjoin (toolMetaById s !! toolCallId) in
  let data := ToolResult toolName toolCallId meta isError in
  f (js "tool", data) = Some err →
  let run := subscriber p (tool_execution_end toolName toolCallId isError) s in
  outcome run = Abrupt err ∧
  toolMetas (state_of run) = toolMetas s ++ [(toolName, meta)] ∧
  EmitAgentEvent (runId p) (js "tool") data ∈ trace_of run ∧
  tool_results (trace_of run) = [].
Proof.
  intros Hagent Hpartial meta data Hf. cbn zeta. cbn [subscriber].
  unfold on_tool_execution_end. fold meta.
  set (s1 := set_toolMetas (toolMetas s ++ [(toolName, meta)]) s).
  destruct (debouncer_push toolName meta (toolDebouncer s)) as [d calls] eqn:Hd.
  destruct (flush_calls_return p calls (set_toolDebouncer d s1) Hpartial)
    as [flushed Hflush].
  assert (Hpush : toolDebouncer_push p toolName meta s1
                  = (Normal tt, set_toolDebouncer d s1, flushed)).
  { unfold toolDebouncer_push.
    rewrite (bind_pure _ get s1 s1 s1) by done.
    change (toolDebouncer s1) with (toolDebouncer s). rewrite Hd.
    by rewrite (bind_pure _ _ s1 tt (set_toolDebouncer d s1)) by done. }
  assert (Hsink : (call_sink (onAgentEvent p) (js "tool", data)
                     (OnAgentEvent (js "tool") data)
                   ≫= λ _, deliver_tool_result p toolName meta) (set_toolDebouncer d s1)
                  = (Abrupt err, set_toolDebouncer d s1, [OnAgentEvent (js "tool") data])).
  { rewrite Hagent. unfold call_sink, mbind, M_bind, bind, emit. by rewrite Hf. }
  rewrite (bind_pure _ get s s s) by done.
  rewrite (bind_pure _ _ s tt s1) by done.
  erewrite bind_run; [|exact Hpush|eapply bind_run; [reflexivity|exact Hsink]].
  unfold outcome, state_of, trace_of. cbn [fst snd].
  split_and!; [done|done| |].
  - rewrite !elem_of_app, !elem_of_cons. auto.
  - rewrite !tool_results_app. cbn. rewrite app_nil_r.
    pose proof (flush_calls_quiet p calls (set_toolDebouncer d s1)) as Hq.
    rewrite Hflush in Hq. by apply tool_results_none.
Qed.

(** A [message_update] that carries text, up to its deliveries. *)
Lemma message_update_run p message ev chunk s :
  is_assistant message = true → text_chunk ev = Some chunk →
  re_lastIndex s = 0%nat →
  subscriber p (message_update message ev) s =
    let s1 := set_deltaBuffer (deltaBuffer s ++ chunk) s in
    match streamed s chunk with
    | None => (Normal tt, s1, [])
    | Some next =>
        (let '(cleanedText, mediaUrls) := splitMediaFromOutput next in
         let data := AssistantText cleanedText (media_or_undefined mediaUrls) in
         emit (EmitAgentEvent (runId p) (js "assistant") data) ;;
         call_sink (onAgentEvent p) (js "assistant", data)
           (OnAgentEvent (js "assistant") data) ;;
         let payload :=
           {| p_text := cleanedText; p_mediaUrls := media_or_undefined mediaUrls |} in
         call_sink (onPartialReply p) payload (OnPartialReply payload))
          (set_lastStreamedAssistant (Some next) s1)
    end.
Proof.
  intros Hrole Hchunk Hre. cbn [subscriber]. unfold on_message_update. rewrite Hrole.
  unfold text_chunk in Hchunk.
  destruct (_ || _); [|done].
  match type of Hchunk with
  | (if bool_decide (?c ≠ []) then _ else _) = _ => set (chunk' := c) in *
  end.
  case_bool_decide; [|done]. injection Hchunk as Hchunk. subst chunk'.
  rewrite Hchunk. clear Hchunk. cbn zeta.
  rewrite (bind_pure _ get s s s) by done.
  set (s1 := set_deltaBuffer (deltaBuffer s ++ chunk) s).
  rewrite (bind_pure _ _ s tt s1) by done.
  rewrite (bind_pure _ get s1 s1 s1) by done.
  rewrite (bind_pure _ _ s1 _ s1 (strip_at_rest _ s1 Hre)).
  rewrite (bind_pure _ get s1 s1 s1) by done.
  change (deltaBuffer s1) with (deltaBuffer s ++ chunk).
  change (lastStreamedAssistant s1) with (lastStreamedAssistant s).
  unfold streamed. destruct (_ && _); [|done].
  by rewrite (bind_pure _ _ s1 tt (set_lastStreamedAssistant _ s1)) by done.
Qed.

(** X19: what a text-carrying [message_update] streams. The fragment is
    appended to the buffer; the whole buffer is stripped and trimmed; and
    when the outcome is not empty and is not the text streamed last, it
    becomes the text streamed last and goes, once each and in this order,
    to the telemetry emitter, to [onAgentEvent] and to [onPartialReply].
    Otherwise nothing is delivered. *)
Theorem partial_reply_streamed p message ev chunk s :
  is_assistant message = true → text_chunk ev = Some chunk →
  re_lastIndex s = 0%nat →
  returns (onAgentEvent p) → returns (onPartialReply p) →
  subscriber p (message_update message ev) s =
    (Normal tt,
     set_lastStreamedAssistant
       (match streamed s chunk with
        | Some next => Some next
        | None => lastStreamedAssistant s
        end)
       (set_deltaBuffer (deltaBuffer s ++ chunk) s),
     match streamed s chunk with
     | Some next => stream_effects p next
     | None => []
     end).
Proof.
  intros Hrole Hchunk Hre Hagent Hpartial.
  rewrite (message_update_run p _ _ chunk) by done. cbn zeta.
  destruct (streamed s chunk) as [next|]; [|by destruct s].
  unfold stream_effects. destruct (splitMediaFromOutput next) as [cleanedText mediaUrls].
  rewrite (bind_returns _ (emit _) _ tt _ [_]) by done.
  rewrite (bind_returns _ _ _ tt _ _ (call_sink_returns p _ _ _ _ Hagent)).
  rewrite (call_sink_returns p) by done.
  unfold outcome, state_of, trace_of. cbn [fst snd].
  by destruct (onAgentEvent p), (onPartialReply p).
Qed.

(** X20: thinking is never streamed while it is open. When the buffer,
    with the new fragment, shows nothing but white space before an
    opening marker that no closing marker follows, the update delivers
    nothing to any sink and leaves the text streamed last as it was. *)
Theorem open_thinking_not_streamed p message ev chunk before o rest s :
  is_assistant message = true → text_chunk ev = Some chunk →
  re_lastIndex s = 0%nat →
  deltaBuffer s ++ chunk = before ++ o ++ rest →
  trim (strip_text before) = [] → is_opening o = true → no_closing_marker rest →
  subscriber p (message_update message ev) s =
    (Normal tt, set_deltaBuffer (deltaBuffer s ++ chunk) s, []).
Proof.
  intros Hrole Hchunk Hre Hbuf Hpre Ho Hrest.
  rewrite (message_update_run p _ _ chunk) by done. cbn zeta.
  unfold streamed. rewrite Hbuf, strip_unclosed, Hpre by done.
  by rewrite bool_decide_false by (by intros ?).
Qed.

(** X21: text is streamed as it stands until a marker is complete. A
    buffer that holds no complete marker is streamed whole, trimmed; so
    the beginning of a marker that is split between two fragments reaches
    the sinks as text before the rest of it arrives. *)
Theorem unfinished_marker_streamed p message ev chunk s :
  is_assistant message = true → text_chunk ev = Some chunk →
  re_lastIndex s = 0%nat →
  returns (onAgentEvent p) → returns (onPartialReply p) →
  no_marker (deltaBuffer s ++ chunk) →
  let next := trim (deltaBuffer s ++ chunk) in
  next ≠ [] → Some next ≠ lastStreamedAssistant s →
  trace_of (subscriber p (message_update message ev) s) = stream_effects p next.
Proof.
  intros Hrole Hchunk Hre Hagent Hpartial Hmarker next Hnext Hnew.
  rewrite (message_update_run p _ _ chunk) by done. cbn zeta.
  unfold streamed. rewrite strip_no_marker by done. fold next.
  rewrite !bool_decide_true by done. cbn [andb].
  unfold stream_effects. destruct (splitMediaFromOutput next) as [cleanedText mediaUrls].
  rewrite (bind_returns _ (emit _) _ tt _ [_]) by done.
  rewrite (bind_returns _ _ _ tt _ _ (call_sink_returns p _ _ _ _ Hagent)).
  rewrite (call_sink_returns p) by done.
  unfold outcome, state_of, trace_of. cbn [fst snd].
  by destruct (onAgentEvent p), (onPartialReply p).
Qed.

(** The closure after the end of an assistant message. *)
Lemma message_end_run p msg s :
  role msg = js "assistant" → re_lastIndex s = 0%nat →
  subscriber p (message_end (Some msg)) s =
    (Normal tt,
     set_deltaBuffer []
       (set_assistantTexts
          (assistantTexts s ++ option_list (final_text_of (message_end (Some msg)))) s),
     []).
Proof.
  intros Hrole Hre. cbn [subscriber final_text_of]. unfold on_message_end.
  rewrite bool_decide_true by done.
  rewrite (bind_pure _ _ s _ s (strip_at_rest _ s Hre)).
  unfold mbind, M_bind, bind, get, when, modify. cbn.
  case_bool_decide; cbn; [done|]. rewrite app_nil_r. by destruct s.
Qed.

(** X22: the end of a message empties the buffer but keeps the text
    streamed last. A following message therefore starts from an empty
    buffer, and a first fragment that strips and trims to the very text
    streamed last is not streamed again. *)
Theorem repeated_reply_not_streamed p msg message ev chunk s :
  role msg = js "assistant" → is_assistant message = true →
  text_chunk ev = Some chunk → re_lastIndex s = 0%nat →
  lastStreamedAssistant s = Some (trim (strip_text chunk)) →
  let s' := state_of (subscriber p (message_end (Some msg)) s) in
  deltaBuffer s' = [] ∧
  lastStreamedAssistant s' = lastStreamedAssistant s ∧
  subscriber p (message_update message ev) s' =
    (Normal tt, set_deltaBuffer chunk s', []).
Proof.
  intros Hrole Hmsg Hchunk Hre Hlast. cbn zeta.
  rewrite (message_end_run p msg s) by done. unfold state_of. cbn [fst snd].
  split_and!; [done|done|].
  rewrite (message_update_run p _ _ chunk) by done. cbn zeta.
  unfold streamed. cbn [deltaBuffer set_deltaBuffer lastStreamedAssistant
                         set_assistantTexts app]. rewrite Hlast.
  rewrite (bool_decide_false (Some _ ≠ Some _)) by (by intros ?).
  by rewrite andb_false_r.
Qed.

End bridge.

#[local] Existing Instance plain_session.

Lemma tool_results_on_request_witness :
  tool_results
    (deliver_all (with_onToolResult None verbose_params)
       [tool_execution_start (js "Read") (js "tu-1") (obj [member "path" (str "/foo")]);
        tool_execution_end (js "Read") (js "tu-1") false; agent_end] subscribed).2 = [].
Proof. apply (tool_results_on_request (H := plain_session)). by right. Defined.

Lemma agent_sink_failure_escapes_witness :
  let p := {| runId := js "run-1"; verboseLevel := Some on;
              shouldEmitToolResult := None;
              onToolResult := Some (λ _, None);
              onPartialReply := None;
              onAgentEvent := Some (λ _, Some TypeError) |} in
  let run := subscriber p (tool_execution_end (js "Read") (js "tu-1") false) reading in
  outcome run = Abrupt TypeError ∧
  toolMetas (state_of run) = [(js "Read", Some (js "/foo"))] ∧
  tool_results (trace_of run) = [].
Proof.
  cbn zeta.
  destruct (agent_sink_failure_escapes (H := plain_session)
              {| runId := js "run-1"; verboseLevel := Some on;
                 shouldEmitToolResult := None;
                 onToolResult := Some (λ _, None);
                 onPartialReply := None;
                 onAgentEvent := Some (λ _, Some TypeError) |}
              (λ _, Some TypeError) TypeError (js "Read") (js "tu-1") false reading)
    as (Hout & Hmeta & _ & Hquiet); [done|done|done|].
  split_and!; [exact Hout| |exact Hquiet].
  rewrite Hmeta. by vm_compute.
Defined.

Lemma partial_reply_streamed_witness :
  subscriber verbose_params
    (message_update (Some assistant_message)
       (Some (text_delta (js "<think>plan</think> Hello ")))) subscribed =
    (Normal tt,
     set_lastStreamedAssistant (Some (js "Hello"))
       (set_deltaBuffer (js "<think>plan</think> Hello ") subscribed),
     [EmitAgentEvent (js "run-1") (js "assistant") (AssistantText (js "Hello") None);
      OnAgentEvent (js "assistant") (AssistantText (js "Hello") None);
      OnPartialReply {| p_text := js "Hello"; p_mediaUrls := None |}]).
Proof.
  rewrite (partial_reply_streamed (H := plain_session) verbose_params _ _
             (js "<think>plan</think> Hello ")).
  - by vm_compute.
  - done.
  - done.
  - done.
  - by intros f a [= <-].
  - by intros f a [= <-].
Defined.

Lemma open_thinking_not_streamed_witness :
  subscriber verbose_params
    (message_update (Some assistant_message) (Some (text_delta (js "<think>pla"))))
    subscribed =
    (Normal tt, set_deltaBuffer (js "<think>pla") subscribed, []).
Proof.
  apply (open_thinking_not_streamed (H := plain_session) verbose_params _ _
           (js "<think>pla") [] (js "<think>") (js "pla")); try done.
  unfold no_closing_marker. vm_compute. constructor.
Defined.

Lemma unfinished_marker_streamed_witness :
  trace_of (subscriber verbose_params
              (message_update (Some assistant_message) (Some (text_delta (js "<thi"))))
              subscribed) =
    [EmitAgentEvent (js "run-1") (js "assistant") (AssistantText (js "<thi") None);
     OnAgentEvent (js "assistant") (AssistantText (js "<thi") None);
     OnPartialReply {| p_text := js "<thi"; p_mediaUrls := None |}].
Proof.
  rewrite (unfinished_marker_streamed (H := plain_session) verbose_params _ _ (js "<thi")).
  - by vm_compute.
  - done.
  - done.
  - done.
  - by intros f a [= <-].
  - by intros f a [= <-].
  - by vm_compute.
  - by vm_compute.
  - by vm_compute.
Defined.

Lemma repeated_reply_not_streamed_witness :
  let s := set_lastStreamedAssistant (Some (js "ok")) subscribed in
  let s' := state_of (subscriber verbose_params (message_end (Some assistant_message)) s) in
  subscriber verbose_params
    (message_update (Some assistant_message) (Some (text_delta (js "ok")))) s' =
    (Normal tt, set_deltaBuffer (js "ok") s', []).
Proof.
  cbn zeta.
  apply (repeated_reply_not_streamed (H := plain_session) verbose_params
           assistant_message (Some assistant_message)
           (Some (text_delta (js "ok"))) (js "ok")
           (set_lastStreamedAssistant (Some (js "ok")) subscribed)); done.
Defined.

End PiSubscribeSessions.
